(** * tools/project.js: the project's dependency-state coordinator

    A shallow embedding of the [Project] class of [tools/project.js] and
    the properties of its recompute / commit / report cycle.

    Conventions of the embedding.
    - A JavaScript object used as a map is an association list in
      enumeration order (insertion order of its keys); see [Obj].  Keys
      that are canonical array indices, which the engine enumerates first,
      do not occur among package names and are not treated specially.
    - A value that is a string or [null] is an [option string].
    - The collaborators required from other files ([release], [catalog],
      [tropohouse], [files], [utils], [watch], [package-source]) are the
      fields of an [Env] record.
    - Methods are state transformers over a [World]: the project object,
      the files on disk and the trace of every external operation.  A
      method that throws still returns the world it left behind, as the
      mutation of [self] survives the exception.
    - [path.join] is string concatenation with a slash; it throws on a
      [null] argument.  Of the errors of the file system only the read
      of a missing file is modelled: a write does not fail, the directory
      [.meteor] of the project being taken to exist.
    - Strings are compared and sorted by their character codes; properties
      inherited from [Object.prototype] are not looked up. *)

From Stdlib Require Import String Ascii List Bool Arith Lia Sorted Permutation.
Import ListNotations.
Open Scope string_scope.

Set Implicit Arguments.

(** ** Strings and [null] *)

(** A string or [null]. *)
Definition jsstr := option string.

(** String conversion in a concatenation: [null] prints as "null". *)
Definition toStr (v : jsstr) : string :=
  match v with
  | Some s => s
  | None => "null"
  end.

(** String conversion of the result of a property read, where a missing
    property is [undefined]. *)
Definition propStr (v : option jsstr) : string :=
  match v with
  | Some x => toStr x
  | None => "undefined"
  end.

(** Truthiness of the result of a property read: [undefined], [null] and
    the empty string are falsy. *)
Definition truthy (v : option jsstr) : bool :=
  match v with
  | Some (Some s) => negb (s =? "")
  | _ => false
  end.

Definition jsstr_eqb (a b : jsstr) : bool :=
  match a, b with
  | Some x, Some y => x =? y
  | None, None => true
  | _, _ => false
  end.

Definition mem (x : string) (l : list string) : bool :=
  existsb (String.eqb x) l.

(** ** Objects used as maps *)

Module Obj.

Definition t (V : Type) := list (string * V).

Definition empty {V : Type} : t V := [].

(** [o[k]]; [None] is [undefined]. *)
Fixpoint get {V : Type} (o : t V) (k : string) : option V :=
  match o with
  | [] => None
  | (k', v) :: r => if k' =? k then Some v else get r k
  end.

(** [_.has(o, k)] *)
Definition has {V : Type} (o : t V) (k : string) : bool :=
  match get o k with
  | Some _ => true
  | None => false
  end.

(** [o[k] = v]: an existing key keeps its place, a new key goes last. *)
Fixpoint set {V : Type} (o : t V) (k : string) (v : V) : t V :=
  match o with
  | [] => [(k, v)]
  | (k', v') :: r =>
      if k' =? k then (k', v) :: r else (k', v') :: set r k v
  end.

(** [delete o[k]] *)
Definition delete {V : Type} (o : t V) (k : string) : t V :=
  filter (fun e => negb (fst e =? k)) o.

(** [_.keys(o)] *)
Definition keys {V : Type} (o : t V) : list string := map fst o.

(** [_.values(o)] *)
Definition values {V : Type} (o : t V) : list V := map snd o.

(** The keys of an object are pairwise distinct. *)
Definition wf {V : Type} (o : t V) : Prop := NoDup (keys o).

(** [_.isEqual(a, b)] on two objects whose values are compared by [eqv]:
    every key of [a] is a key of [b] with an equal value, and both have
    the same number of keys. *)
Definition isEqual {V : Type} (eqv : V -> V -> bool) (a b : t V) : bool :=
  forallb (fun e => match get b (fst e) with
                    | Some v => eqv (snd e) v
                    | None => false
                    end) a
  && (length (keys a) =? length (keys b))%nat.

End Obj.

(** A version map: package name to version. *)
Definition versions := Obj.t jsstr.

(** ** Text helpers *)

(** [\s] on the ASCII range. *)
Definition is_space (c : ascii) : bool :=
  match nat_of_ascii c with
  | 9 | 10 | 11 | 12 | 13 | 32 => true
  | _ => false
  end.

(** The part of [s] before the first occurrence of [c], all of [s] when
    there is none. *)
Fixpoint before (c : ascii) (s : string) : string :=
  match s with
  | EmptyString => EmptyString
  | String a r => if Ascii.eqb a c then EmptyString else String a (before c r)
  end.

Fixpoint ltrim (s : string) : string :=
  match s with
  | EmptyString => EmptyString
  | String a r => if is_space a then ltrim r else s
  end.

Fixpoint rtrim (s : string) : string :=
  match s with
  | EmptyString => EmptyString
  | String a r =>
      match rtrim r with
      | EmptyString => if is_space a then EmptyString else String a EmptyString
      | r' => String a r'
      end
  end.

(** [trimLine]: drop a trailing comment, then the surrounding blanks. *)
Definition trimLine (line : string) : string :=
  rtrim (ltrim (before "#" line)).

(** [s.substr(0, s.length - 1)] *)
Fixpoint dropLast (s : string) : string :=
  match s with
  | EmptyString => EmptyString
  | String a EmptyString => EmptyString
  | String a r => String a (dropLast r)
  end.

(** The line feed. *)
Definition nl : string := String (ascii_of_nat 10) EmptyString.

(** [lines.join(sep)] *)
Definition join (sep : string) (lines : list string) : string :=
  String.concat sep lines.

(** [lines.sort()]: ascending in the order of the character codes. *)
Fixpoint insertSorted (x : string) (l : list string) : list string :=
  match l with
  | [] => [x]
  | y :: r => if String.leb x y then x :: l else y :: insertSorted x r
  end.

Definition sortLines (l : list string) : list string :=
  fold_right insertSorted [] l.

(** ** Data model *)

(** An entry of the combined-constraints list.  A field that the pushed
    object does not have reads as [false] ([weak]) or [None] ([ctype],
    the [type] field). *)
Record Constraint := {
  packageName : string;
  version : jsstr;
  weak : bool;
  ctype : option string
}.

(** What [utils.parseVersionConstraint] returns: the fields that
    [_.extend] copies next to [packageName]. *)
Record VersionDesc := {
  vd_version : jsstr;
  vd_type : option string
}.

(** A [use] of a program's unibuild. *)
Record Use := {
  use_package : string;
  use_constraint : jsstr
}.

(** [release.current] *)
Record Release := {
  isProperRelease : bool;
  getPackages : Obj.t string
}.

Inductive Outcome (A : Type) : Type :=
| Ret (a : A)
| Throw (msg : string).

Arguments Ret {A} a.
Arguments Throw {A} msg.

(** The collaborators the file requires. *)
Record Env := {
  release_current : option Release;
  release_explicit : bool;
  (* catalog.complete.getPackage(name) is truthy *)
  catalog_getPackage : string -> bool;
  (* catalog.complete.resolveConstraints(constraints, {previousSolution}, _) *)
  catalog_resolveConstraints :
    list Constraint -> option versions -> Outcome versions;
  (* tropohouse.default.maybeDownloadPackageForArchitectures *)
  tropohouse_maybeDownload : string -> jsstr -> list string -> Outcome unit;
  archinfo_host : string;
  (* the line splitting of files.getLines *)
  files_getLines : string -> list string;
  utils_splitConstraint : string -> string * jsstr;
  utils_parseVersionConstraint : jsstr -> VersionDesc;
  utils_randomToken : nat -> string;
  (* watch.readDirectory on the programs directory *)
  watch_readDirectory : string -> list string;
  (* the uses of each unibuild of the program initialised from a directory *)
  programSource_architectures : string -> string -> list (list Use)
}.

(** The fields of a [Project]. *)
Record Project := {
  rootDir : option string;
  constraints : option (Obj.t jsstr);
  combinedConstraints : option (list Constraint);
  dependencies : option versions;
  packageLoader : option versions;
  appId : option string;
  viableDepSource : bool;
  _depsUpToDate : bool;
  muted : bool
}.

(** [new Project()] *)
Definition newProject : Project := {|
  rootDir := None;
  constraints := None;
  combinedConstraints := None;
  dependencies := None;
  packageLoader := None;
  appId := None;
  viableDepSource := false;
  _depsUpToDate := false;
  muted := false
|}.

Definition with_rootDir (x : option string) (p : Project) : Project :=
  {| rootDir := x; constraints := constraints p;
     combinedConstraints := combinedConstraints p;
     dependencies := dependencies p; packageLoader := packageLoader p;
     appId := appId p; viableDepSource := viableDepSource p;
     _depsUpToDate := _depsUpToDate p; muted := muted p |}.

Definition with_constraints (x : option (Obj.t jsstr)) (p : Project) : Project :=
  {| rootDir := rootDir p; constraints := x;
     combinedConstraints := combinedConstraints p;
     dependencies := dependencies p; packageLoader := packageLoader p;
     appId := appId p; viableDepSource := viableDepSource p;
     _depsUpToDate := _depsUpToDate p; muted := muted p |}.

Definition with_combinedConstraints (x : option (list Constraint)) (p : Project)
  : Project :=
  {| rootDir := rootDir p; constraints := constraints p;
     combinedConstraints := x;
     dependencies := dependencies p; packageLoader := packageLoader p;
     appId := appId p; viableDepSource := viableDepSource p;
     _depsUpToDate := _depsUpToDate p; muted := muted p |}.

Definition with_dependencies (x : option versions) (p : Project) : Project :=
  {| rootDir := rootDir p; constraints := constraints p;
     combinedConstraints := combinedConstraints p;
     dependencies := x; packageLoader := packageLoader p;
     appId := appId p; viableDepSource := viableDepSource p;
     _depsUpToDate := _depsUpToDate p; muted := muted p |}.

Definition with_packageLoader (x : option versions) (p : Project) : Project :=
  {| rootDir := rootDir p; constraints := constraints p;
     combinedConstraints := combinedConstraints p;
     dependencies := dependencies p; packageLoader := x;
     appId := appId p; viableDepSource := viableDepSource p;
     _depsUpToDate := _depsUpToDate p; muted := muted p |}.

Definition with_appId (x : option string) (p : Project) : Project :=
  {| rootDir := rootDir p; constraints := constraints p;
     combinedConstraints := combinedConstraints p;
     dependencies := dependencies p; packageLoader := packageLoader p;
     appId := x; viableDepSource := viableDepSource p;
     _depsUpToDate := _depsUpToDate p; muted := muted p |}.

Definition with_viableDepSource (x : bool) (p : Project) : Project :=
  {| rootDir := rootDir p; constraints := constraints p;
     combinedConstraints := combinedConstraints p;
     dependencies := dependencies p; packageLoader := packageLoader p;
     appId := appId p; viableDepSource := x;
     _depsUpToDate := _depsUpToDate p; muted := muted p |}.

Definition with_depsUpToDate (x : bool) (p : Project) : Project :=
  {| rootDir := rootDir p; constraints := constraints p;
     combinedConstraints := combinedConstraints p;
     dependencies := dependencies p; packageLoader := packageLoader p;
     appId := appId p; viableDepSource := viableDepSource p;
     _depsUpToDate := x; muted := muted p |}.

Definition with_muted (x : bool) (p : Project) : Project :=
  {| rootDir := rootDir p; constraints := constraints p;
     combinedConstraints := combinedConstraints p;
     dependencies := dependencies p; packageLoader := packageLoader p;
     appId := appId p; viableDepSource := viableDepSource p;
     _depsUpToDate := _depsUpToDate p; muted := x |}.

(** Every operation that leaves the project object. *)
Inductive Event : Type :=
| ReadFile (path : string)
| WriteFile (path content : string)
| ExistsFile (path : string)
| ReadDirectory (path : string)
| InitProgram (name dir : string)
| RandomToken
| Resolve (cs : list Constraint) (previousSolution : option versions)
| Download (name : string) (v : jsstr) (arches : list string) (verbose : bool)
| ConsoleLog (msg : string)
| Stdout (msg : string)
| Stderr (msg : string).

(** The project, the files, the number of random tokens drawn so far and
    the operations performed so far, oldest first. *)
Record World := {
  self : Project;
  disk : Obj.t string;
  drawn : nat;
  trace : list Event
}.

(** ** Methods as state transformers that may throw *)

Definition M (A : Type) : Type := World -> World * Outcome A.

Definition ret {A : Type} (a : A) : M A := fun w => (w, Ret a).

Definition throw {A : Type} (msg : string) : M A := fun w => (w, Throw msg).

Definition bind {A B : Type} (c : M A) (k : A -> M B) : M B :=
  fun w =>
    match c w with
    | (w', Ret a) => k a w'
    | (w', Throw msg) => (w', Throw msg)
    end.

Declare Scope js_scope.
Delimit Scope js_scope with js.

Notation "x <- c ;; k" := (bind c (fun x => k))
  (at level 61, c at next level, right associativity) : js_scope.
Notation "c ;; k" := (bind c (fun _ => k))
  (at level 61, right associativity) : js_scope.

Open Scope js_scope.

(** Read the project object. *)
Definition this : M Project := fun w => (w, Ret (self w)).

(** Assign to fields of the project object. *)
Definition assign (f : Project -> Project) : M unit :=
  fun w => ({| self := f (self w); disk := disk w; drawn := drawn w;
               trace := trace w |}, Ret tt).

(** The world after the operations [es] were performed on top of [w]. *)
Definition logged (es : list Event) (w : World) : World :=
  {| self := self w; disk := disk w; drawn := drawn w;
     trace := trace w ++ es |}.

Definition emit (e : Event) : M unit :=
  fun w => (logged [e] w, Ret tt).

(** [_.each(l, f)] for a callback with effects. *)
Fixpoint each {A : Type} (l : list A) (f : A -> M unit) : M unit :=
  match l with
  | [] => ret tt
  | x :: r => f x ;; each r f
  end.

(** A loop that threads a local variable through its iterations. *)
Fixpoint eachWith {A S : Type} (l : list A) (s : S) (f : S -> A -> M S) : M S :=
  match l with
  | [] => ret s
  | x :: r => s' <- f s x ;; eachWith r s' f
  end.

Definition typeError {A : Type} (what : string) : M A :=
  throw ("TypeError: " ++ what).

(** [path.join(dir, rest)] *)
Definition path_join (dir : option string) (rest : string) : M string :=
  match dir with
  | Some d => ret (d ++ "/" ++ rest)
  | None => typeError "Arguments to path.join must be strings"
  end.

(** [fs.writeFileSync(path, content)], into a directory that exists: the
    error of a write below a missing directory is not modelled, so that
    what is proved of a method that writes is about the calls whose
    writes succeed. *)
Definition writeFileSync (path content : string) : M unit :=
  emit (WriteFile path content) ;;
  fun w => ({| self := self w; disk := Obj.set (disk w) path content;
               drawn := drawn w; trace := trace w |}, Ret tt).

(** [fs.existsSync(path)] *)
Definition existsSync (path : string) : M bool :=
  emit (ExistsFile path) ;;
  fun w => (w, Ret (Obj.has (disk w) path)).

(** [fs.readFileSync(path, 'utf8')] *)
Definition readFileSync (path : string) : M string :=
  emit (ReadFile path) ;;
  fun w => match Obj.get (disk w) path with
           | Some c => (w, Ret c)
           | None => (w, Throw ("ENOENT: " ++ path))
           end.

(** ** The methods of [Project] *)

Section Methods.

Variable env : Env.

(** [files.getLinesOrEmpty(path)]: no lines for a file that does not exist. *)
Definition getLinesOrEmpty (path : string) : M (list string) :=
  emit (ReadFile path) ;;
  fun w => match Obj.get (disk w) path with
           | Some c => (w, Ret (files_getLines env c))
           | None => (w, Ret [])
           end.

(** [processPerConstraintLines]: later duplicates overwrite earlier ones. *)
Definition processPerConstraintLines (lines : list string) : Obj.t jsstr :=
  fold_left
    (fun ret line =>
       let line := trimLine line in
       if line =? "" then ret
       else let constraint := utils_splitConstraint env line in
            Obj.set ret (fst constraint) (snd constraint))
    lines Obj.empty.

Definition setMuted (m : bool) : M unit :=
  assign (with_muted m).

Definition _getConstraintFile : M string :=
  p <- this ;; path_join (rootDir p) ".meteor/packages".

Definition _getVersionsFile : M string :=
  p <- this ;; path_join (rootDir p) ".meteor/versions".

Definition appIdentifierFile : M string :=
  p <- this ;; path_join (rootDir p) ".meteor/identifier".

Definition getProgramsDirectory : M string :=
  p <- this ;; path_join (rootDir p) "programs".

(** [utils.randomToken()] *)
Definition randomToken : M string :=
  emit RandomToken ;;
  fun w => ({| self := self w; disk := disk w; drawn := S (drawn w);
               trace := trace w |}, Ret (utils_randomToken env (drawn w))).

Definition ensureAppIdentifier : M unit :=
  identifierFile <- appIdentifierFile ;;
  present <- existsSync identifierFile ;;
  (if present then ret tt
   else
     t1 <- randomToken ;;
     t2 <- randomToken ;;
     t3 <- randomToken ;;
     writeFileSync identifierFile (t1 ++ t2 ++ t3)) ;;
  present' <- existsSync identifierFile ;;
  if present' then
    id <- readFileSync identifierFile ;;
    assign (with_appId (Some id))
  else throw ("Expected a file at " ++ identifierFile).

Definition setRootDir (dir : option string) : M unit :=
  assign (with_rootDir dir) ;;
  appConstraintFile <- _getConstraintFile ;;
  lines <- getLinesOrEmpty appConstraintFile ;;
  assign (with_constraints (Some (processPerConstraintLines lines))) ;;
  assign (with_combinedConstraints None) ;;
  assign (with_packageLoader None) ;;
  versionsFile <- _getVersionsFile ;;
  vlines <- getLinesOrEmpty versionsFile ;;
  assign (with_dependencies (Some (processPerConstraintLines vlines))) ;;
  ensureAppIdentifier ;;
  assign (with_depsUpToDate false) ;;
  assign (with_viableDepSource true).

Definition reload : M unit :=
  p <- this ;; setRootDir (rootDir p).

(** [getProgramsSubdirs()], without a watch set. *)
Definition getProgramsSubdirs : M (list string) :=
  programsDir <- getProgramsDirectory ;;
  emit (ReadDirectory programsDir) ;;
  ret (watch_readDirectory env programsDir).

(** [_.extend({packageName: name}, utils.parseVersionConstraint(c))] *)
Definition parsedDep (name : string) (c : jsstr) : Constraint :=
  let d := utils_parseVersionConstraint env c in
  {| packageName := name; version := vd_version d; weak := false;
     ctype := vd_type d |}.

(** [use.constraint || null] *)
Definition orNull (c : jsstr) : jsstr :=
  if truthy (Some c) then c else None.

(** The entries pushed for the program in subdirectory [item]. *)
Definition programDeps (item : string) : M (list Constraint) :=
  let programName := dropLast item in
  programsDir <- getProgramsDirectory ;;
  let programSubdir := programsDir ++ "/" ++ item in
  emit (InitProgram programName programSubdir) ;;
  ret (flat_map
         (fun uses =>
            map (fun use => parsedDep (use_package use)
                                      (orNull (use_constraint use))) uses)
         (programSource_architectures env programName programSubdir)).

Definition releaseDep (e : string * string) : Constraint :=
  {| packageName := fst e; version := Some (snd e); weak := true;
     ctype := Some "exactly" |}.

(** The entry of the control-package hook. *)
Definition ctlDep : Constraint :=
  {| packageName := "ctl"; version := None; weak := false; ctype := None |}.

Definition calculateCombinedConstraints (releasePackages : Obj.t string)
  : M (list Constraint) :=
  p <- this ;;
  let allDeps :=
    match constraints p with
    | Some cs => map (fun e => parsedDep (fst e) (snd e)) cs
    | None => []
    end in
  programsSubdirs <- getProgramsSubdirs ;;
  allDeps <- eachWith programsSubdirs allDeps
               (fun allDeps item =>
                  ds <- programDeps item ;; ret (allDeps ++ ds)%list) ;;
  let allDeps := (allDeps ++ map releaseDep releasePackages)%list in
  let allDeps :=
    if catalog_getPackage env "ctl" then (allDeps ++ [ctlDep])%list
    else allDeps in
  ret allDeps.

(** The options of [showPackageChanges]. *)
Record ShowOptions := {
  skipPackages : option (list string);
  onDiskPackages : option versions
}.

(** [_.contains(options.skipPackages, name)] *)
Definition skipped (options : ShowOptions) (name : string) : bool :=
  match skipPackages options with
  | Some l => mem name l
  | None => false
  end.

(** The local variables [failed] and [messageLog] of [showPackageChanges]. *)
Record ShowState := {
  failed : bool;
  messageLog : list string
}.

(** The first loop of [showPackageChanges]. *)
Definition removedMessages (old new : versions) (options : ShowOptions)
  : list string :=
  let removed := filter (fun k => negb (mem k (Obj.keys new))) (Obj.keys old) in
  map (fun packageName => "removed dependency on " ++ packageName)
      (filter (fun packageName => negb (skipped options packageName)) removed).

(** The test on [options.onDiskPackages]. *)
Definition notOnDisk (options : ShowOptions) (packageName : string)
  (v : jsstr) : bool :=
  match onDiskPackages options with
  | Some onDisk =>
      negb (truthy (Obj.get onDisk packageName))
      || negb (match Obj.get onDisk packageName with
               | Some x => jsstr_eqb x v
               | None => false
               end)
  | None => false
  end.

(** One iteration of the second loop of [showPackageChanges]. *)
Definition showStep (old new : versions) (options : ShowOptions)
  (s : ShowState) (e : string * jsstr) : M ShowState :=
  let packageName := fst e in
  let v := snd e in
  if failed s then ret s
  else if Obj.has old packageName
          && match Obj.get old packageName with
             | Some x => jsstr_eqb x v
             | None => false
             end
  then ret s
  else if notOnDisk options packageName v then
    emit (Stderr ("Package " ++ packageName ++
                  " has no compatible build for version " ++
                  toStr v ++ nl)) ;;
    ret {| failed := true; messageLog := messageLog s |}
  else if skipped options packageName then ret s
  else if Obj.has old packageName then
    ret {| failed := failed s;
           messageLog := messageLog s ++
             ["  upgraded " ++ packageName ++ " from version " ++
              propStr (Obj.get old packageName) ++
              " to version " ++ propStr (Obj.get new packageName)] |}
  else
    ret {| failed := failed s;
           messageLog := messageLog s ++
             ["  added " ++ packageName ++
              " at version " ++ propStr (Obj.get new packageName)] |}.

(** Both loops: the final [failed] and [messageLog]. *)
Definition classifyChanges (old new : versions) (options : ShowOptions)
  : M ShowState :=
  eachWith new
    {| failed := false; messageLog := removedMessages old new options |}
    (showStep old new options).

(** [showPackageChanges]: 0 if everything went well, 1 otherwise.
    [_.keys] is [Object.keys], which throws on [null]. *)
Definition showPackageChanges (old : option versions) (new : versions)
  (options : ShowOptions) : M nat :=
  match old with
  | None => typeError "Object.keys called on non-object"
  | Some old =>
      s <- classifyChanges old new options ;;
      if failed s then ret 1
      else
        p <- this ;;
        (if negb (muted p)
         then each (messageLog s) (fun msg => emit (Stdout (msg ++ nl)))
         else ret tt) ;;
        ret 0
  end.

(** The options of [_ensurePackagesExistOnDisk]. *)
Record DiskOptions := {
  arch : option string;
  verbose : bool
}.

Definition noDiskOptions : DiskOptions := {| arch := None; verbose := false |}.

(** [_ensurePackagesExistOnDisk]: the packages whose download did not
    throw, in the order of [vs]. *)
Definition _ensurePackagesExistOnDisk (vs : versions) (options : DiskOptions)
  : M versions :=
  p <- this ;;
  let arch := match arch options with
              | Some a => if a =? "" then archinfo_host env else a
              | None => archinfo_host env
              end in
  let verbose := verbose options || negb (muted p) in
  eachWith vs Obj.empty
    (fun downloadedPackages e =>
       let name := fst e in
       let v := snd e in
       emit (Download name v ["browser"; arch] verbose) ;;
       match tropohouse_maybeDownload env name v ["browser"; arch] with
       | Ret _ => ret (Obj.set downloadedPackages name v)
       | Throw err => emit (ConsoleLog err) ;; ret downloadedPackages
       end).

(** The options of [setVersions] and [_recordVersions]. *)
Record RecordOptions := {
  alwaysRecord : bool
}.

Definition noRecordOptions : RecordOptions := {| alwaysRecord := false |}.

(** The lines of the versions file before sorting. *)
Definition versionLines (deps : option versions) : list string :=
  match deps with
  | Some d => map (fun e => fst e ++ "@" ++ toStr (snd e) ++ nl) d
  | None => []
  end.

Definition _recordVersions (options : RecordOptions) : M unit :=
  if release_explicit env && negb (alwaysRecord options) then ret tt
  else
    p <- this ;;
    let lines := sortLines (versionLines (dependencies p)) in
    versionsFile <- _getVersionsFile ;;
    writeFileSync versionsFile (join "" lines).

(** What [setVersions] returns. *)
Record SetVersionsResult := {
  success : bool;
  downloaded : versions
}.

(** [_.isEqual(newVersions, self.dependencies)] *)
Definition sameVersions (new : versions) (deps : option versions) : bool :=
  match deps with
  | Some d => Obj.isEqual jsstr_eqb new d
  | None => false
  end.

Definition setVersions (newVersions : versions) (options : RecordOptions)
  : M SetVersionsResult :=
  downloaded <- _ensurePackagesExistOnDisk newVersions noDiskOptions ;;
  if negb (length (Obj.keys downloaded) =? length (Obj.keys newVersions))%nat
  then ret {| success := false; downloaded := downloaded |}
  else
    p <- this ;;
    (if alwaysRecord options || negb (sameVersions newVersions (dependencies p))
     then assign (with_dependencies (Some newVersions)) ;;
          _recordVersions options
     else ret tt) ;;
    ret {| success := true; downloaded := downloaded |}.

(** [catalog.complete.resolveConstraints], which may throw. *)
Definition resolveConstraints (cs : list Constraint) (prev : option versions)
  : M versions :=
  emit (Resolve cs prev) ;;
  match catalog_resolveConstraints env cs prev with
  | Ret vs => ret vs
  | Throw msg => throw msg
  end.

Definition _ensureDepsUpToDate : M unit :=
  match release_current env with
  | None =>
      throw "need to compute release before computing project dependencies."
  | Some current =>
      p <- this ;;
      if negb (_depsUpToDate p) then
        assign (with_viableDepSource false) ;;
        let releasePackages :=
          if isProperRelease current then getPackages current
          else Obj.empty in
        combined <- calculateCombinedConstraints releasePackages ;;
        assign (with_combinedConstraints (Some combined)) ;;
        p <- this ;;
        newVersions <- resolveConstraints combined (dependencies p) ;;
        p <- this ;;
        let oldVersions := dependencies p in
        setV <- setVersions newVersions noRecordOptions ;;
        showPackageChanges oldVersions newVersions
          {| skipPackages := None;
             onDiskPackages := Some (downloaded setV) |} ;;
        if negb (success setV) then
          throw "Could not install all the requested packages."
        else
          assign (with_packageLoader (Some newVersions)) ;;
          assign (with_depsUpToDate true) ;;
          assign (with_viableDepSource true)
      else ret tt
  end.

Definition getConstraints : M (option (Obj.t jsstr)) :=
  p <- this ;; ret (constraints p).

Definition getCurrentCombinedConstraints : M (option (list Constraint)) :=
  _ensureDepsUpToDate ;;
  p <- this ;; ret (combinedConstraints p).

Definition getVersions : M (option versions) :=
  _ensureDepsUpToDate ;;
  p <- this ;; ret (dependencies p).

Definition getPackageLoader : M (option versions) :=
  _ensureDepsUpToDate ;;
  p <- this ;; ret (packageLoader p).

(** [trimLine(line).split('@')[0]] *)
Definition lineName (line : string) : string :=
  before "@" (trimLine line).

Definition _removePackageRecords (names : list string) : M unit :=
  each names
    (fun name =>
       p <- this ;;
       match constraints p with
       | Some cs => assign (with_constraints (Some (Obj.delete cs name)))
       | None => typeError "Cannot convert null to object"
       end) ;;
  packages <- _getConstraintFile ;;
  lines <- getLinesOrEmpty packages ;;
  let lines := filter (fun line => negb (mem (lineName line) names)) lines in
  writeFileSync packages (join nl lines ++ nl).

(** [_.contains(self.constraints, name)]: membership among the values of
    the object; [false] on [null]. *)
Definition containsValue (cs : option (Obj.t jsstr)) (name : string) : bool :=
  match cs with
  | Some o => existsb (fun v => jsstr_eqb v (Some name)) (Obj.values o)
  | None => false
  end.

(** One iteration of the loop of [forceEditPackages] for "add", threading
    the local [lines]. *)
Definition addStep (lines : list string) (name : string) : M (list string) :=
  p <- this ;;
  if containsValue (constraints p) name then ret lines
  else
    match constraints p with
    | None => typeError "Cannot read property 'length' of null"
    | Some cs =>
        let lines :=
          if negb (truthy (Obj.get cs "length"))
             && negb (length lines =? 0)%nat
          then (lines ++ [""])%list else lines in
        let lines := (lines ++ [name])%list in
        assign (with_constraints (Some (Obj.set cs name None))) ;;
        ret lines
    end.

Definition forceEditPackages (names : list string) (operation : string)
  : M unit :=
  appConstraintFile <- _getConstraintFile ;;
  lines <- getLinesOrEmpty appConstraintFile ;;
  (if operation =? "add" then
     lines <- eachWith names lines addStep ;;
     writeFileSync appConstraintFile (join nl lines ++ nl)
   else if operation =? "remove" then _removePackageRecords names
   else ret tt) ;;
  assign (with_depsUpToDate false).

Definition removePackages (names : list string) : M unit :=
  _removePackageRecords names ;;
  assign (with_depsUpToDate false) ;;
  _ensureDepsUpToDate ;;
  _recordVersions noRecordOptions.

End Methods.

(** ** The remaining methods of [Project] *)

(** [try { c } catch (e) { h(e) }] *)
Definition catch {A : Type} (c : M A) (h : string -> M A) : M A :=
  fun w =>
    match c w with
    | (w', Ret a) => (w', Ret a)
    | (w', Throw msg) => h msg w'
    end.

(** [fs.appendFileSync(path, text)]: the file is created when it does not
    exist.  The trace records the content that the file has afterwards. *)
Definition appendFileSync (path text : string) : M unit :=
  fun w =>
    let content := match Obj.get (disk w) path with
                   | Some c => c ++ text
                   | None => text
                   end in
    ({| self := self w; disk := Obj.set (disk w) path content;
        drawn := drawn w;
        trace := trace w ++ [WriteFile path content] |}, Ret tt).

(** The last character of [s] is [c]. *)
Fixpoint endsWith (c : ascii) (s : string) : bool :=
  match s with
  | EmptyString => false
  | String a EmptyString => Ascii.eqb a c
  | String _ r => endsWith c r
  end.

(** The comment that heads a new finished-upgraders file. *)
Definition upgradersHeader : string :=
  "# This file contains information which helps Meteor properly upgrade your"
  ++ nl ++
  "# app when you run 'meteor update'. You should check it into version control"
  ++ nl ++
  "# with your project." ++ nl ++ nl.

(** An element of the [moreDeps] of [addPackages]. *)
Record PackageConstraint := {
  pc_name : string;
  constraintString : jsstr
}.

Section MoreMethods.

Variable env : Env.

(** [files.getLines(path)], which throws when the file does not exist. *)
Definition getLines (path : string) : M (list string) :=
  emit (ReadFile path) ;;
  fun w => match Obj.get (disk w) path with
           | Some c => (w, Ret (files_getLines env c))
           | None => (w, Throw ("ENOENT: " ++ path))
           end.

Definition _meteorReleaseFilePath : M string :=
  p <- this ;; path_join (rootDir p) ".meteor/release".

(** [getMeteorReleaseVersion]: [null] without a release file, the empty
    string for a file without lines, else the trimmed first line. *)
Definition getMeteorReleaseVersion : M jsstr :=
  releasePath <- _meteorReleaseFilePath ;;
  lines <- catch (l <- getLines releasePath ;; ret (Some l))
                 (fun _ => ret None) ;;
  match lines with
  | None => ret None
  | Some [] => ret (Some "")
  | Some (first :: _) => ret (Some (trimLine first))
  end.

Definition writeMeteorReleaseVersion (release : string) : M unit :=
  releasePath <- _meteorReleaseFilePath ;;
  writeFileSync releasePath (release ++ nl).

Definition getAppIdentifier : M (option string) :=
  p <- this ;; ret (appId p).

Definition _finishedUpgradersFile : M string :=
  p <- this ;; path_join (rootDir p) ".meteor/finished-upgraders".

(** [_.filter(_.map(lines, trimLine), _.identity)] *)
Definition getFinishedUpgraders : M (list string) :=
  file <- _finishedUpgradersFile ;;
  lines <- getLinesOrEmpty env file ;;
  ret (filter (fun l => negb (l =? "")) (map trimLine lines)).

(** The text that [appendFinishedUpgrader] appends to a file whose content
    is [current], [None] for a file that does not exist. *)
Definition appendText (current : option string) (upgrader : string) : string :=
  (match current with
   | None => upgradersHeader
   | Some c =>
       if negb (String.length c =? 0)%nat && negb (endsWith (ascii_of_nat 10) c)
       then nl else ""
   end) ++ upgrader ++ nl.

(** [appendFinishedUpgrader]: only a missing file is caught; the error of
    [path.join] on a [null] root is thrown again. *)
Definition appendFinishedUpgrader (upgrader : string) : M unit :=
  file <- _finishedUpgradersFile ;;
  current <- catch (c <- readFileSync file ;; ret (Some c))
                   (fun _ => ret None) ;;
  appendFileSync file (appendText current upgrader).

(** The line of the packages file for an added package. *)
Definition constraintLine (c : PackageConstraint) : string :=
  if truthy (Some (constraintString c))
  then pc_name c ++ "@" ++ toStr (constraintString c)
  else pc_name c.

Definition addPackages (moreDeps : list PackageConstraint)
  (newVersions : versions) : M versions :=
  downloadedPackages <-
    _ensurePackagesExistOnDisk env newVersions
      {| arch := None; verbose := true |} ;;
  if negb (length (Obj.keys downloadedPackages)
           =? length (Obj.keys newVersions))%nat
  then ret downloadedPackages
  else
    each moreDeps
      (fun constraint =>
         p <- this ;;
         match constraints p with
         | Some cs =>
             assign (with_constraints
                       (Some (Obj.set cs (pc_name constraint)
                                      (constraintString constraint))))
         | None => typeError "Cannot set property of null"
         end) ;;
    assign (with_dependencies (Some newVersions)) ;;
    _removePackageRecords env (map pc_name moreDeps) ;;
    packages <- _getConstraintFile ;;
    lines <- getLinesOrEmpty env packages ;;
    let lines := (lines ++ map constraintLine moreDeps ++ [nl])%list in
    writeFileSync packages (join nl lines) ;;
    _recordVersions env noRecordOptions ;;
    ret downloadedPackages.

End MoreMethods.

(** ** Collaborators for the worked examples *)

Module Sample.

(** The pieces of [s] between the occurrences of [c]. *)
Fixpoint splitOn (c : ascii) (s : string) : list string :=
  match s with
  | EmptyString => [EmptyString]
  | String a r =>
      if Ascii.eqb a c then EmptyString :: splitOn c r
      else match splitOn c r with
           | h :: t => String a h :: t
           | [] => [String a EmptyString]
           end
  end.

Fixpoint dropTrailingEmpty (l : list string) : list string :=
  match l with
  | [] => []
  | x :: r =>
      match dropTrailingEmpty r with
      | [] => if x =? "" then [] else [x]
      | r' => x :: r'
      end
  end.

(** Modelled from the spec: [files.getLines] is not under src/.  The
    persisted files are line-oriented (section 6): the content is cut at
    every line feed and the empty lines at the end are no lines. *)
Definition getLines (content : string) : list string :=
  dropTrailingEmpty (splitOn (ascii_of_nat 10) content).

(** Modelled from the spec: [utils.splitConstraint] is not under src/.  A
    line is [name] or [name@expression] (section 6); without an [@] the
    expression is [null]. *)
Definition splitConstraint (line : string) : string * jsstr :=
  match splitOn "@" line with
  | name :: expression :: _ => (name, Some expression)
  | name :: [] => (name, None)
  | [] => (line, None)
  end.

(** Modelled from the spec: [utils.parseVersionConstraint] is not under
    src/.  A constraint carries its expression, and [expression = null]
    means unconstrained (section 3): the expression is kept as it is, so
    that [null] stays [null]; the exactness is left unset. *)
Definition parseVersionConstraint (c : jsstr) : VersionDesc :=
  {| vd_version := c; vd_type := None |}.

(** A download that throws for the packages named in [missing]. *)
Definition maybeDownload (missing : list string) (name : string) (v : jsstr)
  (arches : list string) : Outcome unit :=
  if mem name missing then Throw ("no build of " ++ name) else Ret tt.

(** The programs of the project: the subdirectory of each and the uses of
    its unibuilds. *)
Definition Programs := list (string * list (list Use)).

Fixpoint usesOf (programs : Programs) (name : string) : list (list Use) :=
  match programs with
  | [] => []
  | (item, architectures) :: r =>
      if dropLast item =? name then architectures else usesOf r name
  end.

(** An environment with the given release, catalog, resolver answer and
    package store. *)
Definition mkEnv (current : option Release) (explicit : bool)
  (catalogPackages : list string) (answer : Outcome versions)
  (missing : list string) (programs : Programs) : Env :=
  {| release_current := current;
     release_explicit := explicit;
     catalog_getPackage := fun name => mem name catalogPackages;
     catalog_resolveConstraints := fun _ _ => answer;
     tropohouse_maybeDownload := maybeDownload missing;
     archinfo_host := "os.linux.x86_64";
     files_getLines := getLines;
     utils_splitConstraint := splitConstraint;
     utils_parseVersionConstraint := parseVersionConstraint;
     utils_randomToken := fun _ => "token";
     watch_readDirectory := fun _ => map fst programs;
     programSource_architectures := fun name _ => usesOf programs name |}.

(** A release with no package manifest. *)
Definition checkout : Release :=
  {| isProperRelease := false; getPackages := Obj.empty |}.

(** A world around a project, with the given files and nothing done yet. *)
Definition worldOf (p : Project) (files : Obj.t string) : World :=
  {| self := p; disk := files; drawn := 0; trace := [] |}.

(** The world in which the project object has just been created. *)
Definition fresh (files : Obj.t string) : World := worldOf newProject files.

End Sample.

(** ** Notions used in the statements *)

(** The run of a method: the world it leaves and its outcome. *)
Definition worldAfter {A : Type} (r : World * Outcome A) : World := fst r.

Definition outcome {A : Type} (r : World * Outcome A) : Outcome A := snd r.

(** Assignment to the project object. *)
Definition updated (f : Project -> Project) (w : World) : World :=
  {| self := f (self w); disk := disk w; drawn := drawn w; trace := trace w |}.

(** A method leaves the field [f] of the project as it found it, whatever
    its outcome. *)
Definition keeps {T A : Type} (f : Project -> T) (c : M A) : Prop :=
  forall w w' o, c w = (w', o) -> f (self w') = f (self w).

(** A method leaves the field [f] of the project as it found it whenever
    it throws. *)
Definition keepsOnThrow {T A : Type} (f : Project -> T) (c : M A) : Prop :=
  forall w w' msg, c w = (w', Throw msg) -> f (self w') = f (self w).

(** The order of [lines.sort()]. *)
Definition lineLe (x y : string) : Prop := String.leb x y = true.

(** The lines that [files.getLinesOrEmpty] reads at [path]. *)
Definition linesAt (env : Env) (d : Obj.t string) (path : string) : list string :=
  match Obj.get d path with
  | Some c => files_getLines env c
  | None => []
  end.

(** An unconstrained dependency on the control package: an entry named
    "ctl" whose version is [null]. *)
Definition isUnconstrainedCtl (c : Constraint) : bool :=
  (packageName c =? "ctl")
  && match version c with
     | None => true
     | Some _ => false
     end.

Definition countUnconstrainedCtl (cs : list Constraint) : nat :=
  length (filter isUnconstrainedCtl cs).

(** The entries of the project's own constraints. *)
Definition ownEntries (env : Env) (cs : option (Obj.t jsstr)) : list Constraint :=
  match cs with
  | Some o => map (fun e => parsedDep env (fst e) (snd e)) o
  | None => []
  end.

(** The entries that the program in subdirectory [item] of the programs
    directory of [root] contributes. *)
Definition programEntries (env : Env) (root item : string) : list Constraint :=
  flat_map
    (fun uses =>
       map (fun use => parsedDep env (use_package use)
                                 (orNull (use_constraint use))) uses)
    (programSource_architectures env (dropLast item)
       ((root ++ "/" ++ "programs") ++ "/" ++ item)).

(** All the entries contributed by the programs of the project at [root]. *)
Definition allProgramEntries (env : Env) (root : string) : list Constraint :=
  flat_map (programEntries env root)
           (watch_readDirectory env (root ++ "/" ++ "programs")).

(** The architectures of a call without an [arch] option. *)
Definition hostArches (env : Env) : list string :=
  ["browser"; archinfo_host env].

(** The download of package [e] does not throw. *)
Definition materializes (env : Env) (e : string * jsstr) : bool :=
  match tropohouse_maybeDownload env (fst e) (snd e) (hostArches env) with
  | Ret _ => true
  | Throw _ => false
  end.

(** The object that the loop of [_ensurePackagesExistOnDisk] builds from
    [acc] over the packages [vs]. *)
Definition downloadedFrom (env : Env) (vs : versions) (acc : versions) : versions :=
  fold_left
    (fun acc e => if materializes env e then Obj.set acc (fst e) (snd e)
                  else acc)
    vs acc.

(** ** The worked examples *)

(** The version maps of the diff example. *)
Definition oldAB : versions := [("a", Some "1"); ("b", Some "1")].

Definition newAC : versions := [("a", Some "2"); ("c", Some "1")].

Definition noShowOptions : ShowOptions :=
  {| skipPackages := None; onDiskPackages := None |}.

Definition always : RecordOptions := {| alwaysRecord := true |}.

(** Running from a checkout, with a resolver that answers {a: 1} and a
    package store that has every build. *)
Definition envCheckout : Env :=
  Sample.mkEnv (Some Sample.checkout) false [] (Ret [("a", Some "1")]) [] [].


(** The same under an explicit release. *)
Definition envExplicit : Env :=
  Sample.mkEnv (Some Sample.checkout) true [] (Ret [("a", Some "1")]) [] [].

(** A resolver answer of two packages, the second of which has no build
    in the package store. *)
Definition envMissing : Env :=
  Sample.mkEnv (Some Sample.checkout) false []
    (Ret [("a", Some "1"); ("b", Some "2")]) ["b"] [].

(** The same with a resolver that looks at what it is asked: it gives
    this answer for the empty list of constraints and fails for any
    other. *)
Definition envMissingStrict : Env :=
  {| release_current := release_current envMissing;
     release_explicit := release_explicit envMissing;
     catalog_getPackage := catalog_getPackage envMissing;
     catalog_resolveConstraints :=
       fun cs _ =>
         match cs with
         | [] => Ret [("a", Some "1"); ("b", Some "2")]
         | _ :: _ => Throw "conflict"
         end;
     tropohouse_maybeDownload := tropohouse_maybeDownload envMissing;
     archinfo_host := archinfo_host envMissing;
     files_getLines := files_getLines envMissing;
     utils_splitConstraint := utils_splitConstraint envMissing;
     utils_parseVersionConstraint := utils_parseVersionConstraint envMissing;
     utils_randomToken := utils_randomToken envMissing;
     watch_readDirectory := watch_readDirectory envMissing;
     programSource_architectures := programSource_architectures envMissing |}.

(** A catalog that exposes "ctl" and a project without programs. *)
Definition envCtl : Env :=
  Sample.mkEnv (Some Sample.checkout) false ["ctl"] (Ret []) [] [].

(** A catalog that exposes "ctl" and a project with one program, which
    uses "ctl" without a constraint. *)
Definition envCtlProgram : Env :=
  Sample.mkEnv (Some Sample.checkout) false ["ctl"] (Ret [])
    [] [("worker/", [[ {| use_package := "ctl"; use_constraint := None |} ]])].

(** A new project bound to the directory "/app", which has no packages
    file and no versions file yet. *)
Definition boundWorld : World :=
  Eval cbv in
  worldAfter (setRootDir envCheckout (Some "/app") (Sample.fresh [])).

(** The same project after its dependencies were computed. *)
Definition upToDateWorld : World :=
  Eval cbv in
  worldAfter (_ensureDepsUpToDate envCheckout boundWorld).

(** The project with the program, bound to its directory. *)
Definition ctlProgramWorld : World :=
  Eval cbv in
  worldAfter (setRootDir envCtlProgram (Some "/app") (Sample.fresh [])).

(** A project whose packages file pins "a" to a version. *)
Definition pinnedWorld : World :=
  Eval cbv in
  worldAfter (setRootDir envCheckout (Some "/app")
                (Sample.fresh [("/app/.meteor/packages", "a@1.0.0" ++ nl)])).

(** A project whose packages file constrains "b" by the expression "a". *)
Definition aliasWorld : World :=
  Eval cbv in
  worldAfter (setRootDir envCheckout (Some "/app")
                (Sample.fresh [("/app/.meteor/packages", "b@a" ++ nl)])).

(** [c] occurs in [s]. *)
Fixpoint hasChar (c : ascii) (s : string) : bool :=
  match s with
  | EmptyString => false
  | String a r => Ascii.eqb a c || hasChar c r
  end.

(** The first and the last character of a string. *)
Definition headChar (s : string) : option ascii :=
  match s with
  | EmptyString => None
  | String a _ => Some a
  end.

Fixpoint lastChar (s : string) : option ascii :=
  match s with
  | EmptyString => None
  | String a EmptyString => Some a
  | String _ r => lastChar r
  end.

(** A character that is no white space, if any. *)
Definition notSpace (c : option ascii) : Prop :=
  match c with
  | Some a => is_space a = false
  | None => True
  end.

(** The identifier file of the project at [root]. *)
Definition identifierAt (root : string) : string :=
  root ++ "/" ++ ".meteor/identifier".

(** The versions file of the project at [root]. *)
Definition versionsAt (root : string) : string :=
  root ++ "/" ++ ".meteor/versions".

(** The release packages that a recompute uses. *)
Definition releasePackagesOf (current : Release) : Obj.t string :=
  if isProperRelease current then getPackages current else Obj.empty.

(** The combined constraints of project [p] at [root]: its own entries,
    those of its programs, those of the release, and the control package
    when the catalog exposes it. *)
Definition combinedFor (env : Env) (releasePackages : Obj.t string)
  (root : string) (p : Project) : list Constraint :=
  (ownEntries env (constraints p)
   ++ allProgramEntries env root
   ++ map releaseDep releasePackages
   ++ if catalog_getPackage env "ctl" then [ctlDep] else [])%list.

(** What computing the combined constraints of the project at [root] adds
    to the trace. *)
Definition combineEvents (env : Env) (root : string) : list Event :=
  ReadDirectory (root ++ "/" ++ "programs")
  :: map (fun item =>
            InitProgram (dropLast item)
                        ((root ++ "/" ++ "programs") ++ "/" ++ item))
         (watch_readDirectory env (root ++ "/" ++ "programs")).

(** A resolver that cannot satisfy the constraints. *)
Definition envConflict : Env :=
  Sample.mkEnv (Some Sample.checkout) false [] (Throw "conflict") [] [].

(** The packages file of the project at [root]. *)
Definition packagesAt (root : string) : string :=
  root ++ "/" ++ ".meteor/packages".

(** From [w] to [w'] the root directory is kept, and so is every file
    except those that [P] allows for the root directory of [w]. *)
Definition framed (P : option string -> string -> Prop) (w w' : World) : Prop :=
  rootDir (self w') = rootDir (self w)
  /\ forall path, ~ P (rootDir (self w)) path ->
       Obj.get (disk w') path = Obj.get (disk w) path.

(** A method changes no file but those that [P] allows, whatever its
    outcome. *)
Definition editsOnly {A : Type} (P : option string -> string -> Prop)
  (c : M A) : Prop :=
  forall w w' o, c w = (w', o) -> framed P w w'.

(** The file [rest] below the root directory. *)
Definition ownFile (rest : string) (r : option string) (path : string) : Prop :=
  exists root, r = Some root /\ path = root ++ "/" ++ rest.

(** Run from a world whose root directory is [root], a method keeps the
    root directory and changes no file but those in [Q]. *)
Definition editsAt (root : string) (Q : string -> Prop) {A : Type} (c : M A)
  : Prop :=
  forall w w' o,
    rootDir (self w) = Some root -> c w = (w', o) ->
    rootDir (self w') = Some root
    /\ forall path, ~ Q path -> Obj.get (disk w') path = Obj.get (disk w) path.

(** The constraint set after the first loop of [addPackages]. *)
Definition withAdded (moreDeps : list PackageConstraint) (cs : Obj.t jsstr)
  : Obj.t jsstr :=
  fold_left (fun o c => Obj.set o (pc_name c) (constraintString c)) moreDeps cs.

(** The lines of the packages file that [_removePackageRecords] keeps. *)
Definition keptLines (env : Env) (names : list string) (d : Obj.t string)
  (file : string) : list string :=
  filter (fun line => negb (mem (lineName line) names)) (linesAt env d file).

(** The release file and the finished-upgraders file of the project at
    [root]. *)
Definition releaseAt (root : string) : string :=
  root ++ "/" ++ ".meteor/release".

Definition upgradersAt (root : string) : string :=
  root ++ "/" ++ ".meteor/finished-upgraders".

(** The first line of a file, trimmed; the empty string without lines. *)
Definition firstLineTrimmed (lines : list string) : string :=
  match lines with
  | [] => ""
  | first :: _ => trimLine first
  end.

(** The content of a file, the empty string when it does not exist. *)
Definition contentOf (d : Obj.t string) (path : string) : string :=
  match Obj.get d path with
  | Some c => c
  | None => ""
  end.

(** Package [e] of the new versions is in the old versions with the same
    version. *)
Definition unchangedEntry (old : versions) (e : string * jsstr) : bool :=
  Obj.has old (fst e)
  && match Obj.get old (fst e) with
     | Some x => jsstr_eqb x (snd e)
     | None => false
     end.



(** * Properties *)

(** ** Worlds and traces *)

Lemma logged_nil (w : World) : logged [] w = w.
Proof.
  destruct w as [p d n t]; unfold logged; simpl.
  now rewrite app_nil_r.
Qed.

Lemma logged_logged (es es' : list Event) (w : World) :
  logged es' (logged es w) = logged (es ++ es') w.
Proof.
  unfold logged; simpl. now rewrite app_assoc.
Qed.

(** ** Sequencing *)

Lemma bind_Ret {A B : Type} (c : M A) (k : A -> M B) (w w1 : World) (a : A) :
  c w = (w1, Ret a) -> bind c k w = k a w1.
Proof. intros H. unfold bind. now rewrite H. Qed.

Arguments bind_Ret {A B c} k {w w1 a} _.

Lemma bind_inv {A B : Type} (c : M A) (k : A -> M B) (w w' : World) (b : B) :
  bind c k w = (w', Ret b) ->
  exists w1 a, c w = (w1, Ret a) /\ k a w1 = (w', Ret b).
Proof.
  unfold bind. destruct (c w) as [w1 [a|msg]]; intros H.
  - now exists w1, a.
  - discriminate.
Qed.

Lemma assign_run (f : Project -> Project) (w : World) :
  assign f w = (updated f w, Ret tt).
Proof. reflexivity. Qed.

(** ** Objects *)

Lemma get_set_same {V : Type} (o : Obj.t V) (k : string) (v : V) :
  Obj.get (Obj.set o k v) k = Some v.
Proof.
  induction o as [|[k' v'] o IH]; simpl.
  - now rewrite String.eqb_refl.
  - destruct (k' =? k) eqn:E; simpl; rewrite E; auto.
Qed.

Lemma get_none_keys {V : Type} (o : Obj.t V) (k : string) :
  Obj.get o k = None -> forall e, In e o -> (fst e =? k) = false.
Proof.
  induction o as [|[k' v'] o IH]; simpl; intros H e Hin; [tauto|].
  destruct (k' =? k) eqn:E; [discriminate|].
  destruct Hin as [<- | Hin]; auto.
Qed.

Lemma delete_absent {V : Type} (o : Obj.t V) (k : string) :
  Obj.has o k = false -> Obj.delete o k = o.
Proof.
  unfold Obj.has. destruct (Obj.get o k) eqn:G; [discriminate|]. intros _.
  induction o as [|[k' v'] o IH]; simpl in *; [reflexivity|].
  destruct (k' =? k); [discriminate|]. simpl. now rewrite IH.
Qed.

Lemma delete_set_absent {V : Type} (o : Obj.t V) (k : string) (v : V) :
  Obj.has o k = false -> Obj.delete (Obj.set o k v) k = o.
Proof.
  unfold Obj.has. destruct (Obj.get o k) eqn:G; [discriminate|]. intros _.
  induction o as [|[k' v'] o IH]; simpl in *.
  - now rewrite String.eqb_refl.
  - destruct (k' =? k) eqn:E; [discriminate|]. simpl. rewrite E. simpl.
    now rewrite IH.
Qed.

Lemma length_keys_set {V : Type} (o : Obj.t V) (k : string) (v : V) :
  length (Obj.keys (Obj.set o k v)) <= S (length (Obj.keys o)).
Proof.
  induction o as [|[k' v'] o IH]; simpl; [lia|].
  destruct (k' =? k); simpl; lia.
Qed.

(** ** The change reporter *)

(** C6: for old versions {a:1, b:1} and new versions {a:2, c:1}, without a
    skip list and without an on-disk map, the reporter's message log is
    the removal of b, then the upgrade of a from 1 to 2, then the addition
    of c, and nothing else; the call returns 0, writes nothing to standard
    error and prints exactly these three messages unless muted. *)
Theorem showPackageChanges_diff_example (w : World) :
  classifyChanges oldAB newAC noShowOptions w
  = (w, Ret {| failed := false;
               messageLog := ["removed dependency on b";
                              "  upgraded a from version 1 to version 2";
                              "  added c at version 1"] |})
  /\ showPackageChanges (Some oldAB) newAC noShowOptions w
     = (logged (if muted (self w) then []
                else [Stdout ("removed dependency on b" ++ nl);
                      Stdout ("  upgraded a from version 1 to version 2" ++ nl);
                      Stdout ("  added c at version 1" ++ nl)]) w,
        Ret 0).
Proof.
  split; [reflexivity|].
  unfold showPackageChanges, bind.
  change (classifyChanges oldAB newAC noShowOptions w)
    with (w, Ret {| failed := false;
                    messageLog := ["removed dependency on b";
                                   "  upgraded a from version 1 to version 2";
                                   "  added c at version 1"] |}).
  cbn [failed messageLog this].
  destruct (muted (self w)); cbn.
  - now rewrite logged_nil.
  - now rewrite !logged_logged.
Qed.

Lemma each_emit {A : Type} (f : A -> Event) (l : list A) (w : World) :
  each l (fun x => emit (f x)) w = (logged (map f l) w, Ret tt).
Proof.
  revert w; induction l as [|x l IH]; intros w; simpl.
  - now rewrite logged_nil.
  - unfold bind, emit at 1. rewrite IH, logged_logged. reflexivity.
Qed.

(** An iteration of the second loop only adds to the trace, and what it
    adds and returns does not depend on the world. *)
Lemma showStep_run (old new : versions) (options : ShowOptions)
  (s : ShowState) (e : string * jsstr) :
  exists s' errs, forall w,
    showStep old new options s e w = (logged errs w, Ret s').
Proof.
  unfold showStep.
  destruct (failed s).
  { exists s, []. intros w. now rewrite logged_nil. }
  destruct (Obj.has old (fst e) && _).
  { exists s, []. intros w. now rewrite logged_nil. }
  destruct (notOnDisk options (fst e) (snd e)).
  { eexists _, [_]. intros w. reflexivity. }
  destruct (skipped options (fst e)).
  { exists s, []. intros w. now rewrite logged_nil. }
  destruct (Obj.has old (fst e));
    eexists _, []; intros w; unfold ret; now rewrite logged_nil.
Qed.

Lemma eachWith_showStep_run (old new : versions) (options : ShowOptions)
  (l : list (string * jsstr)) :
  forall s, exists s' errs, forall w,
    eachWith l s (showStep old new options) w = (logged errs w, Ret s').
Proof.
  induction l as [|e l IH]; intros s; simpl.
  - exists s, []. intros w. unfold ret. now rewrite logged_nil.
  - destruct (showStep_run old new options s e) as (s1 & errs1 & H1).
    destruct (IH s1) as (s2 & errs2 & H2).
    exists s2, (errs1 ++ errs2)%list. intros w.
    unfold bind. rewrite H1, H2, logged_logged. reflexivity.
Qed.

Lemma classifyChanges_run (old new : versions) (options : ShowOptions) :
  exists s errs, forall w,
    classifyChanges old new options w = (logged errs w, Ret s).
Proof. apply eachWith_showStep_run. Qed.

(** What a call of the reporter does, in terms of its classification. *)
Lemma showPackageChanges_run (old new : versions) (options : ShowOptions) :
  exists s errs,
    (forall w, classifyChanges old new options w = (logged errs w, Ret s))
    /\ forall w,
        showPackageChanges (Some old) new options w
        = (logged (errs ++ if failed s || muted (self w) then []
                           else map (fun msg => Stdout (msg ++ nl))
                                    (messageLog s)) w,
           Ret (if failed s then 1 else 0)).
Proof.
  destruct (classifyChanges_run old new options) as (s & errs & H).
  exists s, errs. split; [exact H|]. intros w.
  unfold showPackageChanges, bind. rewrite H.
  destruct (failed s); simpl.
  - unfold ret. now rewrite app_nil_r.
  - unfold this. simpl. destruct (muted (self w)); simpl.
    + unfold ret. now rewrite app_nil_r.
    + rewrite each_emit, logged_logged. reflexivity.
Qed.

(** C10: the value returned by the reporter, 0 or 1, is the same in the
    muted and in the unmuted run from otherwise equal worlds, and so is the
    classification; the two runs leave worlds that differ only in the
    muted flag and in the messages printed to standard output. *)
Theorem showPackageChanges_muted_irrelevant
  (old new : versions) (options : ShowOptions) (w : World) :
  let quiet := worldAfter (setMuted true w) in
  let loud := worldAfter (setMuted false w) in
  outcome (showPackageChanges (Some old) new options quiet)
  = outcome (showPackageChanges (Some old) new options loud)
  /\ (outcome (showPackageChanges (Some old) new options loud) = Ret 0
      \/ outcome (showPackageChanges (Some old) new options loud) = Ret 1)
  /\ outcome (classifyChanges old new options quiet)
     = outcome (classifyChanges old new options loud)
  /\ exists errs printed,
      worldAfter (showPackageChanges (Some old) new options quiet)
      = logged errs quiet
      /\ worldAfter (showPackageChanges (Some old) new options loud)
         = logged (errs ++ map Stdout printed) loud.
Proof.
  intros quiet loud.
  destruct (showPackageChanges_run old new options) as (s & errs & Hc & Hs).
  rewrite !Hs, !Hc. unfold outcome, worldAfter; simpl.
  repeat split.
  - destruct (failed s); auto.
  - exists errs.
    exists (if failed s then []
            else map (fun msg => msg ++ nl) (messageLog s)).
    rewrite orb_true_r, app_nil_r. split; [reflexivity|].
    rewrite orb_false_r. destruct (failed s); simpl; [reflexivity|].
    now rewrite map_map.
Qed.

(** ** Sorting the lines *)

Lemma insertSorted_perm (x : string) (l : list string) :
  Permutation (x :: l) (insertSorted x l).
Proof.
  induction l as [|y l IH]; simpl; [reflexivity|].
  destruct (String.leb x y); [reflexivity|].
  rewrite perm_swap. now apply perm_skip.
Qed.

Lemma sortLines_perm (l : list string) : Permutation l (sortLines l).
Proof.
  induction l as [|x l IH]; simpl; [reflexivity|].
  rewrite <- insertSorted_perm. now apply perm_skip.
Qed.

Lemma insertSorted_hd (x a : string) (l : list string) :
  lineLe a x -> HdRel lineLe a l -> HdRel lineLe a (insertSorted x l).
Proof.
  intros Hax Hl. destruct l as [|y l]; simpl.
  - now constructor.
  - destruct (String.leb x y); constructor; [exact Hax|].
    now inversion Hl.
Qed.

Lemma insertSorted_sorted (x : string) (l : list string) :
  Sorted lineLe l -> Sorted lineLe (insertSorted x l).
Proof.
  induction 1 as [|y l Hs IH Hhd]; simpl.
  - repeat constructor.
  - destruct (String.leb x y) eqn:E.
    + constructor; [now constructor|]. now constructor.
    + constructor; [exact IH|].
      apply insertSorted_hd; [|exact Hhd].
      destruct (String.leb_total x y) as [H|H]; [congruence | exact H].
Qed.

Lemma sortLines_sorted (l : list string) : Sorted lineLe (sortLines l).
Proof.
  induction l as [|x l IH]; simpl; [constructor|].
  now apply insertSorted_sorted.
Qed.

(** ** Recording the versions *)

(** C8: under an explicit release and without [alwaysRecord],
    [_recordVersions] returns without any operation, so that the versions
    file is unchanged; with [alwaysRecord], or when the release is not
    explicit, the versions file of a project with a root directory is
    written with the sorted lines of the dependencies. *)
Theorem recordVersions_gate (env : Env) (options : RecordOptions) (w : World) :
  (release_explicit env = true -> alwaysRecord options = false ->
   _recordVersions env options w = (w, Ret tt))
  /\ (forall root : string,
        release_explicit env = false \/ alwaysRecord options = true ->
        rootDir (self w) = Some root ->
        let file := root ++ "/.meteor/versions" in
        let content :=
          join "" (sortLines (versionLines (dependencies (self w)))) in
        exists w',
          _recordVersions env options w = (w', Ret tt)
          /\ self w' = self w
          /\ disk w' = Obj.set (disk w) file content
          /\ Obj.get (disk w') file = Some content
          /\ trace w' = (trace w ++ [WriteFile file content])%list).
Proof.
  split.
  - intros He Ha. unfold _recordVersions. now rewrite He, Ha.
  - intros root Hgate Hroot file content.
    unfold _recordVersions.
    assert (G : release_explicit env && negb (alwaysRecord options) = false).
    { destruct Hgate as [-> | ->]; [reflexivity | apply andb_false_iff; now right]. }
    rewrite G.
    unfold bind, this, _getVersionsFile, bind, this, path_join.
    rewrite Hroot. unfold ret, writeFileSync, bind, emit. simpl.
    eexists. split; [reflexivity|]. simpl.
    repeat split. apply get_set_same.
Qed.

Lemma recordVersions_gate_witness :
  _recordVersions envExplicit noRecordOptions upToDateWorld
  = (upToDateWorld, Ret tt)
  /\ exists w',
      _recordVersions envExplicit always upToDateWorld = (w', Ret tt)
      /\ Obj.get (disk w') "/app/.meteor/versions"
         = Some ("a@1" ++ nl).
Proof.
  split.
  - apply (proj1 (recordVersions_gate envExplicit noRecordOptions
                    upToDateWorld)); reflexivity.
  - destruct (proj2 (recordVersions_gate envExplicit always upToDateWorld)
                "/app" (or_intror eq_refl) eq_refl)
      as (w' & Hrun & _ & _ & Hget & _).
    exists w'. split; [exact Hrun | exact Hget].
Defined.

(** ** The staleness check *)

(** With a current release, an up-to-date project is left alone. *)
Lemma _ensureDepsUpToDate_skip (env : Env) (current : Release) (w : World) :
  release_current env = Some current ->
  _depsUpToDate (self w) = true ->
  _ensureDepsUpToDate env w = (w, Ret tt).
Proof.
  intros Hrel Hfresh. unfold _ensureDepsUpToDate. rewrite Hrel.
  unfold bind, this. now rewrite Hfresh.
Qed.



(** ** Combining the constraints *)

Lemma programDeps_run (env : Env) (root item : string) (w : World) :
  rootDir (self w) = Some root ->
  exists es,
    programDeps env item w = (logged es w, Ret (programEntries env root item)).
Proof.
  intros Hroot. unfold programDeps, bind, getProgramsDirectory, bind, this.
  unfold path_join. rewrite Hroot. unfold ret, emit.
  eexists. reflexivity.
Qed.

Lemma eachWith_programDeps_run (env : Env) (root : string)
  (l : list string) :
  forall (acc : list Constraint) (w : World),
    rootDir (self w) = Some root ->
    exists es,
      eachWith l acc
        (fun allDeps item =>
           ds <- programDeps env item ;; ret (allDeps ++ ds)%list) w
      = (logged es w,
         Ret (acc ++ flat_map (programEntries env root) l)%list).
Proof.
  induction l as [|item l IH]; intros acc w Hroot; simpl.
  - exists []. unfold ret. now rewrite logged_nil, app_nil_r.
  - destruct (programDeps_run env item w Hroot) as (es1 & H1).
    destruct (IH (acc ++ programEntries env root item)%list
                 (logged es1 w) Hroot) as (es2 & H2).
    exists (es1 ++ es2)%list.
    unfold bind at 1. unfold bind at 1. rewrite H1. unfold ret at 1.
    rewrite H2, logged_logged, <- app_assoc. reflexivity.
Qed.

(** The combined constraints of a project with a root directory: its own
    entries, the entries of its programs, the release entries and, when
    the catalog has it, the control package; no field of the project is
    changed. *)
Lemma calculateCombinedConstraints_run (env : Env)
  (releasePackages : Obj.t string) (root : string) (w : World) :
  rootDir (self w) = Some root ->
  exists es,
    calculateCombinedConstraints env releasePackages w
    = (logged es w,
       Ret (ownEntries env (constraints (self w))
            ++ allProgramEntries env root
            ++ map releaseDep releasePackages
            ++ if catalog_getPackage env "ctl" then [ctlDep] else [])%list).
Proof.
  intros Hroot.
  unfold calculateCombinedConstraints, bind at 1, this.
  unfold bind at 1, getProgramsSubdirs, bind at 1, getProgramsDirectory,
    bind at 1, this, path_join.
  rewrite Hroot. unfold ret at 1, bind at 1, emit at 1, ret at 1.
  unfold bind at 1.
  destruct (eachWith_programDeps_run env (root := root)
              (watch_readDirectory env (root ++ "/" ++ "programs"))
              (ownEntries env (constraints (self w)))
              (logged [ReadDirectory (root ++ "/" ++ "programs")] w) Hroot)
    as (es & H).
  unfold ownEntries in H. rewrite H, logged_logged.
  eexists. unfold ret, allProgramEntries, ownEntries.
  destruct (catalog_getPackage env "ctl").
  - now rewrite <- !app_assoc.
  - now rewrite app_nil_r, <- !app_assoc.
Qed.

Lemma countUnconstrainedCtl_app (a b : list Constraint) :
  countUnconstrainedCtl (a ++ b)
  = countUnconstrainedCtl a + countUnconstrainedCtl b.
Proof.
  unfold countUnconstrainedCtl. now rewrite filter_app, length_app.
Qed.

Lemma countUnconstrainedCtl_own (env : Env) (cs : Obj.t jsstr) :
  Obj.has cs "ctl" = false ->
  countUnconstrainedCtl (ownEntries env (Some cs)) = 0.
Proof.
  unfold Obj.has. destruct (Obj.get cs "ctl") eqn:G; [discriminate|].
  intros _. pose proof (get_none_keys _ _ G) as K.
  unfold countUnconstrainedCtl; simpl.
  induction cs as [|e cs IH]; simpl; [reflexivity|].
  unfold isUnconstrainedCtl at 1; simpl.
  rewrite (K e (or_introl eq_refl)); simpl.
  apply IH.
  - simpl in G. destruct e as [k v]; simpl in *.
    destruct (k =? "ctl"); [discriminate | exact G].
  - intros e' Hin. apply K. now right.
Qed.

Lemma countUnconstrainedCtl_release (releasePackages : Obj.t string) :
  countUnconstrainedCtl (map releaseDep releasePackages) = 0.
Proof.
  unfold countUnconstrainedCtl.
  induction releasePackages as [|e l IH]; simpl; [reflexivity|].
  unfold isUnconstrainedCtl at 1; simpl. now rewrite andb_false_r.
Qed.

(** A project without constraints of its own, one of whose programs uses
    "ctl" without a constraint, in a catalog that exposes "ctl": the
    combined constraints hold the unconstrained dependency on "ctl" twice. *)
Lemma calculateCombinedConstraints_ctl_twice :
  constraints (self ctlProgramWorld) = Some []
  /\ catalog_getPackage envCtlProgram "ctl" = true
  /\ outcome (calculateCombinedConstraints envCtlProgram Obj.empty
                ctlProgramWorld)
     = Ret [ctlDep; ctlDep]
  /\ countUnconstrainedCtl [ctlDep; ctlDep] = 2.
Proof. repeat split. Qed.

(** C5, amended: for a project whose own constraints do not name "ctl",
    the combined constraints hold as many unconstrained dependencies on
    "ctl" as the programs of the project contribute, and one more if the
    catalog exposes "ctl".  So if the catalog exposes "ctl" and no program
    contributes one, they hold it exactly once; and if the catalog does not
    expose "ctl", whatever the programs, the hook contributes nothing: the
    list is the own entries, the entries of the programs and those of the
    release.  Computing them changes no field of the project. *)
Theorem calculateCombinedConstraints_ctl_hook (env : Env)
  (releasePackages : Obj.t string) (root : string) (cs : Obj.t jsstr)
  (w : World) :
  rootDir (self w) = Some root ->
  constraints (self w) = Some cs ->
  Obj.has cs "ctl" = false ->
  exists w' combined,
    calculateCombinedConstraints env releasePackages w = (w', Ret combined)
    /\ self w' = self w
    /\ countUnconstrainedCtl combined
       = countUnconstrainedCtl (allProgramEntries env root)
         + (if catalog_getPackage env "ctl" then 1 else 0)
    /\ (catalog_getPackage env "ctl" = true ->
        countUnconstrainedCtl (allProgramEntries env root) = 0 ->
        countUnconstrainedCtl combined = 1)
    /\ (catalog_getPackage env "ctl" = false ->
        combined
        = (ownEntries env (Some cs) ++ allProgramEntries env root
           ++ map releaseDep releasePackages)%list
        /\ countUnconstrainedCtl combined
           = countUnconstrainedCtl (allProgramEntries env root)).
Proof.
  intros Hroot Hcs Hown.
  destruct (calculateCombinedConstraints_run env releasePackages w Hroot)
    as (es & H).
  eexists _, _. split; [exact H|]. split; [reflexivity|].
  rewrite Hcs.
  assert (Hcount :
    countUnconstrainedCtl
      (ownEntries env (Some cs) ++ allProgramEntries env root
       ++ map releaseDep releasePackages
       ++ (if catalog_getPackage env "ctl" then [ctlDep] else []))%list
    = countUnconstrainedCtl (allProgramEntries env root)
      + (if catalog_getPackage env "ctl" then 1 else 0)).
  { rewrite !countUnconstrainedCtl_app,
      (countUnconstrainedCtl_own env cs Hown), countUnconstrainedCtl_release.
    now destruct (catalog_getPackage env "ctl"). }
  split; [exact Hcount|]. split.
  - intros Hctl Hprog. rewrite Hcount, Hctl, Hprog. reflexivity.
  - intros Hctl. rewrite Hcount, Hctl. split; [|lia].
    now rewrite !app_nil_r.
Qed.

Lemma calculateCombinedConstraints_ctl_hook_witness :
  exists w' combined,
    calculateCombinedConstraints envCtl Obj.empty boundWorld
    = (w', Ret combined)
    /\ self w' = self boundWorld
    /\ countUnconstrainedCtl combined = 1.
Proof.
  destruct (calculateCombinedConstraints_ctl_hook envCtl Obj.empty
              (root := "/app") (cs := []) boundWorld
              eq_refl eq_refl eq_refl)
    as (w' & combined & Hrun & Hself & _ & Hone & _).
  exists w', combined.
  split; [exact Hrun|]. split; [exact Hself|].
  exact (Hone eq_refl eq_refl).
Defined.

(** ** Editing the constraints by force *)

Lemma getLinesOrEmpty_run (env : Env) (path : string) (w : World) :
  getLinesOrEmpty env path w
  = (logged [ReadFile path] w, Ret (linesAt env (disk w) path)).
Proof.
  unfold getLinesOrEmpty, bind, emit, linesAt. simpl.
  now destruct (Obj.get (disk w) path).
Qed.

Lemma _getConstraintFile_run (root : string) (w : World) :
  rootDir (self w) = Some root ->
  _getConstraintFile w = (w, Ret (root ++ "/" ++ ".meteor/packages")).
Proof.
  intros H. unfold _getConstraintFile, bind, this, path_join. now rewrite H.
Qed.

Lemma forceEditPackages_add_one (env : Env) (root name : string)
  (cs : Obj.t jsstr) (w : World) :
  rootDir (self w) = Some root ->
  constraints (self w) = Some cs ->
  exists w',
    forceEditPackages env [name] "add" w = (w', Ret tt)
    /\ rootDir (self w') = Some root
    /\ constraints (self w')
       = Some (if containsValue (Some cs) name then cs
               else Obj.set cs name None)
    /\ _depsUpToDate (self w') = false.
Proof.
  intros Hroot Hcs.
  unfold forceEditPackages.
  rewrite (bind_Ret _ (_getConstraintFile_run w Hroot)).
  rewrite (bind_Ret _ (getLinesOrEmpty_run env _ w)).
  cbn [String.eqb Ascii.eqb Bool.eqb eachWith].
  remember (containsValue (Some cs) name) as dup eqn:Edup.
  unfold addStep, bind, this; simpl. rewrite Hcs, <- Edup.
  destruct dup; simpl.
  - eexists. split; [reflexivity|]. simpl. auto.
  - eexists. split; [reflexivity|]. simpl. auto.
Qed.

Lemma forceEditPackages_remove_one (env : Env) (root name : string)
  (cs : Obj.t jsstr) (w : World) :
  rootDir (self w) = Some root ->
  constraints (self w) = Some cs ->
  exists w',
    forceEditPackages env [name] "remove" w = (w', Ret tt)
    /\ rootDir (self w') = Some root
    /\ constraints (self w') = Some (Obj.delete cs name)
    /\ _depsUpToDate (self w') = false.
Proof.
  intros Hroot Hcs.
  unfold forceEditPackages.
  rewrite (bind_Ret _ (_getConstraintFile_run w Hroot)).
  rewrite (bind_Ret _ (getLinesOrEmpty_run env _ w)).
  cbn [String.eqb Ascii.eqb Bool.eqb].
  unfold _removePackageRecords, each, bind, this; simpl. rewrite Hcs. simpl.
  unfold _getConstraintFile, bind, this, path_join; simpl. rewrite Hroot.
  simpl. rewrite getLinesOrEmpty_run. simpl.
  eexists. split; [reflexivity|]. simpl. auto.
Qed.

(** C9: for a constraint set that does not have the name as a key, adding
    the name by force and then removing it by force both succeed and leave
    the in-memory constraint set exactly as it was. *)
Theorem forceEditPackages_add_remove (env : Env) (root name : string)
  (cs : Obj.t jsstr) (w : World) :
  rootDir (self w) = Some root ->
  constraints (self w) = Some cs ->
  Obj.has cs name = false ->
  exists w1 w2,
    forceEditPackages env [name] "add" w = (w1, Ret tt)
    /\ forceEditPackages env [name] "remove" w1 = (w2, Ret tt)
    /\ constraints (self w2) = Some cs.
Proof.
  intros Hroot Hcs Habsent.
  destruct (forceEditPackages_add_one env name w Hroot Hcs)
    as (w1 & Hadd & Hroot1 & Hcs1 & _).
  destruct (forceEditPackages_remove_one env name w1 Hroot1 Hcs1)
    as (w2 & Hrem & _ & Hcs2 & _).
  exists w1, w2. repeat split; auto.
  rewrite Hcs2. f_equal.
  destruct (containsValue (Some cs) name).
  - now apply delete_absent.
  - now apply delete_set_absent.
Qed.

Lemma forceEditPackages_add_remove_witness :
  exists w1 w2,
    forceEditPackages envCheckout ["a"] "add" boundWorld = (w1, Ret tt)
    /\ forceEditPackages envCheckout ["a"] "remove" w1 = (w2, Ret tt)
    /\ constraints (self w2) = Some [].
Proof.
  exact (forceEditPackages_add_remove envCheckout (root := "/app")
           (cs := []) "a" boundWorld eq_refl eq_refl eq_refl).
Defined.

(** C4 on a project whose packages file is the one line "a@1.0.0": the
    name "a" is a key of the constraint set, yet adding it by force
    appends an empty line and the line "a" to the file and replaces the
    constraint "1.0.0" by [null]. *)
Theorem forceEditPackages_add_present_key :
  constraints (self pinnedWorld) = Some [("a", Some "1.0.0")]
  /\ Obj.get (disk pinnedWorld) "/app/.meteor/packages"
     = Some ("a@1.0.0" ++ nl)
  /\ outcome (forceEditPackages envCheckout ["a"] "add" pinnedWorld) = Ret tt
  /\ constraints
       (self (worldAfter (forceEditPackages envCheckout ["a"] "add"
                            pinnedWorld)))
     = Some [("a", None)]
  /\ Obj.get
       (disk (worldAfter (forceEditPackages envCheckout ["a"] "add"
                            pinnedWorld)))
       "/app/.meteor/packages"
     = Some ("a@1.0.0" ++ nl ++ nl ++ "a" ++ nl).
Proof. repeat split. Qed.

(** The same test on the values skips a name that is no key of the
    constraint set but is the expression of another package: nothing is
    appended and no constraint is recorded for it. *)
Lemma forceEditPackages_add_absent_key_skipped :
  constraints (self aliasWorld) = Some [("b", Some "a")]
  /\ outcome (forceEditPackages envCheckout ["a"] "add" aliasWorld) = Ret tt
  /\ constraints
       (self (worldAfter (forceEditPackages envCheckout ["a"] "add"
                            aliasWorld)))
     = Some [("b", Some "a")]
  /\ Obj.get
       (disk (worldAfter (forceEditPackages envCheckout ["a"] "add"
                            aliasWorld)))
       "/app/.meteor/packages"
     = Some ("b@a" ++ nl).
Proof. repeat split. Qed.

(** ** Materializing the resolved versions *)

Lemma downloadedFrom_length (env : Env) (vs : versions) :
  forall acc,
    length (Obj.keys (downloadedFrom env vs acc))
    <= length (Obj.keys acc) + length (filter (materializes env) vs).
Proof.
  unfold downloadedFrom.
  induction vs as [|e vs IH]; intros acc; simpl; [lia|].
  destruct (materializes env e); simpl.
  - specialize (IH (Obj.set acc (fst e) (snd e))).
    pose proof (length_keys_set acc (fst e) (snd e)). lia.
  - apply IH.
Qed.

Lemma filter_length_lt {A : Type} (f : A -> bool) (l : list A) (x : A) :
  In x l -> f x = false -> length (filter f l) < length l.
Proof.
  induction l as [|y l IH]; simpl; [tauto|].
  intros [<- | Hin] Hx.
  - rewrite Hx. pose proof (filter_length_le f l). lia.
  - specialize (IH Hin Hx). destruct (f y); simpl; lia.
Qed.

Lemma _ensurePackagesExistOnDisk_run (env : Env) (vs : versions) (w : World) :
  exists es,
    _ensurePackagesExistOnDisk env vs noDiskOptions w
    = (logged es w, Ret (downloadedFrom env vs Obj.empty)).
Proof.
  unfold _ensurePackagesExistOnDisk, bind at 1, this.
  cbn [arch verbose noDiskOptions orb].
  generalize (negb (muted (self w))) as vb.
  generalize (@Obj.empty jsstr) as acc.
  intros acc vb.
  assert (G : forall vs acc w0, exists es,
    eachWith vs acc
    (fun (downloadedPackages : Obj.t jsstr) (e : string * jsstr) =>
     emit (Download (fst e) (snd e) ["browser"; archinfo_host env] vb);;
     match
       tropohouse_maybeDownload env (fst e) (snd e)
         ["browser"; archinfo_host env]
     with
     | Ret _ => ret (Obj.set downloadedPackages (fst e) (snd e))
     | Throw err => emit (ConsoleLog err);; ret downloadedPackages
     end) w0 = (logged es w0, Ret (downloadedFrom env vs acc))).
  { clear. induction vs as [|e vs IH]; intros acc w0; simpl.
    - exists []. unfold ret. now rewrite logged_nil.
    - unfold bind at 1. unfold bind at 1, emit at 1.
      unfold downloadedFrom; simpl. unfold materializes at 2, hostArches.
      destruct (tropohouse_maybeDownload env (fst e) (snd e)
                  ["browser"; archinfo_host env]) as [u|err].
      + unfold ret at 1.
        destruct (IH (Obj.set acc (fst e) (snd e))
                     (logged [Download (fst e) (snd e)
                                ["browser"; archinfo_host env] vb] w0))
          as (es & H).
        rewrite H, logged_logged. eexists. reflexivity.
      + unfold bind at 1, emit at 1, ret at 1.
        destruct (IH acc
                     (logged [ConsoleLog err]
                        (logged [Download (fst e) (snd e)
                                   ["browser"; archinfo_host env] vb] w0)))
          as (es & H).
        rewrite H, !logged_logged. eexists. reflexivity. }
  apply G.
Qed.

Lemma setVersions_shortfall (env : Env) (newVersions : versions)
  (options : RecordOptions) (w : World) (e : string * jsstr) :
  In e newVersions ->
  materializes env e = false ->
  exists es got,
    setVersions env newVersions options w
    = (logged es w, Ret {| success := false; downloaded := got |})
    /\ length (Obj.keys got) < length (Obj.keys newVersions).
Proof.
  intros Hin Hfail.
  destruct (_ensurePackagesExistOnDisk_run env newVersions w) as (es & H).
  unfold setVersions. rewrite (bind_Ret _ H).
  pose proof (downloadedFrom_length env newVersions Obj.empty) as L.
  pose proof (filter_length_lt (materializes env) newVersions e Hin Hfail) as L'.
  simpl in L.
  assert (N : (length (Obj.keys (downloadedFrom env newVersions Obj.empty))
               =? length (Obj.keys newVersions))%nat = false).
  { apply Nat.eqb_neq. unfold Obj.keys at 2. rewrite length_map. lia. }
  rewrite N. simpl. eexists _, _. split; [reflexivity|].
  unfold Obj.keys at 2. rewrite length_map. lia.
Qed.

(** ** The recompute *)

Lemma _ensureDepsUpToDate_shortfall (env : Env) (current : Release)
  (root : string) (old newVersions : versions) (e : string * jsstr)
  (w : World) :
  release_current env = Some current ->
  _depsUpToDate (self w) = false ->
  rootDir (self w) = Some root ->
  dependencies (self w) = Some old ->
  catalog_resolveConstraints env
    (combinedFor env (releasePackagesOf current) root (self w)) (Some old)
  = Ret newVersions ->
  In e newVersions ->
  materializes env e = false ->
  exists w',
    _ensureDepsUpToDate env w
    = (w', Throw "Could not install all the requested packages.")
    /\ dependencies (self w') = Some old
    /\ disk w' = disk w
    /\ _depsUpToDate (self w') = false
    /\ viableDepSource (self w') = false
    /\ rootDir (self w') = Some root.
Proof.
  intros Hrel Hstale Hroot Hold Hres Hin Hfail.
  unfold _ensureDepsUpToDate. rewrite Hrel.
  unfold bind at 1, this at 1. rewrite Hstale. cbn [negb].
  rewrite (bind_Ret _ (assign_run _ w)).
  set (w1 := updated (with_viableDepSource false) w).
  assert (Hroot1 : rootDir (self w1) = Some root) by exact Hroot.
  destruct (calculateCombinedConstraints_run env
              (if isProperRelease current then getPackages current
               else Obj.empty) w1 Hroot1) as (es1 & H1).
  rewrite (bind_Ret _ H1).
  rewrite (bind_Ret _ (assign_run _ _)).
  unfold bind at 1, this at 1.
  unfold resolveConstraints, bind at 1, bind at 1, emit at 1.
  subst w1.
  cbn [self updated logged with_combinedConstraints with_viableDepSource
       dependencies constraints].
  unfold combinedFor, releasePackagesOf in Hres.
  rewrite Hold, Hres. unfold ret at 1.
  unfold bind at 1, this at 1.
  cbv beta.
  match goal with
  | |- context [bind (setVersions env newVersions noRecordOptions) _ ?w2] =>
      destruct (setVersions_shortfall env newVersions noRecordOptions w2
                  e Hin Hfail) as (es2 & got & H2 & _)
  end.
  rewrite (bind_Ret _ H2).
  cbn [self updated logged with_combinedConstraints with_viableDepSource
       dependencies].
  rewrite Hold.
  destruct (showPackageChanges_run old newVersions
              {| skipPackages := None; onDiskPackages := Some got |})
    as (s & errs & _ & H3).
  rewrite (bind_Ret _ (H3 _)).
  cbn [success negb]. unfold throw.
  eexists. split; [reflexivity|].
  cbn. auto.
Qed.

Lemma _ensureDepsUpToDate_success (env : Env) (w w' : World) :
  _ensureDepsUpToDate env w = (w', Ret tt) ->
  (exists current, release_current env = Some current)
  /\ _depsUpToDate (self w') = true
  /\ (_depsUpToDate (self w) = true -> w' = w)
  /\ (_depsUpToDate (self w) = false -> viableDepSource (self w') = true).
Proof.
  unfold _ensureDepsUpToDate.
  destruct (release_current env) as [current|]; [|discriminate].
  intros H. split; [now exists current|].
  apply bind_inv in H. destruct H as (w0 & p & Hthis & H).
  unfold this in Hthis. injection Hthis as <- <-.
  destruct (_depsUpToDate (self w)) eqn:Hfresh; cbn [negb] in H.
  - injection H as <-. repeat split; auto. discriminate.
  - apply bind_inv in H. destruct H as (w1 & [] & _ & H).
    apply bind_inv in H. destruct H as (w2 & combined & _ & H).
    apply bind_inv in H. destruct H as (w3 & [] & _ & H).
    apply bind_inv in H. destruct H as (w4 & p4 & _ & H).
    apply bind_inv in H. destruct H as (w5 & newVersions & _ & H).
    apply bind_inv in H. destruct H as (w6 & p6 & _ & H).
    apply bind_inv in H. destruct H as (w7 & setV & _ & H).
    apply bind_inv in H. destruct H as (w8 & n & _ & H).
    destruct (negb (success setV)); [discriminate|].
    cbv in H. injection H as <-. cbn. repeat split; auto. discriminate.
Qed.

(** C2: after a call of [_ensureDepsUpToDate] that returns, the
    dependencies are marked up to date, and a second call in the same
    environment returns leaving the world as it is: no field changes and
    the trace gains no resolve, no download and no file operation. *)
Theorem ensureDepsUpToDate_idempotent (env : Env) (w w' : World) :
  _ensureDepsUpToDate env w = (w', Ret tt) ->
  _depsUpToDate (self w') = true
  /\ _ensureDepsUpToDate env w' = (w', Ret tt).
Proof.
  intros H.
  destruct (_ensureDepsUpToDate_success env w H)
    as ((current & Hrel) & Hfresh & _).
  split; [exact Hfresh|].
  now apply _ensureDepsUpToDate_skip with current.
Qed.

Lemma ensureDepsUpToDate_idempotent_witness :
  _depsUpToDate (self upToDateWorld) = true
  /\ _ensureDepsUpToDate envCheckout upToDateWorld = (upToDateWorld, Ret tt).
Proof.
  apply (ensureDepsUpToDate_idempotent envCheckout boundWorld
           (w' := upToDateWorld)).
  reflexivity.
Defined.

(** C1: when the download of one of the resolved packages throws,
    [setVersions] reports [success = false] with fewer downloaded packages
    than resolved ones, and leaves the project object, hence its
    dependencies, and every file as they were; a recompute of a stale
    project in which the resolver, asked about the combined constraints
    of the project, gave these versions then throws, with the
    dependencies and the files unchanged and the project still stale. *)
Theorem setVersions_shortfall_atomic (env : Env) (newVersions : versions)
  (options : RecordOptions) (w : World) (name : string) (v : jsstr)
  (err : string) :
  In (name, v) newVersions ->
  tropohouse_maybeDownload env name v ["browser"; archinfo_host env]
  = Throw err ->
  (exists w' got,
     setVersions env newVersions options w
     = (w', Ret {| success := false; downloaded := got |})
     /\ length (Obj.keys got) < length (Obj.keys newVersions)
     /\ self w' = self w
     /\ disk w' = disk w)
  /\ (forall (current : Release) (root : string) (old : versions),
        release_current env = Some current ->
        _depsUpToDate (self w) = false ->
        rootDir (self w) = Some root ->
        dependencies (self w) = Some old ->
        catalog_resolveConstraints env
          (combinedFor env (releasePackagesOf current) root (self w))
          (Some old)
        = Ret newVersions ->
        exists w',
          _ensureDepsUpToDate env w
          = (w', Throw "Could not install all the requested packages.")
          /\ dependencies (self w') = Some old
          /\ disk w' = disk w
          /\ _depsUpToDate (self w') = false).
Proof.
  intros Hin Hthrow.
  assert (Hfail : materializes env (name, v) = false).
  { unfold materializes, hostArches. simpl. now rewrite Hthrow. }
  split.
  - destruct (setVersions_shortfall env newVersions options w (name, v)
                Hin Hfail) as (es & got & H & L).
    exists (logged es w), got. repeat split; assumption.
  - intros current root old Hrel Hstale Hroot Hold Hres.
    destruct (_ensureDepsUpToDate_shortfall env (name, v) w
                Hrel Hstale Hroot Hold Hres Hin Hfail)
      as (w' & H & Hd & Hk & Hs & _).
    exists w'. repeat split; assumption.
Qed.

Lemma setVersions_shortfall_atomic_witness :
  (exists w' got,
     setVersions envMissingStrict [("a", Some "1"); ("b", Some "2")]
       noRecordOptions boundWorld
     = (w', Ret {| success := false; downloaded := got |})
     /\ length (Obj.keys got) < 2
     /\ self w' = self boundWorld
     /\ disk w' = disk boundWorld)
  /\ exists w',
      _ensureDepsUpToDate envMissingStrict boundWorld
      = (w', Throw "Could not install all the requested packages.")
      /\ dependencies (self w') = Some []
      /\ disk w' = disk boundWorld
      /\ _depsUpToDate (self w') = false.
Proof.
  destruct (setVersions_shortfall_atomic envMissingStrict
              [("a", Some "1"); ("b", Some "2")] noRecordOptions boundWorld
              "b" (Some "2") (err := "no build of b")
              (or_intror (or_introl eq_refl)) eq_refl) as [H1 H2].
  split; [exact H1|].
  exact (H2 Sample.checkout "/app" [] eq_refl eq_refl eq_refl eq_refl
            eq_refl).
Defined.

(** ** Fields that a method leaves alone *)

Section Frame.

Variables (T : Type) (f : Project -> T).

Lemma keeps_ret {A : Type} (a : A) : keeps f (ret a).
Proof. intros w w' o H. now injection H as <- _. Qed.

Lemma keeps_throw {A : Type} (msg : string) : keeps f (@throw A msg).
Proof. intros w w' o H. now injection H as <- _. Qed.

Lemma keeps_this : keeps f this.
Proof. intros w w' o H. now injection H as <- _. Qed.

Lemma keeps_emit (e : Event) : keeps f (emit e).
Proof. intros w w' o H. now injection H as <- _. Qed.

Lemma keeps_assign (g : Project -> Project) :
  (forall p, f (g p) = f p) -> keeps f (assign g).
Proof. intros Hg w w' o H. injection H as <- _. apply Hg. Qed.

Lemma keeps_bind {A B : Type} (c : M A) (k : A -> M B) :
  keeps f c -> (forall a, keeps f (k a)) -> keeps f (bind c k).
Proof.
  intros Hc Hk w w' o. unfold bind.
  destruct (c w) as [w1 [a|msg]] eqn:E; intros H.
  - rewrite (Hk a _ _ _ H). exact (Hc _ _ _ E).
  - injection H as <- _. exact (Hc _ _ _ E).
Qed.

Lemma keeps_each {A : Type} (l : list A) (g : A -> M unit) :
  (forall x, keeps f (g x)) -> keeps f (each l g).
Proof.
  intros Hg. induction l as [|x l IH]; simpl.
  - apply keeps_ret.
  - apply keeps_bind; auto.
Qed.

Lemma keeps_eachWith {A S : Type} (l : list A) (g : S -> A -> M S) :
  (forall s x, keeps f (g s x)) -> forall s, keeps f (eachWith l s g).
Proof.
  intros Hg. induction l as [|x l IH]; intros s; simpl.
  - apply keeps_ret.
  - apply keeps_bind; auto.
Qed.

Lemma keeps_world {A : Type} (c : M A) :
  (forall w, self (fst (c w)) = self w) -> keeps f c.
Proof.
  intros Hc w w' o H. specialize (Hc w). rewrite H in Hc. simpl in Hc.
  now rewrite Hc.
Qed.

Lemma keepsOnThrow_keeps {A : Type} (c : M A) :
  keeps f c -> keepsOnThrow f c.
Proof. intros Hc w w' msg H. exact (Hc _ _ _ H). Qed.

Lemma keepsOnThrow_bind {A B : Type} (c : M A) (k : A -> M B) :
  keeps f c -> (forall a, keepsOnThrow f (k a)) -> keepsOnThrow f (bind c k).
Proof.
  intros Hc Hk w w' msg. unfold bind.
  destruct (c w) as [w1 [a|msg1]] eqn:E; intros H.
  - rewrite (Hk a _ _ _ H). exact (Hc _ _ _ E).
  - injection H as <- _. exact (Hc _ _ _ E).
Qed.

Lemma keeps_path_join (dir : option string) (rest : string) :
  keeps f (path_join dir rest).
Proof.
  unfold path_join, typeError.
  destruct dir; [apply keeps_ret | apply keeps_throw].
Qed.

Lemma keeps_writeFileSync (path content : string) :
  keeps f (writeFileSync path content).
Proof.
  unfold writeFileSync. apply keeps_bind; [apply keeps_emit|intros _].
  intros w w' o H. now injection H as <- _.
Qed.

End Frame.

Ltac keeps_step :=
  match goal with
  | |- keeps _ (ret _) => apply keeps_ret
  | |- keeps _ (throw _) => apply keeps_throw
  | |- keeps _ (typeError _) => apply keeps_throw
  | |- keeps _ this => apply keeps_this
  | |- keeps _ (emit _) => apply keeps_emit
  | |- keeps _ (assign _) => apply keeps_assign; intros ?; reflexivity
  | |- keeps _ (path_join _ _) => apply keeps_path_join
  | |- keeps _ (writeFileSync _ _) => apply keeps_writeFileSync
  | |- keeps _ (bind _ _) => apply keeps_bind; [|intros ?]
  | |- keeps _ (each _ _) => apply keeps_each; intros ?
  | |- keeps _ (eachWith _ _ _) => apply keeps_eachWith; intros ? ?
  | |- keeps _ (if ?b then _ else _) => destruct b
  | |- keeps _ (match ?x with _ => _ end) => destruct x
  end.

Ltac keeps_auto := repeat keeps_step.

Section FrameOfMethods.

Variables (T : Type) (f : Project -> T) (env : Env).

Lemma keeps_calculateCombinedConstraints (releasePackages : Obj.t string) :
  keeps f (calculateCombinedConstraints env releasePackages).
Proof.
  unfold calculateCombinedConstraints, getProgramsSubdirs, programDeps,
    getProgramsDirectory.
  keeps_auto.
Qed.

Lemma keeps_resolveConstraints (cs : list Constraint) (prev : option versions) :
  keeps f (resolveConstraints env cs prev).
Proof. unfold resolveConstraints. keeps_auto. Qed.

Lemma keeps__ensurePackagesExistOnDisk (vs : versions) (options : DiskOptions) :
  keeps f (_ensurePackagesExistOnDisk env vs options).
Proof. unfold _ensurePackagesExistOnDisk. keeps_auto. Qed.

Lemma keeps__recordVersions (options : RecordOptions) :
  keeps f (_recordVersions env options).
Proof.
  unfold _recordVersions, _getVersionsFile. keeps_auto.
Qed.

Lemma keeps_showPackageChanges (old : option versions) (new : versions)
  (options : ShowOptions) :
  keeps f (showPackageChanges old new options).
Proof.
  unfold showPackageChanges, classifyChanges, showStep, typeError.
  keeps_auto.
Qed.

Lemma keeps_setVersions (newVersions : versions) (options : RecordOptions) :
  (forall x p, f (with_dependencies x p) = f p) ->
  keeps f (setVersions env newVersions options).
Proof.
  intros Hf. unfold setVersions.
  apply keeps_bind; [apply keeps__ensurePackagesExistOnDisk|intros ?].
  destruct (negb _); [apply keeps_ret|].
  apply keeps_bind; [apply keeps_this|intros ?].
  apply keeps_bind; [|intros ?; apply keeps_ret].
  destruct (_ || _); [|apply keeps_ret].
  apply keeps_bind; [|intros ?; apply keeps__recordVersions].
  apply keeps_assign. apply Hf.
Qed.

(** The part of the recompute after [viableDepSource] was cleared. *)
Lemma keepsOnThrow_recompute (current : Release) :
  (forall x p, f (with_dependencies x p) = f p) ->
  (forall x p, f (with_combinedConstraints x p) = f p) ->
  keepsOnThrow f
    (combined <- calculateCombinedConstraints env
                   (if isProperRelease current then getPackages current
                    else Obj.empty) ;;
     assign (with_combinedConstraints (Some combined)) ;;
     p <- this ;;
     newVersions <- resolveConstraints env combined (dependencies p) ;;
     p <- this ;;
     let oldVersions := dependencies p in
     setV <- setVersions env newVersions noRecordOptions ;;
     showPackageChanges oldVersions newVersions
       {| skipPackages := None;
          onDiskPackages := Some (downloaded setV) |} ;;
     if negb (success setV) then
       throw "Could not install all the requested packages."
     else
       assign (with_packageLoader (Some newVersions)) ;;
       assign (with_depsUpToDate true) ;;
       assign (with_viableDepSource true)).
Proof.
  intros Hd Hc.
  apply keepsOnThrow_bind; [apply keeps_calculateCombinedConstraints|intros combined].
  apply keepsOnThrow_bind; [apply keeps_assign, Hc|intros ?].
  apply keepsOnThrow_bind; [apply keeps_this|intros p].
  apply keepsOnThrow_bind; [apply keeps_resolveConstraints|intros newVersions].
  apply keepsOnThrow_bind; [apply keeps_this|intros p'].
  apply keepsOnThrow_bind; [apply keeps_setVersions, Hd|intros setV].
  apply keepsOnThrow_bind; [apply keeps_showPackageChanges|intros ?].
  destruct (negb (success setV)).
  - apply keepsOnThrow_keeps, keeps_throw.
  - intros w w' msg H. discriminate.
Qed.

End FrameOfMethods.

(** A recompute that throws leaves the project stale and not viable as a
    source of dependencies, with the root directory and the dependencies it
    had. *)
Lemma _ensureDepsUpToDate_throw (env : Env) (current : Release)
  (w w' : World) (msg : string) :
  release_current env = Some current ->
  _depsUpToDate (self w) = false ->
  _ensureDepsUpToDate env w = (w', Throw msg) ->
  viableDepSource (self w') = false
  /\ _depsUpToDate (self w') = false
  /\ rootDir (self w') = rootDir (self w).
Proof.
  intros Hrel Hstale. unfold _ensureDepsUpToDate. rewrite Hrel.
  unfold bind at 1, this at 1. rewrite Hstale. cbn [negb].
  rewrite (bind_Ret _ (assign_run _ w)). intros H.
  repeat split.
  - rewrite (keepsOnThrow_recompute viableDepSource env current
               (fun _ _ => eq_refl) (fun _ _ => eq_refl) _ H).
    reflexivity.
  - rewrite (keepsOnThrow_recompute _depsUpToDate env current
               (fun _ _ => eq_refl) (fun _ _ => eq_refl) _ H).
    exact Hstale.
  - rewrite (keepsOnThrow_recompute rootDir env current
               (fun _ _ => eq_refl) (fun _ _ => eq_refl) _ H).
    reflexivity.
Qed.

(** C3 on a project bound to its directory, for which the resolver names a
    package that has no build: the recompute throws, and once it has ended
    the root directory is still set but [viableDepSource], which was true
    before the call, is false. *)
Theorem ensureDepsUpToDate_failure_leaves_unviable :
  rootDir (self boundWorld) = Some "/app"
  /\ viableDepSource (self boundWorld) = true
  /\ outcome (_ensureDepsUpToDate envMissing boundWorld)
     = Throw "Could not install all the requested packages."
  /\ rootDir (self (worldAfter (_ensureDepsUpToDate envMissing boundWorld)))
     = Some "/app"
  /\ viableDepSource
       (self (worldAfter (_ensureDepsUpToDate envMissing boundWorld)))
     = false.
Proof. repeat split. Qed.

(** * Further properties *)

(** ** Trimming a line *)

Lemma before_hasChar (c : ascii) (s : string) : hasChar c (before c s) = false.
Proof.
  induction s as [|a r IH]; simpl; [reflexivity|].
  destruct (Ascii.eqb a c) eqn:E; simpl; [reflexivity|]. now rewrite E.
Qed.

Lemma before_id (c : ascii) (s : string) :
  hasChar c s = false -> before c s = s.
Proof.
  induction s as [|a r IH]; simpl; [reflexivity|].
  destruct (Ascii.eqb a c); simpl; [discriminate|].
  intros H. now rewrite IH.
Qed.

Lemma ltrim_hasChar (c : ascii) (s : string) :
  hasChar c s = false -> hasChar c (ltrim s) = false.
Proof.
  induction s as [|a r IH]; simpl; [reflexivity|].
  intros H. apply orb_false_iff in H. destruct H as [Ha Hr].
  destruct (is_space a); [now apply IH|]. simpl. now rewrite Ha, Hr.
Qed.

Lemma rtrim_hasChar (c : ascii) (s : string) :
  hasChar c s = false -> hasChar c (rtrim s) = false.
Proof.
  induction s as [|a r IH]; simpl; [reflexivity|].
  intros H. apply orb_false_iff in H. destruct H as [Ha Hr].
  specialize (IH Hr).
  destruct (rtrim r) as [|b r'].
  - destruct (is_space a); simpl; [reflexivity|]. now rewrite Ha.
  - simpl in *. now rewrite Ha, IH.
Qed.

Lemma ltrim_head (s : string) : notSpace (headChar (ltrim s)).
Proof.
  induction s as [|a r IH]; simpl; [exact I|].
  destruct (is_space a) eqn:E; [exact IH|]. simpl. exact E.
Qed.

Lemma ltrim_id (s : string) : notSpace (headChar s) -> ltrim s = s.
Proof.
  destruct s as [|a r]; simpl; [reflexivity|]. now intros ->.
Qed.

Lemma rtrim_head (s : string) :
  notSpace (headChar s) -> headChar (rtrim s) = headChar s.
Proof.
  destruct s as [|a r]; simpl; [reflexivity|]. intros Ha.
  destruct (rtrim r); [now rewrite Ha | reflexivity].
Qed.

Lemma rtrim_last (s : string) : notSpace (lastChar (rtrim s)).
Proof.
  induction s as [|a r IH]; simpl; [exact I|].
  destruct (rtrim r) as [|b r'] eqn:E.
  - destruct (is_space a) eqn:Ea; simpl; [exact I | exact Ea].
  - exact IH.
Qed.

Lemma rtrim_id (s : string) : notSpace (lastChar s) -> rtrim s = s.
Proof.
  induction s as [|a r IH]; simpl; [reflexivity|].
  destruct r as [|b r'].
  - simpl. now intros ->.
  - intros H. rewrite (IH H). reflexivity.
Qed.

(** The result of [trimLine] holds no comment sign and neither starts nor
    ends with white space; trimming it again changes nothing. *)
Theorem trimLine_trimmed (line : string) :
  hasChar "#" (trimLine line) = false
  /\ notSpace (headChar (trimLine line))
  /\ notSpace (lastChar (trimLine line))
  /\ trimLine (trimLine line) = trimLine line.
Proof.
  assert (H1 : hasChar "#" (trimLine line) = false).
  { unfold trimLine. apply rtrim_hasChar, ltrim_hasChar, before_hasChar. }
  assert (H2 : notSpace (headChar (trimLine line))).
  { unfold trimLine. rewrite rtrim_head; apply ltrim_head. }
  assert (H3 : notSpace (lastChar (trimLine line))).
  { unfold trimLine. apply rtrim_last. }
  repeat split; try assumption.
  unfold trimLine at 1.
  now rewrite (before_id _ _ H1), (ltrim_id _ H2), (rtrim_id _ H3).
Qed.

(** ** Reading a constraint file *)

Lemma keys_set {V : Type} (o : Obj.t V) (k : string) (v : V) :
  Obj.keys (Obj.set o k v)
  = if Obj.has o k then Obj.keys o else (Obj.keys o ++ [k])%list.
Proof.
  unfold Obj.has.
  induction o as [|[k' v'] o IH]; simpl; [reflexivity|].
  destruct (k' =? k) eqn:E; simpl; [reflexivity|].
  rewrite IH. now destruct (Obj.get o k).
Qed.

Lemma has_In {V : Type} (o : Obj.t V) (k : string) :
  Obj.has o k = false -> ~ In k (Obj.keys o).
Proof.
  unfold Obj.has. destruct (Obj.get o k) eqn:G; [discriminate|]. intros _ Hin.
  apply in_map_iff in Hin. destruct Hin as (e & <- & Hin).
  pose proof (get_none_keys _ _ G e Hin) as K.
  now rewrite String.eqb_refl in K.
Qed.

Lemma set_wf {V : Type} (o : Obj.t V) (k : string) (v : V) :
  Obj.wf o -> Obj.wf (Obj.set o k v).
Proof.
  unfold Obj.wf. intros H. rewrite keys_set.
  destruct (Obj.has o k) eqn:E; [exact H|].
  apply NoDup_app; [exact H | repeat constructor; auto |].
  intros x Hx [<- | []]. now apply (has_In _ _ E).
Qed.

(** The step of [processPerConstraintLines]. *)
Lemma processPerConstraintLines_app (env : Env) (l1 l2 : list string) :
  processPerConstraintLines env (l1 ++ l2)
  = fold_left
      (fun ret line =>
         let line := trimLine line in
         if line =? "" then ret
         else let constraint := utils_splitConstraint env line in
              Obj.set ret (fst constraint) (snd constraint))
      l2 (processPerConstraintLines env l1).
Proof. unfold processPerConstraintLines. now rewrite fold_left_app. Qed.

(** The object read from the lines of a file has pairwise distinct keys,
    and the last line that names a package decides its constraint. *)
Theorem processPerConstraintLines_last_wins (env : Env)
  (lines : list string) (line : string) :
  Obj.wf (processPerConstraintLines env lines)
  /\ (trimLine line <> "" ->
      Obj.get (processPerConstraintLines env (lines ++ [line]))
              (fst (utils_splitConstraint env (trimLine line)))
      = Some (snd (utils_splitConstraint env (trimLine line)))).
Proof.
  split.
  - unfold processPerConstraintLines.
    assert (G : forall l acc, Obj.wf acc ->
              Obj.wf (fold_left
                (fun ret line0 =>
                   let line1 := trimLine line0 in
                   if line1 =? "" then ret
                   else let constraint := utils_splitConstraint env line1 in
                        Obj.set ret (fst constraint) (snd constraint))
                l acc)).
    { induction l as [|x l IH]; intros acc Hacc; simpl; [exact Hacc|].
      apply IH. destruct (trimLine x =? ""); [exact Hacc|].
      now apply set_wf. }
    apply G. constructor.
  - intros Hne. rewrite processPerConstraintLines_app. simpl.
    apply String.eqb_neq in Hne. rewrite Hne. apply get_set_same.
Qed.

(** A line that is blank or only a comment does not count: the object read
    is the one read without it. *)
Theorem processPerConstraintLines_inert (env : Env)
  (pre post : list string) (line : string) :
  trimLine line = "" ->
  processPerConstraintLines env (pre ++ line :: post)
  = processPerConstraintLines env (pre ++ post).
Proof.
  intros H. rewrite !processPerConstraintLines_app. simpl. now rewrite H.
Qed.

Lemma processPerConstraintLines_last_wins_witness :
  Obj.get (processPerConstraintLines envCheckout
             (["a@1.0.0"; "b"] ++ ["a@2.0.0"])) "a"
  = Some (Some "2.0.0").
Proof.
  apply (proj2 (processPerConstraintLines_last_wins envCheckout
                  ["a@1.0.0"; "b"] "a@2.0.0")).
  discriminate.
Defined.

Lemma processPerConstraintLines_inert_witness :
  processPerConstraintLines envCheckout
    (["a@1.0.0"] ++ "  # tools" :: ["b"])
  = processPerConstraintLines envCheckout (["a@1.0.0"] ++ ["b"]).
Proof.
  apply (processPerConstraintLines_inert envCheckout ["a@1.0.0"] ["b"]
           "  # tools").
  reflexivity.
Defined.

(** ** Binding the root directory *)

Lemma has_get {V : Type} (o : Obj.t V) (k : string) :
  Obj.has o k = match Obj.get o k with Some _ => true | None => false end.
Proof. reflexivity. Qed.

Lemma ensureAppIdentifier_run (env : Env) (root : string) (w : World) :
  rootDir (self w) = Some root ->
  exists w',
    ensureAppIdentifier env w = (w', Ret tt)
    /\ self w' = with_appId (appId (self w')) (self w)
    /\ appId (self w') = Obj.get (disk w') (identifierAt root)
    /\ match Obj.get (disk w) (identifierAt root) with
       | Some id =>
           appId (self w') = Some id /\ disk w' = disk w
           /\ drawn w' = drawn w
       | None =>
           appId (self w')
           = Some (utils_randomToken env (drawn w)
                   ++ utils_randomToken env (S (drawn w))
                   ++ utils_randomToken env (S (S (drawn w))))
           /\ disk w' = Obj.set (disk w) (identifierAt root)
                          (utils_randomToken env (drawn w)
                           ++ utils_randomToken env (S (drawn w))
                           ++ utils_randomToken env (S (S (drawn w))))
       end.
Proof.
  intros Hroot.
  unfold ensureAppIdentifier, appIdentifierFile, bind at 1, bind at 1, this at 1,
    path_join.
  rewrite Hroot. unfold ret at 1. fold (identifierAt root).
  unfold bind at 1, existsSync at 1, bind at 1, emit at 1.
  cbn [disk logged]. rewrite has_get.
  destruct (Obj.get (disk w) (identifierAt root)) as [id|] eqn:G.
  - unfold bind at 1, ret at 1.
    unfold bind at 1, existsSync at 1, bind at 1, emit at 1.
    cbn [disk logged]. rewrite has_get, G.
    unfold bind at 1, readFileSync, bind at 1, emit at 1.
    cbn [disk logged]. rewrite G.
    eexists. split; [reflexivity|]. cbn. rewrite G. auto.
  - unfold bind at 1, bind at 1, randomToken at 1, bind at 1, emit at 1.
    unfold bind at 1, randomToken at 1, bind at 1, emit at 1.
    unfold bind at 1, randomToken at 1, bind at 1, emit at 1.
    unfold writeFileSync at 1, bind at 1, emit at 1.
    cbn [disk logged drawn self trace].
    unfold bind at 1, existsSync at 1, bind at 1, emit at 1.
    cbn [disk logged]. rewrite has_get, get_set_same.
    unfold bind at 1, readFileSync, bind at 1, emit at 1.
    cbn [disk logged]. rewrite get_set_same.
    eexists. split; [reflexivity|]. cbn. rewrite get_set_same. auto.
Qed.

(** The application identifier is generated at most once: after a call
    that generated or found it, another call draws no token, leaves every
    file as it is and reads the same identifier again. *)
Theorem ensureAppIdentifier_once (env : Env) (root : string) (w : World) :
  rootDir (self w) = Some root ->
  exists w1 w2,
    ensureAppIdentifier env w = (w1, Ret tt)
    /\ ensureAppIdentifier env w1 = (w2, Ret tt)
    /\ appId (self w1) = Obj.get (disk w1) (identifierAt root)
    /\ appId (self w1) <> None
    /\ disk w2 = disk w1
    /\ drawn w2 = drawn w1
    /\ appId (self w2) = appId (self w1).
Proof.
  intros Hroot.
  destruct (ensureAppIdentifier_run env w Hroot)
    as (w1 & H1 & Hself & Hid & Hcase).
  assert (Hroot1 : rootDir (self w1) = Some root).
  { rewrite Hself. exact Hroot. }
  assert (Hsome : appId (self w1) <> None).
  { destruct (Obj.get (disk w) (identifierAt root));
      destruct Hcase as [-> _]; discriminate. }
  destruct (ensureAppIdentifier_run env w1 Hroot1)
    as (w2 & H2 & _ & _ & Hcase2).
  exists w1, w2. repeat split; try assumption.
  - rewrite <- Hid in Hcase2.
    destruct (appId (self w1)); [tauto | contradiction].
  - rewrite <- Hid in Hcase2.
    destruct (appId (self w1)); [tauto | contradiction].
  - rewrite <- Hid in Hcase2.
    destruct (appId (self w1)); [tauto | contradiction].
Qed.

(** The steps of [setRootDir] on a directory, where no read or write of a
    file fails. *)
Lemma setRootDir_run (env : Env) (dir : string) (w : World) :
  exists w',
    setRootDir env (Some dir) w = (w', Ret tt)
    /\ rootDir (self w') = Some dir
    /\ constraints (self w')
       = Some (processPerConstraintLines env
                 (linesAt env (disk w) (dir ++ "/" ++ ".meteor/packages")))
    /\ dependencies (self w')
       = Some (processPerConstraintLines env
                 (linesAt env (disk w) (dir ++ "/" ++ ".meteor/versions")))
    /\ combinedConstraints (self w') = None
    /\ packageLoader (self w') = None
    /\ appId (self w') = Obj.get (disk w') (identifierAt dir)
    /\ appId (self w') <> None
    /\ _depsUpToDate (self w') = false
    /\ viableDepSource (self w') = true
    /\ muted (self w') = muted (self w).
Proof.
  unfold setRootDir.
  rewrite (bind_Ret _ (assign_run _ w)).
  unfold _getConstraintFile at 1, bind at 1, bind at 1, this at 1, path_join.
  cbn [self updated rootDir with_rootDir]. unfold ret at 1.
  rewrite (bind_Ret _ (getLinesOrEmpty_run env _ _)).
  rewrite (bind_Ret _ (assign_run _ _)).
  rewrite (bind_Ret _ (assign_run _ _)).
  rewrite (bind_Ret _ (assign_run _ _)).
  unfold _getVersionsFile at 1, bind at 1, bind at 1, this at 1, path_join.
  cbn [self updated logged rootDir with_rootDir with_constraints
       with_combinedConstraints with_packageLoader]. unfold ret at 1.
  rewrite (bind_Ret _ (getLinesOrEmpty_run env _ _)).
  rewrite (bind_Ret _ (assign_run _ _)).
  match goal with
  | |- context [bind (ensureAppIdentifier env) _ ?w0] =>
      destruct (@ensureAppIdentifier_run env dir w0 eq_refl)
        as (w1 & H1 & Hself & Hid & Hcase);
      assert (Hsome : appId (self w1) <> None)
        by (destruct (Obj.get (disk w0) (identifierAt dir));
            destruct Hcase as [-> _]; discriminate)
  end.
  rewrite (bind_Ret _ H1).
  rewrite (bind_Ret _ (assign_run _ _)).
  rewrite assign_run.
  eexists. split; [reflexivity|].
  cbn [self updated logged]. rewrite Hself. cbn.
  repeat split; try reflexivity; try assumption.
Qed.

(** After a call of [setRootDir] on a directory that returned, the
    constraints and the dependencies are the objects read from the
    packages file and the versions file (empty when the file is missing),
    the values derived from them are dropped, the identifier is the
    content of the identifier file, and the project is stale and viable as
    a source of dependencies; the muted flag is as it was. *)
Theorem setRootDir_loads (env : Env) (dir : string) (w w' : World) :
  setRootDir env (Some dir) w = (w', Ret tt) ->
  rootDir (self w') = Some dir
  /\ constraints (self w')
     = Some (processPerConstraintLines env
               (linesAt env (disk w) (dir ++ "/" ++ ".meteor/packages")))
  /\ dependencies (self w')
     = Some (processPerConstraintLines env
               (linesAt env (disk w) (dir ++ "/" ++ ".meteor/versions")))
  /\ combinedConstraints (self w') = None
  /\ packageLoader (self w') = None
  /\ appId (self w') = Obj.get (disk w') (identifierAt dir)
  /\ appId (self w') <> None
  /\ _depsUpToDate (self w') = false
  /\ viableDepSource (self w') = true
  /\ muted (self w') = muted (self w).
Proof.
  intros Hrun.
  destruct (setRootDir_run env dir w) as (w0 & Hrun0 & H).
  rewrite Hrun in Hrun0. injection Hrun0 as <-. exact H.
Qed.

Lemma setRootDir_loads_witness :
  rootDir (self boundWorld) = Some "/app"
  /\ constraints (self boundWorld) = Some []
  /\ dependencies (self boundWorld) = Some []
  /\ appId (self boundWorld)
     = Obj.get (disk boundWorld) (identifierAt "/app")
  /\ appId (self boundWorld) <> None
  /\ _depsUpToDate (self boundWorld) = false
  /\ viableDepSource (self boundWorld) = true.
Proof.
  destruct (@setRootDir_loads envCheckout "/app" (Sample.fresh []) boundWorld
              eq_refl)
    as (H1 & H2 & H3 & _ & _ & H6 & H7 & H8 & H9 & _).
  repeat split; assumption.
Defined.

Lemma ensureAppIdentifier_once_witness :
  exists w1 w2,
    ensureAppIdentifier envCheckout boundWorld = (w1, Ret tt)
    /\ ensureAppIdentifier envCheckout w1 = (w2, Ret tt)
    /\ appId (self w1) = Obj.get (disk w1) (identifierAt "/app")
    /\ appId (self w1) <> None
    /\ disk w2 = disk w1
    /\ drawn w2 = drawn w1
    /\ appId (self w2) = appId (self w1).
Proof.
  exact (@ensureAppIdentifier_once envCheckout "/app" boundWorld eq_refl).
Defined.

(** ** What the package store reports *)

Lemma In_set {V : Type} (o : Obj.t V) (k : string) (v : V) (e : string * V) :
  In e (Obj.set o k v) -> In e o \/ e = (k, v).
Proof.
  induction o as [|[k' v'] o IH]; simpl.
  - intros [<- | []]. now right.
  - destruct (k' =? k) eqn:E; simpl.
    + intros [<- | H]; [|now left; right].
      apply String.eqb_eq in E. subst. now right.
    + intros [<- | H]; [now left; left|].
      destruct (IH H); [left; now right | now right].
Qed.

Lemma set_absent {V : Type} (o : Obj.t V) (k : string) (v : V) :
  Obj.has o k = false -> Obj.set o k v = (o ++ [(k, v)])%list.
Proof.
  unfold Obj.has.
  induction o as [|[k' v'] o IH]; simpl; [reflexivity|].
  destruct (k' =? k); [discriminate|].
  intros H. now rewrite IH.
Qed.

Lemma not_In_has {V : Type} (o : Obj.t V) (k : string) :
  ~ In k (Obj.keys o) -> Obj.has o k = false.
Proof.
  unfold Obj.has.
  induction o as [|[k' v'] o IH]; simpl; [reflexivity|].
  intros H. destruct (k' =? k) eqn:E.
  - apply String.eqb_eq in E. tauto.
  - apply IH. tauto.
Qed.

Lemma downloadedFrom_In (env : Env) (vs : versions) :
  forall acc e,
    In e (downloadedFrom env vs acc) ->
    In e acc \/ (In e vs /\ materializes env e = true).
Proof.
  unfold downloadedFrom.
  induction vs as [|x vs IH]; intros acc e; simpl; [now left|].
  intros H. apply IH in H. destruct H as [H | [H1 H2]].
  - destruct (materializes env x) eqn:M; [|now left].
    apply In_set in H. destruct H as [H | ->]; [now left|].
    right. split; [left; now destruct x | now destruct x].
  - right. split; [now right | exact H2].
Qed.

Lemma downloadedFrom_all (env : Env) (vs : versions) :
  forall acc,
    NoDup (Obj.keys acc ++ Obj.keys vs) ->
    (forall e, In e vs -> materializes env e = true) ->
    downloadedFrom env vs acc = (acc ++ vs)%list.
Proof.
  unfold downloadedFrom.
  induction vs as [|[k v] vs IH]; intros acc Hnd Hall; simpl.
  - now rewrite app_nil_r.
  - rewrite (Hall (k, v) (or_introl eq_refl)). simpl.
    assert (Hk : Obj.has acc k = false).
    { apply not_In_has. intros Hin.
      simpl in Hnd. apply NoDup_remove_2 in Hnd. apply Hnd.
      apply in_or_app. now left. }
    rewrite set_absent by exact Hk.
    rewrite IH.
    + now rewrite <- app_assoc.
    + unfold Obj.keys in *. rewrite map_app. simpl in *.
      rewrite <- app_assoc. exact Hnd.
    + intros e He. apply Hall. now right.
Qed.

Lemma downloadedFrom_wf (env : Env) (vs : versions) :
  forall acc, Obj.wf acc -> Obj.wf (downloadedFrom env vs acc).
Proof.
  unfold downloadedFrom.
  induction vs as [|x vs IH]; intros acc H; simpl; [exact H|].
  apply IH. destruct (materializes env x); [now apply set_wf | exact H].
Qed.

Lemma _ensurePackagesExistOnDisk_run_host (env : Env) (vs : versions)
  (vb : bool) (w : World) :
  exists es,
    _ensurePackagesExistOnDisk env vs {| arch := None; verbose := vb |} w
    = (logged es w, Ret (downloadedFrom env vs Obj.empty)).
Proof.
  unfold _ensurePackagesExistOnDisk, bind at 1, this.
  cbn [arch verbose].
  generalize (vb || negb (muted (self w))) as b.
  generalize (@Obj.empty jsstr) as acc.
  intros acc b. revert acc w.
  induction vs as [|e vs IH]; intros acc w0; simpl.
  - exists []. unfold ret. now rewrite logged_nil.
  - unfold bind at 1. unfold bind at 1, emit at 1.
    unfold downloadedFrom; simpl. unfold materializes at 2, hostArches.
    destruct (tropohouse_maybeDownload env (fst e) (snd e)
                ["browser"; archinfo_host env]) as [u|err].
    + unfold ret at 1.
      destruct (IH (Obj.set acc (fst e) (snd e))
                   (logged [Download (fst e) (snd e)
                              ["browser"; archinfo_host env] b] w0))
        as (es & H).
      rewrite H, logged_logged. eexists. reflexivity.
    + unfold bind at 1, emit at 1, ret at 1.
      destruct (IH acc
                   (logged [ConsoleLog err]
                      (logged [Download (fst e) (snd e)
                                 ["browser"; archinfo_host env] b] w0)))
        as (es & H).
      rewrite H, !logged_logged. eexists. reflexivity.
Qed.

(** The object that [_ensurePackagesExistOnDisk] returns for the host
    architecture holds only requested packages whose download did not
    throw, each key once; it is the requested object itself when no
    download throws.  The call changes neither the project nor a file. *)
Theorem ensurePackagesExistOnDisk_reports (env : Env) (vs : versions)
  (vb : bool) (w : World) :
  exists es got,
    _ensurePackagesExistOnDisk env vs {| arch := None; verbose := vb |} w
    = (logged es w, Ret got)
    /\ Obj.wf got
    /\ (forall e, In e got -> In e vs /\ materializes env e = true)
    /\ (Obj.wf vs ->
        (forall e, In e vs -> materializes env e = true) ->
        got = vs).
Proof.
  destruct (_ensurePackagesExistOnDisk_run_host env vs vb w) as (es & H).
  exists es, (downloadedFrom env vs Obj.empty).
  split; [exact H|]. split; [|split].
  - apply downloadedFrom_wf. constructor.
  - intros e He. apply downloadedFrom_In in He.
    destruct He as [[] | He]. exact He.
  - intros Hwf Hall. now rewrite downloadedFrom_all.
Qed.

Lemma ensurePackagesExistOnDisk_reports_witness :
  exists es got,
    _ensurePackagesExistOnDisk envCheckout [("a", Some "1"); ("b", Some "2")]
      {| arch := None; verbose := true |} boundWorld
    = (logged es boundWorld, Ret got)
    /\ got = [("a", Some "1"); ("b", Some "2")].
Proof.
  destruct (ensurePackagesExistOnDisk_reports envCheckout
              [("a", Some "1"); ("b", Some "2")] true boundWorld)
    as (es & got & H & _ & _ & Hall).
  exists es, got. split; [exact H|].
  apply Hall.
  - repeat constructor; simpl; intuition discriminate.
  - intros e [<- | [<- | []]]; reflexivity.
Defined.

(** ** Committing the versions *)

Lemma get_set_other {V : Type} (o : Obj.t V) (k k' : string) (v : V) :
  k' <> k -> Obj.get (Obj.set o k v) k' = Obj.get o k'.
Proof.
  intros Hne. induction o as [|[k0 v0] o IH]; simpl.
  - destruct (k =? k') eqn:E; [|reflexivity].
    apply String.eqb_eq in E. congruence.
  - destruct (k0 =? k) eqn:E; simpl.
    + apply String.eqb_eq in E. subst k0.
      destruct (k =? k') eqn:E'; [|reflexivity].
      apply String.eqb_eq in E'. congruence.
    + now rewrite IH.
Qed.

Lemma _recordVersions_skips (env : Env) (options : RecordOptions) (w : World) :
  release_explicit env = true -> alwaysRecord options = false ->
  _recordVersions env options w = (w, Ret tt).
Proof. intros He Ha. unfold _recordVersions. now rewrite He, Ha. Qed.

Lemma _recordVersions_writes (env : Env) (options : RecordOptions)
  (root : string) (w : World) :
  release_explicit env = false \/ alwaysRecord options = true ->
  rootDir (self w) = Some root ->
  _recordVersions env options w
  = ({| self := self w;
        disk := Obj.set (disk w) (versionsAt root)
                  (join "" (sortLines (versionLines (dependencies (self w)))));
        drawn := drawn w;
        trace := trace w ++
                 [WriteFile (versionsAt root)
                    (join "" (sortLines
                                (versionLines (dependencies (self w)))))] |},
     Ret tt).
Proof.
  intros Hgate Hroot. unfold _recordVersions.
  assert (G : release_explicit env && negb (alwaysRecord options) = false).
  { destruct Hgate as [-> | ->]; [reflexivity | apply andb_false_iff; now right]. }
  rewrite G.
  unfold bind, this, _getVersionsFile, bind, this, path_join.
  rewrite Hroot. reflexivity.
Qed.

(** When [_recordVersions] writes, the versions file holds the lines
    [name@version] of the dependencies, each once, in ascending order, and
    no other file changes. *)
Theorem recordVersions_sorted (env : Env) (options : RecordOptions)
  (root : string) (w : World) :
  release_explicit env = false \/ alwaysRecord options = true ->
  rootDir (self w) = Some root ->
  exists w' lines,
    _recordVersions env options w = (w', Ret tt)
    /\ Obj.get (disk w') (versionsAt root) = Some (join "" lines)
    /\ Sorted lineLe lines
    /\ Permutation (versionLines (dependencies (self w))) lines
    /\ (forall path, path <> versionsAt root ->
        Obj.get (disk w') path = Obj.get (disk w) path).
Proof.
  intros Hgate Hroot.
  eexists _, (sortLines (versionLines (dependencies (self w)))).
  split; [apply (_recordVersions_writes env options w Hgate Hroot)|].
  cbn [disk]. split; [apply get_set_same|].
  split; [apply sortLines_sorted|]. split; [apply sortLines_perm|].
  intros path Hne. now apply get_set_other.
Qed.

Lemma recordVersions_sorted_witness :
  exists w' lines,
    _recordVersions envCheckout noRecordOptions upToDateWorld = (w', Ret tt)
    /\ Obj.get (disk w') (versionsAt "/app") = Some (join "" lines)
    /\ Sorted lineLe lines
    /\ Permutation (versionLines (dependencies (self upToDateWorld))) lines
    /\ (forall path, path <> versionsAt "/app" ->
        Obj.get (disk w') path = Obj.get (disk upToDateWorld) path).
Proof.
  exact (@recordVersions_sorted envCheckout noRecordOptions "/app"
           upToDateWorld (or_introl eq_refl) eq_refl).
Defined.

Lemma jsstr_eqb_refl (v : jsstr) : jsstr_eqb v v = true.
Proof. destruct v; simpl; [apply String.eqb_refl | reflexivity]. Qed.

Lemma get_In_wf {V : Type} (o : Obj.t V) (e : string * V) :
  Obj.wf o -> In e o -> Obj.get o (fst e) = Some (snd e).
Proof.
  unfold Obj.wf. induction o as [|[k v] o IH]; simpl; [tauto|].
  intros Hnd [<- | Hin]; simpl.
  - now rewrite String.eqb_refl.
  - inversion Hnd as [|? ? Hk Hnd']; subst.
    destruct (k =? fst e) eqn:E; [|now apply IH].
    apply String.eqb_eq in E. subst k. exfalso. apply Hk.
    apply in_map_iff. now exists e.
Qed.

Lemma isEqual_refl (o : versions) :
  Obj.wf o -> Obj.isEqual jsstr_eqb o o = true.
Proof.
  intros Hwf. unfold Obj.isEqual. rewrite Nat.eqb_refl, andb_true_r.
  apply forallb_forall. intros e He.
  rewrite get_In_wf by assumption. apply jsstr_eqb_refl.
Qed.

Lemma replaceAndRecord_run (env : Env) (options : RecordOptions)
  (root : string) (newVersions : versions) (w : World) :
  rootDir (self w) = Some root ->
  exists w',
    (assign (with_dependencies (Some newVersions)) ;;
     _recordVersions env options) w = (w', Ret tt)
    /\ self w' = with_dependencies (Some newVersions) (self w)
    /\ (release_explicit env = false \/ alwaysRecord options = true ->
        Obj.get (disk w') (versionsAt root)
        = Some (join "" (sortLines (versionLines (Some newVersions))))
        /\ forall path, path <> versionsAt root ->
             Obj.get (disk w') path = Obj.get (disk w) path)
    /\ (release_explicit env = true -> alwaysRecord options = false ->
        disk w' = disk w).
Proof.
  intros Hroot. rewrite (bind_Ret _ (assign_run _ w)).
  destruct (release_explicit env) eqn:He;
    destruct (alwaysRecord options) eqn:Ha.
  2:{ rewrite _recordVersions_skips by assumption.
      eexists. split; [reflexivity|]. split; [reflexivity|].
      split; [intros [X|X]; discriminate | reflexivity]. }
  all: rewrite (@_recordVersions_writes env options root) ;
    [ | rewrite ?He, ?Ha; auto | exact Hroot ];
    eexists; (split; [reflexivity|]); (split; [reflexivity|]);
    (split; [intros _; split;
             [apply get_set_same | intros path Hne; now apply get_set_other]
            | intros; discriminate]).
Qed.

Lemma with_dependencies_same (p : Project) :
  with_dependencies (dependencies p) p = p.
Proof. now destruct p. Qed.

Lemma setVersions_run_ok (env : Env) (newVersions : versions)
  (options : RecordOptions) (root : string) (w : World) :
  Obj.wf newVersions ->
  (forall e, In e newVersions -> materializes env e = true) ->
  rootDir (self w) = Some root ->
  exists w',
    setVersions env newVersions options w
    = (w', Ret {| success := true; downloaded := newVersions |})
    /\ sameVersions newVersions (dependencies (self w')) = true
    /\ (alwaysRecord options = false ->
        sameVersions newVersions (dependencies (self w)) = true ->
        exists es, w' = logged es w)
    /\ (alwaysRecord options = true
        \/ sameVersions newVersions (dependencies (self w)) = false ->
        dependencies (self w') = Some newVersions
        /\ (release_explicit env = false \/ alwaysRecord options = true ->
            Obj.get (disk w') (versionsAt root)
            = Some (join "" (sortLines (versionLines (Some newVersions)))))
        /\ (release_explicit env = true -> alwaysRecord options = false ->
            disk w' = disk w))
    /\ self w' = with_dependencies (dependencies (self w')) (self w)
    /\ (forall path, path <> versionsAt root ->
        Obj.get (disk w') path = Obj.get (disk w) path).
Proof.
  intros Hwf Hall Hroot.
  destruct (_ensurePackagesExistOnDisk_run env newVersions w) as (es & H).
  unfold setVersions. rewrite (bind_Ret _ H).
  assert (Hgot : downloadedFrom env newVersions Obj.empty = newVersions).
  { rewrite downloadedFrom_all; [reflexivity | exact Hwf | exact Hall]. }
  rewrite Hgot, Nat.eqb_refl. cbn [negb].
  unfold bind at 1, this at 1. cbn [self logged].
  destruct (alwaysRecord options
            || negb (sameVersions newVersions (dependencies (self w))))
    eqn:Hchange.
  - destruct (@replaceAndRecord_run env options root newVersions
                (logged es w) Hroot) as (w' & Hrun & Hself & Hopen & Hshut).
    rewrite (bind_Ret _ Hrun). exists w'. split; [reflexivity|].
    split; [rewrite Hself; apply (isEqual_refl Hwf)|].
    split; [|split; [|split]].
    + intros Ha Hsame. rewrite Ha, Hsame in Hchange. discriminate.
    + intros _. split; [now rewrite Hself|]. split.
      * intros Hgate. apply (Hopen Hgate).
      * exact Hshut.
    + rewrite Hself. reflexivity.
    + intros path Hne.
      destruct (release_explicit env) eqn:He;
        destruct (alwaysRecord options) eqn:Ha.
      2:{ now rewrite (Hshut eq_refl eq_refl). }
      all: apply Hopen; auto.
  - apply orb_false_iff in Hchange. destruct Hchange as [Ha Hsame].
    apply negb_false_iff in Hsame.
    exists (logged es w). split; [reflexivity|].
    split; [exact Hsame|]. split; [|split; [|split]].
    + intros _ _. now exists es.
    + intros [X | X]; congruence.
    + cbn [self logged]. now rewrite with_dependencies_same.
    + reflexivity.
Qed.

(** With every build available, [setVersions] succeeds and reports the new
    versions as downloaded; afterwards the dependencies equal the new
    versions as maps.  When they already did and the record is not forced,
    nothing but the trace changes; otherwise the dependencies are replaced
    and, unless an explicit release blocks it, the versions file holds the
    sorted lines of the new versions. *)
Theorem setVersions_commits (env : Env) (newVersions : versions)
  (options : RecordOptions) (root : string) (w : World) :
  Obj.wf newVersions ->
  (forall e, In e newVersions -> materializes env e = true) ->
  rootDir (self w) = Some root ->
  exists w',
    setVersions env newVersions options w
    = (w', Ret {| success := true; downloaded := newVersions |})
    /\ sameVersions newVersions (dependencies (self w')) = true
    /\ (alwaysRecord options = false ->
        sameVersions newVersions (dependencies (self w)) = true ->
        exists es, w' = logged es w)
    /\ (alwaysRecord options = true
        \/ sameVersions newVersions (dependencies (self w)) = false ->
        dependencies (self w') = Some newVersions
        /\ (release_explicit env = false \/ alwaysRecord options = true ->
            Obj.get (disk w') (versionsAt root)
            = Some (join "" (sortLines (versionLines (Some newVersions)))))
        /\ (release_explicit env = true -> alwaysRecord options = false ->
            disk w' = disk w)).
Proof.
  intros Hwf Hall Hroot.
  destruct (setVersions_run_ok env options w Hwf Hall Hroot)
    as (w' & H1 & H2 & H3 & H4 & _).
  exists w'. split; [exact H1|]. split; [exact H2|].
  split; [exact H3 | exact H4].
Qed.

Lemma setVersions_commits_witness :
  exists w',
    setVersions envCheckout [("a", Some "1")] noRecordOptions boundWorld
    = (w', Ret {| success := true; downloaded := [("a", Some "1")] |})
    /\ dependencies (self w') = Some [("a", Some "1")]
    /\ Obj.get (disk w') (versionsAt "/app") = Some ("a@1" ++ nl).
Proof.
  assert (Hwf : Obj.wf [("a", Some "1")]).
  { repeat constructor. simpl. tauto. }
  assert (Hall : forall e : string * jsstr,
            In e [("a", Some "1")] -> materializes envCheckout e = true).
  { intros e [<- | []]. reflexivity. }
  destruct (@setVersions_commits envCheckout [("a", Some "1")]
              noRecordOptions "/app" boundWorld Hwf Hall eq_refl)
    as (w' & Hrun & _ & _ & Hchange).
  destruct (Hchange (or_intror eq_refl)) as (Hdeps & Hfile & _).
  exists w'. split; [exact Hrun|]. split; [exact Hdeps|].
  exact (Hfile (or_introl eq_refl)).
Defined.

(** ** Combining without side effects *)

Lemma programDeps_trace (env : Env) (root item : string) (w : World) :
  rootDir (self w) = Some root ->
  programDeps env item w
  = (logged [InitProgram (dropLast item)
               ((root ++ "/" ++ "programs") ++ "/" ++ item)] w,
     Ret (programEntries env root item)).
Proof.
  intros Hroot. unfold programDeps, bind, getProgramsDirectory, bind, this.
  unfold path_join. rewrite Hroot. reflexivity.
Qed.

Lemma eachWith_programDeps_trace (env : Env) (root : string)
  (l : list string) :
  forall (acc : list Constraint) (w : World),
    rootDir (self w) = Some root ->
    eachWith l acc
      (fun allDeps item =>
         ds <- programDeps env item ;; ret (allDeps ++ ds)%list) w
    = (logged (map (fun item =>
                      InitProgram (dropLast item)
                        ((root ++ "/" ++ "programs") ++ "/" ++ item)) l) w,
       Ret (acc ++ flat_map (programEntries env root) l)%list).
Proof.
  induction l as [|item l IH]; intros acc w Hroot; simpl.
  - unfold ret. now rewrite logged_nil, app_nil_r.
  - unfold bind at 1. unfold bind at 1.
    rewrite (programDeps_trace env item w Hroot). unfold ret at 1.
    rewrite IH by exact Hroot.
    now rewrite logged_logged, <- app_assoc.
Qed.

Lemma calculateCombinedConstraints_trace (env : Env)
  (releasePackages : Obj.t string) (root : string) (w : World) :
  rootDir (self w) = Some root ->
  calculateCombinedConstraints env releasePackages w
  = (logged (combineEvents env root) w,
     Ret (combinedFor env releasePackages root (self w))).
Proof.
  intros Hroot.
  unfold calculateCombinedConstraints, bind at 1, this.
  unfold bind at 1, getProgramsSubdirs, bind at 1, getProgramsDirectory,
    bind at 1, this, path_join.
  rewrite Hroot. unfold ret at 1, bind at 1, emit at 1, ret at 1.
  unfold bind at 1.
  rewrite (@eachWith_programDeps_trace env root) by exact Hroot.
  rewrite logged_logged. unfold ret, combinedFor, combineEvents, ownEntries,
    allProgramEntries.
  simpl app.
  destruct (catalog_getPackage env "ctl").
  - now rewrite <- !app_assoc.
  - now rewrite app_nil_r, <- !app_assoc.
Qed.

(** [calculateCombinedConstraints] has no side effects: it changes no
    field of the project and no file.  Without a root directory it throws;
    with one it returns the project's own entries, then those of its
    programs, then one weak exact entry per release package, then the
    control package if the catalog exposes it, after reading the programs
    directory and initialising each program once. *)
Theorem calculateCombinedConstraints_pure (env : Env)
  (releasePackages : Obj.t string) (w : World) :
  self (worldAfter (calculateCombinedConstraints env releasePackages w))
  = self w
  /\ disk (worldAfter (calculateCombinedConstraints env releasePackages w))
     = disk w
  /\ match rootDir (self w) with
     | None =>
         exists msg,
           calculateCombinedConstraints env releasePackages w
           = (w, Throw msg)
     | Some root =>
         calculateCombinedConstraints env releasePackages w
         = (logged (combineEvents env root) w,
            Ret (combinedFor env releasePackages root (self w)))
     end.
Proof.
  destruct (rootDir (self w)) as [root|] eqn:Hroot.
  - rewrite (calculateCombinedConstraints_trace env releasePackages w Hroot).
    repeat split.
  - assert (H : calculateCombinedConstraints env releasePackages w
                = (w, Throw "TypeError: Arguments to path.join must be strings")).
    { unfold calculateCombinedConstraints, bind at 1, this.
      unfold bind at 1, getProgramsSubdirs, bind at 1, getProgramsDirectory,
        bind at 1, this, path_join.
      now rewrite Hroot. }
    rewrite H. repeat split. eexists. reflexivity.
Qed.

(** ** A recompute that commits *)

Lemma _ensureDepsUpToDate_run_ok (env : Env) (current : Release)
  (root : string) (old newVersions : versions) (w : World) :
  release_current env = Some current ->
  _depsUpToDate (self w) = false ->
  rootDir (self w) = Some root ->
  dependencies (self w) = Some old ->
  catalog_resolveConstraints env
    (combinedFor env (releasePackagesOf current) root (self w)) (Some old)
  = Ret newVersions ->
  Obj.wf newVersions ->
  (forall e, In e newVersions -> materializes env e = true) ->
  exists w',
    _ensureDepsUpToDate env w = (w', Ret tt)
    /\ _depsUpToDate (self w') = true
    /\ viableDepSource (self w') = true
    /\ combinedConstraints (self w')
       = Some (combinedFor env (releasePackagesOf current) root (self w))
    /\ packageLoader (self w') = Some newVersions
    /\ sameVersions newVersions (dependencies (self w')) = true
    /\ constraints (self w') = constraints (self w)
    /\ rootDir (self w') = Some root
    /\ (forall path, path <> versionsAt root ->
        Obj.get (disk w') path = Obj.get (disk w) path)
    /\ appId (self w') = appId (self w)
    /\ muted (self w') = muted (self w).
Proof.
  intros Hrel Hstale Hroot Hold Hres Hwf Hall.
  unfold _ensureDepsUpToDate. rewrite Hrel.
  unfold bind at 1, this at 1. rewrite Hstale. cbn [negb].
  rewrite (bind_Ret _ (assign_run _ w)).
  fold (releasePackagesOf current).
  rewrite (bind_Ret _ (@calculateCombinedConstraints_trace env
                         (releasePackagesOf current) root
                         (updated (with_viableDepSource false) w) Hroot)).
  rewrite (bind_Ret _ (assign_run _ _)).
  unfold bind at 1, this at 1.
  unfold resolveConstraints, bind at 1, bind at 1, emit at 1.
  cbn [self updated logged with_combinedConstraints with_viableDepSource
       dependencies].
  change (combinedFor env (releasePackagesOf current) root
            (with_viableDepSource false (self w)))
    with (combinedFor env (releasePackagesOf current) root (self w)).
  rewrite Hold, Hres. unfold ret at 1.
  unfold bind at 1, this at 1. cbv beta.
  match goal with
  | |- context [bind (setVersions env newVersions noRecordOptions) _ ?w2] =>
      destruct (@setVersions_run_ok env newVersions noRecordOptions root w2
                  Hwf Hall Hroot)
        as (ws & Hrun & Hsame & _ & _ & Hself & Hdisk)
  end.
  rewrite (bind_Ret _ Hrun).
  cbn [self updated logged with_combinedConstraints with_viableDepSource
       dependencies downloaded success].
  rewrite Hold.
  destruct (showPackageChanges_run old newVersions
              {| skipPackages := None; onDiskPackages := Some newVersions |})
    as (s & errs & _ & H3).
  rewrite (bind_Ret _ (H3 _)).
  cbn [negb].
  rewrite (bind_Ret _ (assign_run _ _)).
  rewrite (bind_Ret _ (assign_run _ _)).
  rewrite assign_run.
  eexists. split; [reflexivity|].
  cbn [self updated logged disk]. rewrite Hself.
  cbn. repeat split; try assumption; reflexivity.
Qed.

(** A recompute of a stale project for which the resolver answers and
    every build is available returns: the combined constraints and the
    package loader are those of this pass, the dependencies equal the
    resolver's answer as maps, the project is up to date and viable again,
    its constraints and root directory are untouched and no file but the
    versions file has changed. *)
Theorem ensureDepsUpToDate_commits (env : Env) (current : Release)
  (root : string) (old newVersions : versions) (w : World) :
  release_current env = Some current ->
  _depsUpToDate (self w) = false ->
  rootDir (self w) = Some root ->
  dependencies (self w) = Some old ->
  catalog_resolveConstraints env
    (combinedFor env (releasePackagesOf current) root (self w)) (Some old)
  = Ret newVersions ->
  Obj.wf newVersions ->
  (forall e, In e newVersions -> materializes env e = true) ->
  exists w',
    _ensureDepsUpToDate env w = (w', Ret tt)
    /\ _depsUpToDate (self w') = true
    /\ viableDepSource (self w') = true
    /\ combinedConstraints (self w')
       = Some (combinedFor env (releasePackagesOf current) root (self w))
    /\ packageLoader (self w') = Some newVersions
    /\ sameVersions newVersions (dependencies (self w')) = true
    /\ constraints (self w') = constraints (self w)
    /\ rootDir (self w') = Some root
    /\ (forall path, path <> versionsAt root ->
        Obj.get (disk w') path = Obj.get (disk w) path).
Proof.
  intros Hrel Hstale Hroot Hold Hres Hwf Hall.
  destruct (_ensureDepsUpToDate_run_ok env w Hrel Hstale Hroot Hold Hres
              Hwf Hall)
    as (w' & H1 & H2 & H3 & H4 & H5 & H6 & H7 & H8 & H9 & _).
  exists w'. repeat split; assumption.
Qed.

Lemma ensureDepsUpToDate_commits_witness :
  exists w',
    _ensureDepsUpToDate envCheckout boundWorld = (w', Ret tt)
    /\ _depsUpToDate (self w') = true
    /\ viableDepSource (self w') = true
    /\ combinedConstraints (self w') = Some []
    /\ packageLoader (self w') = Some [("a", Some "1")]
    /\ sameVersions [("a", Some "1")] (dependencies (self w')) = true.
Proof.
  assert (Hwf : Obj.wf [("a", Some "1")]).
  { repeat constructor. simpl. tauto. }
  assert (Hall : forall e : string * jsstr,
            In e [("a", Some "1")] -> materializes envCheckout e = true).
  { intros e [<- | []]. reflexivity. }
  destruct (@ensureDepsUpToDate_commits envCheckout Sample.checkout "/app"
              [] [("a", Some "1")] boundWorld
              eq_refl eq_refl eq_refl eq_refl eq_refl Hwf Hall)
    as (w' & H1 & H2 & H3 & H4 & H5 & H6 & _).
  exists w'. repeat split; assumption.
Defined.

(** ** A resolver that fails *)

(** When the resolver throws, the recompute throws the resolver's own
    error.  The resolve is the last operation of the call, so that no
    package is downloaded and no file written; the dependencies are kept
    and the project stays stale. *)
Theorem ensureDepsUpToDate_resolver_failure (env : Env) (current : Release)
  (root : string) (msg : string) (w : World) :
  release_current env = Some current ->
  _depsUpToDate (self w) = false ->
  rootDir (self w) = Some root ->
  catalog_resolveConstraints env
    (combinedFor env (releasePackagesOf current) root (self w))
    (dependencies (self w))
  = Throw msg ->
  exists w',
    _ensureDepsUpToDate env w = (w', Throw msg)
    /\ trace w'
       = (trace w ++ combineEvents env root
          ++ [Resolve (combinedFor env (releasePackagesOf current) root
                         (self w))
                      (dependencies (self w))])%list
    /\ disk w' = disk w
    /\ dependencies (self w') = dependencies (self w)
    /\ constraints (self w') = constraints (self w)
    /\ _depsUpToDate (self w') = false.
Proof.
  intros Hrel Hstale Hroot Hres.
  unfold _ensureDepsUpToDate. rewrite Hrel.
  unfold bind at 1, this at 1. rewrite Hstale. cbn [negb].
  rewrite (bind_Ret _ (assign_run _ w)).
  fold (releasePackagesOf current).
  rewrite (bind_Ret _ (@calculateCombinedConstraints_trace env
                         (releasePackagesOf current) root
                         (updated (with_viableDepSource false) w) Hroot)).
  rewrite (bind_Ret _ (assign_run _ _)).
  unfold bind at 1, this at 1.
  unfold resolveConstraints, bind at 1, bind at 1, emit at 1.
  cbn [self updated logged with_combinedConstraints with_viableDepSource
       dependencies].
  change (combinedFor env (releasePackagesOf current) root
            (with_viableDepSource false (self w)))
    with (combinedFor env (releasePackagesOf current) root (self w)).
  rewrite Hres. unfold throw.
  eexists. split; [reflexivity|].
  cbn. rewrite <- app_assoc. repeat split. exact Hstale.
Qed.

Lemma ensureDepsUpToDate_resolver_failure_witness :
  exists w',
    _ensureDepsUpToDate
      envConflict boundWorld
    = (w', Throw "conflict")
    /\ disk w' = disk boundWorld
    /\ _depsUpToDate (self w') = false.
Proof.
  destruct (@ensureDepsUpToDate_resolver_failure envConflict
              Sample.checkout "/app" "conflict" boundWorld
              eq_refl eq_refl eq_refl eq_refl)
    as (w' & H1 & _ & H3 & _ & _ & H6).
  exists w'. repeat split; assumption.
Defined.


(** ** Files that a method leaves alone *)

Section Edits.

Variable P : option string -> string -> Prop.

Lemma framed_refl (w : World) : framed P w w.
Proof. split; reflexivity. Qed.

Lemma framed_trans (w w1 w2 : World) :
  framed P w w1 -> framed P w1 w2 -> framed P w w2.
Proof.
  intros [R1 D1] [R2 D2]. split; [congruence|].
  intros path Hp. rewrite D2, D1; auto. now rewrite R1.
Qed.

Lemma framed_logged (es : list Event) (w : World) : framed P w (logged es w).
Proof. split; reflexivity. Qed.

Lemma editsOnly_ret {A : Type} (a : A) : editsOnly P (ret a).
Proof. intros w w' o H. injection H as <- _. apply framed_refl. Qed.

Lemma editsOnly_throw {A : Type} (msg : string) : editsOnly P (@throw A msg).
Proof. intros w w' o H. injection H as <- _. apply framed_refl. Qed.

Lemma editsOnly_this : editsOnly P this.
Proof. intros w w' o H. injection H as <- _. apply framed_refl. Qed.

Lemma editsOnly_emit (e : Event) : editsOnly P (emit e).
Proof. intros w w' o H. injection H as <- _. apply framed_logged. Qed.

Lemma editsOnly_assign (g : Project -> Project) :
  (forall p, rootDir (g p) = rootDir p) -> editsOnly P (assign g).
Proof.
  intros Hg w w' o H. injection H as <- _. split; [apply Hg | reflexivity].
Qed.

Lemma editsOnly_bind {A B : Type} (c : M A) (k : A -> M B) :
  editsOnly P c -> (forall a, editsOnly P (k a)) -> editsOnly P (bind c k).
Proof.
  intros Hc Hk w w' o. unfold bind.
  destruct (c w) as [w1 [a|msg]] eqn:E; intros H.
  - exact (framed_trans (Hc _ _ _ E) (Hk a _ _ _ H)).
  - injection H as <- _. exact (Hc _ _ _ E).
Qed.

Lemma editsOnly_catch {A : Type} (c : M A) (h : string -> M A) :
  editsOnly P c -> (forall msg, editsOnly P (h msg)) ->
  editsOnly P (catch c h).
Proof.
  intros Hc Hh w w' o. unfold catch.
  destruct (c w) as [w1 [a|msg]] eqn:E; intros H.
  - injection H as <- _. exact (Hc _ _ _ E).
  - exact (framed_trans (Hc _ _ _ E) (Hh msg _ _ _ H)).
Qed.

Lemma editsOnly_each {A : Type} (l : list A) (g : A -> M unit) :
  (forall x, editsOnly P (g x)) -> editsOnly P (each l g).
Proof.
  intros Hg. induction l as [|x l IH]; simpl.
  - apply editsOnly_ret.
  - apply editsOnly_bind; auto.
Qed.

Lemma editsOnly_eachWith {A S : Type} (l : list A) (g : S -> A -> M S) :
  (forall s x, editsOnly P (g s x)) -> forall s, editsOnly P (eachWith l s g).
Proof.
  intros Hg. induction l as [|x l IH]; intros s; simpl.
  - apply editsOnly_ret.
  - apply editsOnly_bind; auto.
Qed.

Lemma editsOnly_path_join (dir : option string) (rest : string) :
  editsOnly P (path_join dir rest).
Proof.
  unfold path_join, typeError.
  destruct dir; [apply editsOnly_ret | apply editsOnly_throw].
Qed.

Lemma editsOnly_reads {A : Type} (e : Event) (f : World -> Outcome A) :
  editsOnly P (emit e ;; fun w => (w, f w)).
Proof.
  apply editsOnly_bind; [apply editsOnly_emit|intros _].
  intros w w' o H. injection H as <- _. apply framed_refl.
Qed.

Lemma editsOnly_getLinesOrEmpty (env : Env) (path : string) :
  editsOnly P (getLinesOrEmpty env path).
Proof.
  intros w w' o. rewrite getLinesOrEmpty_run. intros H.
  injection H as <- _. apply framed_logged.
Qed.

Lemma editsOnly_readFileSync (path : string) :
  editsOnly P (readFileSync path).
Proof.
  unfold readFileSync. apply editsOnly_bind; [apply editsOnly_emit|intros _].
  intros w w' o H. destruct (Obj.get (disk w) path);
    injection H as <- _; apply framed_refl.
Qed.

Lemma editsOnly_getLines (env : Env) (path : string) :
  editsOnly P (getLines env path).
Proof.
  unfold getLines. apply editsOnly_bind; [apply editsOnly_emit|intros _].
  intros w w' o H. destruct (Obj.get (disk w) path);
    injection H as <- _; apply framed_refl.
Qed.

(** A write to a file that [P] allows under every root directory. *)
Lemma editsOnly_writeFileSync (path content : string) :
  (forall r, P r path) -> editsOnly P (writeFileSync path content).
Proof.
  intros Hp w w' o H. unfold writeFileSync, bind, emit in H.
  injection H as <- _. split; [reflexivity|].
  intros path' Hn. cbn [disk logged]. apply get_set_other.
  intros ->. apply Hn, Hp.
Qed.

End Edits.

Ltac edits_step :=
  match goal with
  | |- editsOnly _ (ret _) => apply editsOnly_ret
  | |- editsOnly _ (throw _) => apply editsOnly_throw
  | |- editsOnly _ (typeError _) => apply editsOnly_throw
  | |- editsOnly _ this => apply editsOnly_this
  | |- editsOnly _ (emit _) => apply editsOnly_emit
  | |- editsOnly _ (assign _) => apply editsOnly_assign; intros ?; reflexivity
  | |- editsOnly _ (path_join _ _) => apply editsOnly_path_join
  | |- editsOnly _ (getLinesOrEmpty _ _) => apply editsOnly_getLinesOrEmpty
  | |- editsOnly _ (getLines _ _) => apply editsOnly_getLines
  | |- editsOnly _ (readFileSync _) => apply editsOnly_readFileSync
  | |- editsOnly _ (bind _ _) => apply editsOnly_bind; [|intros ?]
  | |- editsOnly _ (catch _ _) => apply editsOnly_catch; [|intros ?]
  | |- editsOnly _ (each _ _) => apply editsOnly_each; intros ?
  | |- editsOnly _ (eachWith _ _ _) => apply editsOnly_eachWith; intros ? ?
  | |- editsOnly _ (if ?b then _ else _) => destruct b
  | |- editsOnly _ (match ?x with _ => _ end) => destruct x
  end.

Ltac edits_auto := repeat edits_step.

(** Writing the file [rest] of the project, the way the methods do it:
    the path is joined from the root directory, then written. *)
Lemma editsOnly_own_write (rest : string) (content : string -> string) :
  editsOnly (ownFile rest)
    (f <- (p <- this ;; path_join (rootDir p) rest) ;;
     writeFileSync f (content f)).
Proof.
  intros w w' o. unfold bind, this, path_join.
  destruct (rootDir (self w)) as [root|] eqn:Hroot.
  - unfold ret, writeFileSync, bind, emit. intros H. injection H as <- _.
    split; [reflexivity|].
    intros path Hn. cbn [disk logged]. apply get_set_other.
    intros ->. apply Hn. rewrite Hroot. now exists root.
  - unfold typeError, throw. intros H. injection H as <- _.
    apply framed_refl.
Qed.

Lemma editsOnly__recordVersions (env : Env) (options : RecordOptions) :
  editsOnly (ownFile ".meteor/versions") (_recordVersions env options).
Proof.
  unfold _recordVersions.
  destruct (release_explicit env && negb (alwaysRecord options));
    [apply editsOnly_ret|].
  intros w w' o. unfold bind at 1, this at 1.
  apply (@editsOnly_own_write ".meteor/versions"
           (fun _ => join "" (sortLines (versionLines (dependencies (self w)))))).
Qed.

Lemma editsOnly_calculateCombinedConstraints (P : option string -> string -> Prop)
  (env : Env) (releasePackages : Obj.t string) :
  editsOnly P (calculateCombinedConstraints env releasePackages).
Proof.
  unfold calculateCombinedConstraints, getProgramsSubdirs, programDeps,
    getProgramsDirectory.
  edits_auto.
Qed.

Lemma editsOnly__ensurePackagesExistOnDisk (P : option string -> string -> Prop)
  (env : Env) (vs : versions) (options : DiskOptions) :
  editsOnly P (_ensurePackagesExistOnDisk env vs options).
Proof. unfold _ensurePackagesExistOnDisk. edits_auto. Qed.

Lemma editsOnly_showPackageChanges (P : option string -> string -> Prop)
  (old : option versions) (new : versions) (options : ShowOptions) :
  editsOnly P (showPackageChanges old new options).
Proof.
  unfold showPackageChanges, classifyChanges, showStep, typeError.
  edits_auto.
Qed.

Lemma editsOnly_setVersions (env : Env) (newVersions : versions)
  (options : RecordOptions) :
  editsOnly (ownFile ".meteor/versions") (setVersions env newVersions options).
Proof.
  unfold setVersions.
  apply editsOnly_bind; [apply editsOnly__ensurePackagesExistOnDisk|intros ?].
  destruct (negb _); [apply editsOnly_ret|].
  apply editsOnly_bind; [apply editsOnly_this|intros ?].
  apply editsOnly_bind; [|intros ?; apply editsOnly_ret].
  destruct (_ || _); [|apply editsOnly_ret].
  apply editsOnly_bind; [|intros ?; apply editsOnly__recordVersions].
  apply editsOnly_assign. reflexivity.
Qed.

Lemma editsOnly__ensureDepsUpToDate (env : Env) :
  editsOnly (ownFile ".meteor/versions") (_ensureDepsUpToDate env).
Proof.
  unfold _ensureDepsUpToDate, resolveConstraints.
  destruct (release_current env) as [current|]; [|apply editsOnly_throw].
  apply editsOnly_bind; [apply editsOnly_this|intros p].
  destruct (negb (_depsUpToDate p)); [|apply editsOnly_ret].
  apply editsOnly_bind; [apply editsOnly_assign; reflexivity|intros ?].
  apply editsOnly_bind;
    [apply editsOnly_calculateCombinedConstraints|intros combined].
  apply editsOnly_bind; [apply editsOnly_assign; reflexivity|intros ?].
  apply editsOnly_bind; [apply editsOnly_this|intros ?].
  apply editsOnly_bind; [edits_auto|intros newVersions].
  apply editsOnly_bind; [apply editsOnly_this|intros ?].
  apply editsOnly_bind; [apply editsOnly_setVersions|intros setV].
  apply editsOnly_bind; [apply editsOnly_showPackageChanges|intros ?].
  edits_auto.
Qed.

Lemma editsOnly_weaken {A : Type} (P Q : option string -> string -> Prop)
  (c : M A) :
  (forall r path, P r path -> Q r path) -> editsOnly P c -> editsOnly Q c.
Proof.
  intros HPQ Hc w w' o H. destruct (Hc _ _ _ H) as [R D].
  split; [exact R|]. intros path Hn. apply D. intros HP. apply Hn, HPQ, HP.
Qed.

(** Reading the lines of the file [rest] of the project and writing it
    back. *)
Lemma editsOnly_rewrite (env : Env) (rest : string)
  (content : list string -> string) :
  editsOnly (ownFile rest)
    (f <- (p <- this ;; path_join (rootDir p) rest) ;;
     lines <- getLinesOrEmpty env f ;;
     writeFileSync f (content lines)).
Proof.
  intros w w' o. unfold bind at 1, bind at 1, this, path_join.
  destruct (rootDir (self w)) as [root|] eqn:Hroot.
  - unfold ret at 1. rewrite (bind_Ret _ (getLinesOrEmpty_run env _ w)).
    unfold writeFileSync, bind, emit. intros H. injection H as <- _.
    split; [reflexivity|].
    intros path Hn. cbn [disk logged]. apply get_set_other.
    intros ->. apply Hn. rewrite Hroot. now exists root.
  - unfold typeError, throw. intros H. injection H as <- _.
    apply framed_refl.
Qed.

Lemma editsOnly__removePackageRecords (env : Env) (names : list string) :
  editsOnly (ownFile ".meteor/packages") (_removePackageRecords env names).
Proof.
  unfold _removePackageRecords.
  apply editsOnly_bind; [edits_auto|intros _].
  apply (@editsOnly_rewrite env ".meteor/packages"
           (fun lines =>
              join nl (filter (fun line => negb (mem (lineName line) names))
                              lines) ++ nl)).
Qed.

(** Methods run from a world whose root directory is [root]. *)
Section EditsAt.

Variables (root : string) (Q : string -> Prop).

Lemma editsAt_bind {A B : Type} (c : M A) (k : A -> M B) :
  editsAt root Q c -> (forall a, editsAt root Q (k a)) -> editsAt root Q (bind c k).
Proof.
  intros Hc Hk w w' o Hroot. unfold bind.
  destruct (c w) as [w1 [a|msg]] eqn:E; intros H.
  - destruct (Hc _ _ _ Hroot E) as [R1 D1].
    destruct (Hk a _ _ _ R1 H) as [R2 D2].
    split; [exact R2|]. intros path Hn. now rewrite D2, D1.
  - injection H as <- _. exact (Hc _ _ _ Hroot E).
Qed.

Lemma editsAt_of_editsOnly {A : Type} (P : option string -> string -> Prop)
  (c : M A) :
  (forall path, P (Some root) path -> Q path) -> editsOnly P c -> editsAt root Q c.
Proof.
  intros HPQ Hc w w' o Hroot H. destruct (Hc _ _ _ H) as [R D].
  split; [congruence|]. intros path Hn. apply D. rewrite Hroot.
  intros HP. apply Hn, HPQ, HP.
Qed.

Lemma editsAt_pure {A : Type} (c : M A) :
  editsOnly (fun _ _ => False) c -> editsAt root Q c.
Proof. apply editsAt_of_editsOnly. tauto. Qed.

Lemma editsAt_writeFileSync (path content : string) :
  Q path -> editsAt root Q (writeFileSync path content).
Proof.
  intros HQ. apply (@editsAt_of_editsOnly _ (fun _ p => p = path)).
  - now intros p ->.
  - apply editsOnly_writeFileSync. reflexivity.
Qed.

End EditsAt.

Lemma editsOnly_addStep (P : option string -> string -> Prop)
  (lines : list string) (name : string) :
  editsOnly P (addStep lines name).
Proof. unfold addStep, typeError. edits_auto. Qed.

Lemma editsOnly_forceEditPackages (env : Env) (names : list string)
  (operation : string) :
  editsOnly (ownFile ".meteor/packages")
    (forceEditPackages env names operation).
Proof.
  intros w w' o. unfold forceEditPackages.
  unfold bind at 1, _getConstraintFile, bind at 1, this, path_join.
  destruct (rootDir (self w)) as [root|] eqn:Hroot.
  2:{ unfold typeError, throw. intros H. injection H as <- _.
      apply framed_refl. }
  unfold ret at 1. intros H.
  assert (G : editsAt root (fun p => p = packagesAt root)
                (lines <- getLinesOrEmpty env (root ++ "/" ++ ".meteor/packages") ;;
                 (if operation =? "add"
                  then
                    lines0 <- eachWith names lines addStep ;;
                    writeFileSync (root ++ "/" ++ ".meteor/packages")
                      (join nl lines0 ++ nl)
                  else
                    if operation =? "remove"
                    then _removePackageRecords env names
                    else ret tt) ;;
                 assign (with_depsUpToDate false))).
  { apply editsAt_bind; [apply editsAt_pure, editsOnly_getLinesOrEmpty|intros lines].
    apply editsAt_bind.
    - destruct (operation =? "add").
      + apply editsAt_bind.
        * apply editsAt_pure, editsOnly_eachWith. intros. apply editsOnly_addStep.
        * intros lines0. apply editsAt_writeFileSync. reflexivity.
      + destruct (operation =? "remove").
        * apply (@editsAt_of_editsOnly root _ _ (ownFile ".meteor/packages")).
          -- intros path (r & Hr & ->). now injection Hr as <-.
          -- apply editsOnly__removePackageRecords.
        * apply editsAt_pure, editsOnly_ret.
    - intros _. apply editsAt_pure, editsOnly_assign. reflexivity. }
  destruct (G _ _ _ Hroot H) as [R D].
  split; [congruence|]. intros path Hn. apply D.
  intros ->. apply Hn. rewrite Hroot. now exists root.
Qed.

(** ** What a recompute and a forced edit leave alone *)

Lemma keeps_getLinesOrEmpty {T : Type} (f : Project -> T) (env : Env)
  (path : string) :
  keeps f (getLinesOrEmpty env path).
Proof.
  intros w w' o. rewrite getLinesOrEmpty_run. intros H.
  now injection H as <- _.
Qed.

Lemma keeps__ensureDepsUpToDate {T : Type} (f : Project -> T) (env : Env) :
  (forall x p, f (with_dependencies x p) = f p) ->
  (forall x p, f (with_combinedConstraints x p) = f p) ->
  (forall x p, f (with_packageLoader x p) = f p) ->
  (forall x p, f (with_depsUpToDate x p) = f p) ->
  (forall x p, f (with_viableDepSource x p) = f p) ->
  keeps f (_ensureDepsUpToDate env).
Proof.
  intros Hd Hc Hl Hu Hv. unfold _ensureDepsUpToDate.
  destruct (release_current env) as [current|]; [|apply keeps_throw].
  apply keeps_bind; [apply keeps_this|intros p].
  destruct (negb (_depsUpToDate p)); [|apply keeps_ret].
  apply keeps_bind; [apply keeps_assign, Hv|intros ?].
  apply keeps_bind; [apply keeps_calculateCombinedConstraints|intros combined].
  apply keeps_bind; [apply keeps_assign, Hc|intros ?].
  apply keeps_bind; [apply keeps_this|intros ?].
  apply keeps_bind; [apply keeps_resolveConstraints|intros newVersions].
  apply keeps_bind; [apply keeps_this|intros ?].
  apply keeps_bind; [apply keeps_setVersions, Hd|intros setV].
  apply keeps_bind; [apply keeps_showPackageChanges|intros ?].
  destruct (negb (success setV)); [apply keeps_throw|].
  apply keeps_bind; [apply keeps_assign, Hl|intros ?].
  apply keeps_bind; [apply keeps_assign, Hu|intros ?].
  apply keeps_assign, Hv.
Qed.

(** Whatever its outcome, [_ensureDepsUpToDate] leaves the root directory,
    the constraints, the identifier and the muted flag of the project as
    they were, and changes no file other than the versions file of the
    project. *)
Theorem ensureDepsUpToDate_frame (env : Env) (w : World) :
  rootDir (self (worldAfter (_ensureDepsUpToDate env w))) = rootDir (self w)
  /\ constraints (self (worldAfter (_ensureDepsUpToDate env w)))
     = constraints (self w)
  /\ appId (self (worldAfter (_ensureDepsUpToDate env w))) = appId (self w)
  /\ muted (self (worldAfter (_ensureDepsUpToDate env w))) = muted (self w)
  /\ forall path,
       ~ ownFile ".meteor/versions" (rootDir (self w)) path ->
       Obj.get (disk (worldAfter (_ensureDepsUpToDate env w))) path
       = Obj.get (disk w) path.
Proof.
  destruct (_ensureDepsUpToDate env w) as [w' o] eqn:H.
  unfold worldAfter; cbn [fst].
  repeat split.
  - exact (@keeps__ensureDepsUpToDate _ rootDir env
             (fun _ _ => eq_refl) (fun _ _ => eq_refl) (fun _ _ => eq_refl)
             (fun _ _ => eq_refl) (fun _ _ => eq_refl) _ _ _ H).
  - exact (@keeps__ensureDepsUpToDate _ constraints env
             (fun _ _ => eq_refl) (fun _ _ => eq_refl) (fun _ _ => eq_refl)
             (fun _ _ => eq_refl) (fun _ _ => eq_refl) _ _ _ H).
  - exact (@keeps__ensureDepsUpToDate _ appId env
             (fun _ _ => eq_refl) (fun _ _ => eq_refl) (fun _ _ => eq_refl)
             (fun _ _ => eq_refl) (fun _ _ => eq_refl) _ _ _ H).
  - exact (@keeps__ensureDepsUpToDate _ muted env
             (fun _ _ => eq_refl) (fun _ _ => eq_refl) (fun _ _ => eq_refl)
             (fun _ _ => eq_refl) (fun _ _ => eq_refl) _ _ _ H).
  - exact (proj2 (@editsOnly__ensureDepsUpToDate env _ _ _ H)).
Qed.

Lemma not_ownFile_other (rest rest' root : string) :
  rest <> rest' -> ~ ownFile rest (Some root) (root ++ "/" ++ rest').
Proof.
  intros Hne (r & Hr & Hp). injection Hr as <-.
  apply Hne. symmetry.
  revert Hp. clear. induction root as [|a root IH]; simpl; intros H.
  - now injection H.
  - injection H as H. auto.
Qed.

Lemma ensureDepsUpToDate_frame_witness :
  Obj.get (disk (worldAfter (_ensureDepsUpToDate envCheckout pinnedWorld)))
    (packagesAt "/app")
  = Obj.get (disk pinnedWorld) (packagesAt "/app").
Proof.
  apply (proj2 (proj2 (proj2 (proj2
           (ensureDepsUpToDate_frame envCheckout pinnedWorld))))).
  apply not_ownFile_other. discriminate.
Defined.

Lemma keeps__removePackageRecords {T : Type} (f : Project -> T) (env : Env)
  (names : list string) :
  (forall x p, f (with_constraints x p) = f p) ->
  keeps f (_removePackageRecords env names).
Proof.
  intros Hf. unfold _removePackageRecords, _getConstraintFile, typeError.
  apply keeps_bind.
  - apply keeps_each. intros name.
    apply keeps_bind; [apply keeps_this|intros p].
    destruct (constraints p); [apply keeps_assign, Hf | apply keeps_throw].
  - intros _. apply keeps_bind; [keeps_auto|intros packages].
    apply keeps_bind; [apply keeps_getLinesOrEmpty|intros lines].
    apply keeps_writeFileSync.
Qed.

Lemma keeps_forceEditPackages {T : Type} (f : Project -> T) (env : Env)
  (names : list string) (operation : string) :
  (forall x p, f (with_constraints x p) = f p) ->
  (forall x p, f (with_depsUpToDate x p) = f p) ->
  keeps f (forceEditPackages env names operation).
Proof.
  intros Hc Hu. unfold forceEditPackages, _getConstraintFile.
  apply keeps_bind; [keeps_auto|intros file].
  apply keeps_bind; [apply keeps_getLinesOrEmpty|intros lines].
  apply keeps_bind; [|intros _; apply keeps_assign, Hu].
  destruct (operation =? "add").
  - apply keeps_bind; [|intros ?; apply keeps_writeFileSync].
    apply keeps_eachWith. intros ls name. unfold addStep, typeError.
    apply keeps_bind; [apply keeps_this|intros p].
    destruct (containsValue (constraints p) name); [apply keeps_ret|].
    destruct (constraints p); [|apply keeps_throw].
    apply keeps_bind; [apply keeps_assign, Hc | intros ?; apply keeps_ret].
  - destruct (operation =? "remove");
      [now apply keeps__removePackageRecords | apply keeps_ret].
Qed.

Lemma forceEditPackages_stale (env : Env) (names : list string)
  (operation : string) (w w' : World) :
  forceEditPackages env names operation w = (w', Ret tt) ->
  _depsUpToDate (self w') = false /\ exists root, rootDir (self w) = Some root.
Proof.
  unfold forceEditPackages. intros H.
  apply bind_inv in H. destruct H as (w1 & file & Hfile & H).
  apply bind_inv in H. destruct H as (w2 & lines & _ & H).
  apply bind_inv in H. destruct H as (w3 & [] & _ & H).
  injection H as <-. split; [reflexivity|].
  unfold _getConstraintFile, bind, this, path_join in Hfile.
  destruct (rootDir (self w)) as [root|]; [now exists root | discriminate].
Qed.

(** A forced edit, whatever the operation and the outcome, leaves the
    root directory, the dependencies, the combined constraints, the
    package loader, the identifier and the flags [viableDepSource] and
    [muted] as they were and changes no file other than the packages file
    of the project; whenever it returns, the project is stale. *)
Theorem forceEditPackages_frame (env : Env) (names : list string)
  (operation : string) (w : World) :
  let w' := worldAfter (forceEditPackages env names operation w) in
  rootDir (self w') = rootDir (self w)
  /\ dependencies (self w') = dependencies (self w)
  /\ combinedConstraints (self w') = combinedConstraints (self w)
  /\ packageLoader (self w') = packageLoader (self w)
  /\ appId (self w') = appId (self w)
  /\ viableDepSource (self w') = viableDepSource (self w)
  /\ muted (self w') = muted (self w)
  /\ (forall path,
        ~ ownFile ".meteor/packages" (rootDir (self w)) path ->
        Obj.get (disk w') path = Obj.get (disk w) path)
  /\ (outcome (forceEditPackages env names operation w) = Ret tt ->
      _depsUpToDate (self w') = false).
Proof.
  destruct (forceEditPackages env names operation w) as [w' o] eqn:H.
  unfold worldAfter, outcome; cbn [fst snd].
  repeat split.
  - exact (@keeps_forceEditPackages _ rootDir env names operation
             (fun _ _ => eq_refl) (fun _ _ => eq_refl) _ _ _ H).
  - exact (@keeps_forceEditPackages _ dependencies env names operation
             (fun _ _ => eq_refl) (fun _ _ => eq_refl) _ _ _ H).
  - exact (@keeps_forceEditPackages _ combinedConstraints env names operation
             (fun _ _ => eq_refl) (fun _ _ => eq_refl) _ _ _ H).
  - exact (@keeps_forceEditPackages _ packageLoader env names operation
             (fun _ _ => eq_refl) (fun _ _ => eq_refl) _ _ _ H).
  - exact (@keeps_forceEditPackages _ appId env names operation
             (fun _ _ => eq_refl) (fun _ _ => eq_refl) _ _ _ H).
  - exact (@keeps_forceEditPackages _ viableDepSource env names operation
             (fun _ _ => eq_refl) (fun _ _ => eq_refl) _ _ _ H).
  - exact (@keeps_forceEditPackages _ muted env names operation
             (fun _ _ => eq_refl) (fun _ _ => eq_refl) _ _ _ H).
  - exact (proj2 (@editsOnly_forceEditPackages env names operation _ _ _ H)).
  - intros ->. exact (proj1 (forceEditPackages_stale _ _ _ _ H)).
Qed.

Lemma forceEditPackages_frame_witness :
  Obj.get
    (disk (worldAfter (forceEditPackages envCheckout ["b"] "add"
                         upToDateWorld)))
    (versionsAt "/app")
  = Obj.get (disk upToDateWorld) (versionsAt "/app")
  /\ _depsUpToDate
       (self (worldAfter (forceEditPackages envCheckout ["b"] "add"
                            upToDateWorld)))
     = false.
Proof.
  pose proof (forceEditPackages_frame envCheckout ["b"] "add" upToDateWorld)
    as H.
  cbv zeta in H.
  destruct H as (_ & _ & _ & _ & _ & _ & _ & Hdisk & Hstale).
  split.
  - apply Hdisk. apply not_ownFile_other. discriminate.
  - apply Hstale. reflexivity.
Defined.

(** ** Removing and adding package records *)

Lemma get_delete {V : Type} (o : Obj.t V) (k k' : string) :
  Obj.get (Obj.delete o k) k' = if k =? k' then None else Obj.get o k'.
Proof.
  unfold Obj.delete.
  induction o as [|[k0 v0] o IH]; simpl.
  - now destruct (k =? k').
  - destruct (k0 =? k) eqn:E; simpl.
    + apply String.eqb_eq in E. subst k0. rewrite IH.
      now destruct (k =? k').
    + rewrite IH. destruct (k0 =? k') eqn:E'; [|reflexivity].
      apply String.eqb_eq in E'. subst k0. now rewrite String.eqb_sym, E.
Qed.

Lemma get_deleteAll {V : Type} (names : list string) :
  forall (o : Obj.t V) (k : string),
    Obj.get (fold_left Obj.delete names o) k
    = if mem k names then None else Obj.get o k.
Proof.
  unfold mem.
  induction names as [|n names IH]; intros o k; simpl; [reflexivity|].
  rewrite IH, get_delete, (String.eqb_sym n k).
  destruct (k =? n); simpl; [now destruct (existsb _ names) | reflexivity].
Qed.

Lemma with_constraints_same (p : Project) :
  with_constraints (constraints p) p = p.
Proof. now destruct p. Qed.

Lemma with_constraints_twice (x y : option (Obj.t jsstr)) (p : Project) :
  with_constraints x (with_constraints y p) = with_constraints x p.
Proof. reflexivity. Qed.

Lemma deleteEach_run (names : list string) :
  forall (cs : Obj.t jsstr) (w : World),
    constraints (self w) = Some cs ->
    each names
      (fun name =>
         p <- this ;;
         match constraints p with
         | Some cs => assign (with_constraints (Some (Obj.delete cs name)))
         | None => typeError "Cannot convert null to object"
         end) w
    = (updated (with_constraints (Some (fold_left Obj.delete names cs))) w,
       Ret tt).
Proof.
  induction names as [|n names IH]; intros cs w Hcs; simpl.
  - unfold ret, updated. rewrite <- Hcs, with_constraints_same.
    now destruct w.
  - unfold bind at 1, bind at 1, this at 1. rewrite Hcs.
    rewrite assign_run.
    rewrite (IH (Obj.delete cs n)) by reflexivity.
    reflexivity.
Qed.

(** [_removePackageRecords] on a project with a root directory and loaded
    constraints returns; afterwards none of the names is a key of the
    constraint set and every other key has the constraint it had, and the
    packages file holds, in their order and as they were, exactly the
    lines whose package name is none of the names. *)
Theorem removePackageRecords_removes (env : Env) (names : list string)
  (root : string) (cs : Obj.t jsstr) (w : World) :
  rootDir (self w) = Some root ->
  constraints (self w) = Some cs ->
  exists w' cs',
    _removePackageRecords env names w = (w', Ret tt)
    /\ constraints (self w') = Some cs'
    /\ (forall k, Obj.get cs' k = if mem k names then None else Obj.get cs k)
    /\ Obj.get (disk w') (packagesAt root)
       = Some (join nl
                 (filter (fun line => negb (mem (lineName line) names))
                         (linesAt env (disk w) (packagesAt root)))
               ++ nl).
Proof.
  intros Hroot Hcs. unfold _removePackageRecords.
  rewrite (bind_Ret _ (deleteEach_run names w Hcs)).
  rewrite (bind_Ret _ (@_getConstraintFile_run root
                         (updated (with_constraints
                                     (Some (fold_left Obj.delete names cs))) w)
                         Hroot)).
  rewrite (bind_Ret _ (getLinesOrEmpty_run env _ _)).
  unfold writeFileSync, bind, emit.
  eexists _, _. split; [reflexivity|]. cbn.
  split; [reflexivity|]. split; [apply get_deleteAll | apply get_set_same].
Qed.

Lemma removePackageRecords_removes_witness :
  exists w' cs',
    _removePackageRecords envCheckout ["a"] pinnedWorld = (w', Ret tt)
    /\ constraints (self w') = Some cs'
    /\ Obj.get cs' "a" = None
    /\ Obj.get (disk w') (packagesAt "/app") = Some nl.
Proof.
  destruct (@removePackageRecords_removes envCheckout ["a"] "/app"
              [("a", Some "1.0.0")] pinnedWorld eq_refl eq_refl)
    as (w' & cs' & H1 & H2 & H3 & H4).
  exists w', cs'. split; [exact H1|]. split; [exact H2|].
  split; [exact (H3 "a") | exact H4].
Defined.

Lemma get_set {V : Type} (o : Obj.t V) (k k' : string) (v : V) :
  Obj.get (Obj.set o k v) k' = if k =? k' then Some v else Obj.get o k'.
Proof.
  destruct (k =? k') eqn:E.
  - apply String.eqb_eq in E. subst. apply get_set_same.
  - apply get_set_other. apply String.eqb_neq in E. congruence.
Qed.

Lemma addEach_run (names : list string) :
  forall (lines : list string) (cs : Obj.t jsstr) (w : World),
    constraints (self w) = Some cs ->
    exists cs' appended,
      eachWith names lines addStep w
      = (updated (with_constraints (Some cs')) w, Ret (lines ++ appended)%list)
      /\ Forall (fun l => l = "" \/ In l names) appended
      /\ (forall k, ~ In k names -> Obj.get cs' k = Obj.get cs k)
      /\ (forall k, Obj.has cs k = true -> Obj.has cs' k = true)
      /\ (forall k v, Obj.get cs' k = Some v ->
          Obj.get cs k = Some v \/ (In k names /\ v = None)).
Proof.
  induction names as [|n names IH]; intros lines cs w Hcs; simpl.
  - exists cs, []. rewrite app_nil_r. split.
    + unfold ret, updated. rewrite <- Hcs, with_constraints_same.
      now destruct w.
    + repeat split; auto.
  - unfold bind at 1, addStep at 1, bind at 1, this at 1. rewrite Hcs.
    destruct (containsValue (Some cs) n).
    + unfold ret at 1.
      destruct (IH lines cs w Hcs) as (cs' & app & H & HF & Hk & Hh & Hv).
      exists cs', app. split; [exact H|]. split; [|split; [|split]].
      * eapply Forall_impl; [|exact HF]. intros l [-> | Hl]; auto.
      * intros k Hn. simpl in Hn. apply Hk. tauto.
      * exact Hh.
      * intros k v Hg. destruct (Hv k v Hg) as [X | [X Y]]; auto.
    + rewrite (bind_Ret _ (assign_run _ w)). unfold ret at 1.
      match goal with
      | |- context [eachWith names ?ls addStep ?w1] =>
          destruct (IH ls (Obj.set cs n None) w1 eq_refl)
            as (cs' & app & H & HF & Hk & Hh & Hv);
          set (ls0 := ls) in *
      end.
      assert (Hls : exists pre, ls0 = (lines ++ pre)%list
                    /\ Forall (fun l => l = "" \/ In l (n :: names)) pre).
      { subst ls0.
        destruct (negb (truthy (Obj.get cs "length"))
                  && negb (length lines =? 0)%nat).
        - exists [""; n]. rewrite <- app_assoc. split; [reflexivity|].
          apply Forall_cons; [now left|].
          apply Forall_cons; [right; now left | constructor].
        - exists [n]. split; [reflexivity|].
          apply Forall_cons; [right; now left | constructor]. }
      destruct Hls as (pre & Hpre & HFpre).
      exists cs', (pre ++ app)%list. split; [|split; [|split; [|split]]].
      * rewrite H, Hpre, <- app_assoc. reflexivity.
      * apply Forall_app. split; [exact HFpre|].
        eapply Forall_impl; [|exact HF]. intros l [-> | Hl]; simpl; auto.
      * intros k Hn. simpl in Hn. rewrite Hk by tauto.
        apply get_set_other. intros ->. tauto.
      * intros k Hk0. apply Hh. unfold Obj.has in *. rewrite get_set.
        destruct (n =? k); [reflexivity | exact Hk0].
      * intros k v Hg. destruct (Hv k v Hg) as [X | [X Y]].
        -- rewrite get_set in X. destruct (n =? k) eqn:E.
           ++ apply String.eqb_eq in E. subst. injection X as <-.
              right. split; [now left | reflexivity].
           ++ now left.
        -- right. split; [now right | exact Y].
Qed.

(** A forced add on a project with a root directory and loaded constraints
    returns.  It keeps every line of the packages file in place and only
    appends lines that are empty or one of the names; it keeps every key of
    the constraint set, does not touch the constraint of a package that it
    was not given, and records no constraint other than [null]. *)
Theorem forceEditPackages_add_appends (env : Env) (names : list string)
  (root : string) (cs : Obj.t jsstr) (w : World) :
  rootDir (self w) = Some root ->
  constraints (self w) = Some cs ->
  exists w' cs' appended,
    forceEditPackages env names "add" w = (w', Ret tt)
    /\ Obj.get (disk w') (packagesAt root)
       = Some (join nl (linesAt env (disk w) (packagesAt root) ++ appended)
               ++ nl)
    /\ Forall (fun l => l = "" \/ In l names) appended
    /\ constraints (self w') = Some cs'
    /\ (forall k, ~ In k names -> Obj.get cs' k = Obj.get cs k)
    /\ (forall k, Obj.has cs k = true -> Obj.has cs' k = true)
    /\ (forall k v, Obj.get cs' k = Some v ->
        Obj.get cs k = Some v \/ (In k names /\ v = None)).
Proof.
  intros Hroot Hcs. unfold forceEditPackages.
  rewrite (bind_Ret _ (_getConstraintFile_run w Hroot)).
  rewrite (bind_Ret _ (getLinesOrEmpty_run env _ w)).
  cbn [String.eqb Ascii.eqb Bool.eqb].
  destruct (addEach_run names
              (linesAt env (disk w) (root ++ "/" ++ ".meteor/packages"))
              (logged [ReadFile (root ++ "/" ++ ".meteor/packages")] w) Hcs)
    as (cs' & app & H & HF & Hk & Hh & Hv).
  match goal with
  | |- context [bind (bind (eachWith names ?ls addStep) ?k) _ ?w1] =>
      assert (X : exists w2,
                bind (eachWith names ls addStep) k w1 = (w2, Ret tt)
                /\ self w2 = with_constraints (Some cs') (self w)
                /\ Obj.get (disk w2) (packagesAt root)
                   = Some (join nl (ls ++ app) ++ nl))
  end.
  { rewrite (bind_Ret _ H). unfold writeFileSync, bind, emit.
    eexists. split; [reflexivity|]. cbn.
    split; [reflexivity | apply get_set_same]. }
  destruct X as (w2 & X & Hself & Hfile).
  rewrite (bind_Ret _ X), assign_run.
  exists (updated (with_depsUpToDate false) w2), cs', app.
  split; [reflexivity|]. cbn [self disk updated]. rewrite Hself.
  split; [exact Hfile|]. repeat split; assumption.
Qed.

Lemma forceEditPackages_add_appends_witness :
  exists w' cs' appended,
    forceEditPackages envCheckout ["b"; "c"] "add" pinnedWorld = (w', Ret tt)
    /\ Obj.get (disk w') (packagesAt "/app")
       = Some (join nl (["a@1.0.0"] ++ appended) ++ nl)
    /\ constraints (self w') = Some cs'
    /\ Obj.get cs' "a" = Some (Some "1.0.0").
Proof.
  destruct (@forceEditPackages_add_appends envCheckout ["b"; "c"] "/app"
              [("a", Some "1.0.0")] pinnedWorld eq_refl eq_refl)
    as (w' & cs' & app & H1 & H2 & _ & H4 & H5 & _).
  exists w', cs', app. split; [exact H1|]. split; [exact H2|].
  split; [exact H4|]. rewrite H5; [reflexivity|].
  simpl. intuition discriminate.
Defined.

(** ** Adding packages *)

Lemma setEach_run (moreDeps : list PackageConstraint) :
  forall (cs : Obj.t jsstr) (w : World),
    constraints (self w) = Some cs ->
    each moreDeps
      (fun constraint =>
         p <- this ;;
         match constraints p with
         | Some cs =>
             assign (with_constraints
                       (Some (Obj.set cs (pc_name constraint)
                                      (constraintString constraint))))
         | None => typeError "Cannot set property of null"
         end) w
    = (updated (with_constraints (Some (withAdded moreDeps cs))) w, Ret tt).
Proof.
  unfold withAdded.
  induction moreDeps as [|c l IH]; intros cs w Hcs; simpl.
  - unfold ret, updated. rewrite <- Hcs, with_constraints_same.
    now destruct w.
  - unfold bind at 1, bind at 1, this at 1. rewrite Hcs.
    rewrite assign_run.
    rewrite (IH (Obj.set cs (pc_name c) (constraintString c))) by reflexivity.
    reflexivity.
Qed.

Lemma _removePackageRecords_run (env : Env) (names : list string)
  (root : string) (cs : Obj.t jsstr) (w : World) :
  rootDir (self w) = Some root ->
  constraints (self w) = Some cs ->
  _removePackageRecords env names w
  = ({| self := with_constraints (Some (fold_left Obj.delete names cs)) (self w);
        disk := Obj.set (disk w) (packagesAt root)
                  (join nl (keptLines env names (disk w) (packagesAt root))
                   ++ nl);
        drawn := drawn w;
        trace := trace w ++
                 [ReadFile (packagesAt root);
                  WriteFile (packagesAt root)
                    (join nl (keptLines env names (disk w) (packagesAt root))
                     ++ nl)] |},
     Ret tt).
Proof.
  intros Hroot Hcs. unfold _removePackageRecords.
  rewrite (bind_Ret _ (deleteEach_run names w Hcs)).
  rewrite (bind_Ret _ (@_getConstraintFile_run root
                         (updated (with_constraints
                                     (Some (fold_left Obj.delete names cs))) w)
                         Hroot)).
  rewrite (bind_Ret _ (getLinesOrEmpty_run env _ _)).
  unfold writeFileSync, bind, emit. cbn. now rewrite <- app_assoc.
Qed.

Lemma get_withAdded (moreDeps : list PackageConstraint) :
  forall (cs : Obj.t jsstr) (k : string),
    ~ In k (map pc_name moreDeps) ->
    Obj.get (withAdded moreDeps cs) k = Obj.get cs k.
Proof.
  unfold withAdded.
  induction moreDeps as [|c l IH]; intros cs k Hn; simpl; [reflexivity|].
  simpl in Hn. rewrite IH by tauto. apply get_set_other. intros ->. tauto.
Qed.

Lemma mem_In (k : string) (l : list string) : mem k l = true <-> In k l.
Proof.
  unfold mem. rewrite existsb_exists. split.
  - intros (x & Hx & E). apply String.eqb_eq in E. now subst.
  - intros H. exists k. split; [exact H | apply String.eqb_refl].
Qed.

(** Over packages with distinct names that [acc] does not hold, the loop
    of [_ensurePackagesExistOnDisk] adds to [acc], in their order, exactly
    those whose download does not throw. *)
Lemma downloadedFrom_filter (env : Env) (vs : versions) :
  forall acc,
    NoDup (Obj.keys acc ++ Obj.keys vs) ->
    downloadedFrom env vs acc = (acc ++ filter (materializes env) vs)%list.
Proof.
  unfold downloadedFrom.
  induction vs as [|[k v] vs IH]; intros acc Hnd; simpl.
  - now rewrite app_nil_r.
  - assert (Hk : Obj.has acc k = false).
    { apply not_In_has. intros Hin.
      simpl in Hnd. apply NoDup_remove_2 in Hnd. apply Hnd.
      apply in_or_app. now left. }
    destruct (materializes env (k, v)); simpl.
    + rewrite set_absent by exact Hk.
      rewrite IH.
      * now rewrite <- app_assoc.
      * unfold Obj.keys in *. rewrite map_app. simpl in *.
        rewrite <- app_assoc. exact Hnd.
    + apply IH. simpl in Hnd. now apply NoDup_remove_1 in Hnd.
Qed.

(** When the download of one of the new versions throws, [addPackages]
    returns the packages that it could download and has changed neither
    the project nor a file.  The object returned has fewer keys than the
    one requested and holds only requested packages whose download did
    not throw; for a request with distinct keys it holds all of them, in
    the order of the request, so none that was downloaded is lost. *)
Theorem addPackages_shortfall (env : Env)
  (moreDeps : list PackageConstraint) (newVersions : versions) (w : World)
  (e : string * jsstr) :
  In e newVersions ->
  materializes env e = false ->
  exists es got,
    addPackages env moreDeps newVersions w = (logged es w, Ret got)
    /\ length (Obj.keys got) < length (Obj.keys newVersions)
    /\ (forall e', In e' got ->
        In e' newVersions /\ materializes env e' = true)
    /\ (Obj.wf newVersions ->
        got = filter (materializes env) newVersions
        /\ forall e', In e' newVersions -> materializes env e' = true ->
                      In e' got).
Proof.
  intros Hin Hfail.
  destruct (_ensurePackagesExistOnDisk_run_host env newVersions true w)
    as (es & H).
  unfold addPackages. rewrite (bind_Ret _ H).
  pose proof (downloadedFrom_length env newVersions Obj.empty) as L.
  pose proof (filter_length_lt (materializes env) newVersions e Hin Hfail) as L'.
  simpl in L.
  assert (N : (length (Obj.keys (downloadedFrom env newVersions Obj.empty))
               =? length (Obj.keys newVersions))%nat = false).
  { apply Nat.eqb_neq. unfold Obj.keys at 2. rewrite length_map. lia. }
  rewrite N. cbn [negb].
  exists es, (downloadedFrom env newVersions Obj.empty).
  split; [reflexivity|]. split; [|split].
  - unfold Obj.keys at 2. rewrite length_map. lia.
  - intros e' He'. apply downloadedFrom_In in He'.
    destruct He' as [[] | He']. exact He'.
  - intros Hwf.
    assert (E : downloadedFrom env newVersions Obj.empty
                = filter (materializes env) newVersions).
    { now rewrite downloadedFrom_filter. }
    split; [exact E|].
    intros e' He' Hm. rewrite E. apply filter_In. now split.
Qed.

Lemma addPackages_shortfall_witness :
  exists es,
    addPackages envMissing [{| pc_name := "c"; constraintString := None |}]
      [("a", Some "1"); ("b", Some "2"); ("c", Some "3")] boundWorld
    = (logged es boundWorld, Ret [("a", Some "1"); ("c", Some "3")]).
Proof.
  destruct (@addPackages_shortfall envMissing
              [{| pc_name := "c"; constraintString := None |}]
              [("a", Some "1"); ("b", Some "2"); ("c", Some "3")] boundWorld
              ("b", Some "2") (or_intror (or_introl eq_refl)) eq_refl)
    as (es & got & H1 & _ & _ & H2).
  destruct H2 as [E _].
  - repeat constructor; simpl; intuition discriminate.
  - exists es. rewrite H1, E. reflexivity.
Defined.

Lemma append_cancel (a b c : string) : a ++ b = a ++ c -> b = c.
Proof.
  induction a as [|x a IH]; simpl; intros H; [exact H|].
  injection H as H. auto.
Qed.

Lemma packagesAt_versionsAt (root : string) : packagesAt root <> versionsAt root.
Proof.
  unfold packagesAt, versionsAt. intros H. apply append_cancel in H.
  discriminate.
Qed.

(** With every build available, [addPackages] on a project with a root
    directory and loaded constraints returns the new versions and makes
    them the dependencies.  The packages file is rewritten as the lines it
    had, without those of the added packages, followed by one line per
    added package; the versions file is recorded unless the release is
    explicit.  In memory the added names are no keys of the constraint set
    afterwards and the other constraints are as before; the staleness flag
    is left as it was. *)
Theorem addPackages_commits (env : Env) (moreDeps : list PackageConstraint)
  (newVersions : versions) (root : string) (cs : Obj.t jsstr) (w : World) :
  Obj.wf newVersions ->
  (forall e, In e newVersions -> materializes env e = true) ->
  rootDir (self w) = Some root ->
  constraints (self w) = Some cs ->
  exists w' cs',
    addPackages env moreDeps newVersions w = (w', Ret newVersions)
    /\ dependencies (self w') = Some newVersions
    /\ constraints (self w') = Some cs'
    /\ (forall k,
          Obj.get cs' k
          = if mem k (map pc_name moreDeps) then None else Obj.get cs k)
    /\ _depsUpToDate (self w') = _depsUpToDate (self w)
    /\ Obj.get (disk w') (packagesAt root)
       = Some (join nl
                 (files_getLines env
                    (join nl (keptLines env (map pc_name moreDeps) (disk w)
                                (packagesAt root)) ++ nl)
                  ++ map constraintLine moreDeps ++ [nl]))
    /\ (release_explicit env = false ->
        Obj.get (disk w') (versionsAt root)
        = Some (join "" (sortLines (versionLines (Some newVersions))))).
Proof.
  intros Hwf Hall Hroot Hcs.
  destruct (_ensurePackagesExistOnDisk_run_host env newVersions true w)
    as (es & H).
  unfold addPackages. rewrite (bind_Ret _ H).
  assert (Hgot : downloadedFrom env newVersions Obj.empty = newVersions).
  { rewrite downloadedFrom_all; [reflexivity | exact Hwf | exact Hall]. }
  rewrite Hgot, Nat.eqb_refl. cbn [negb].
  rewrite (bind_Ret _ (setEach_run moreDeps (logged es w) Hcs)).
  rewrite (bind_Ret _ (assign_run _ _)).
  match goal with
  | |- context [bind (_removePackageRecords env ?names) _ ?w1] =>
      rewrite (bind_Ret _ (@_removePackageRecords_run env names root
                             (withAdded moreDeps cs) w1 Hroot eq_refl))
  end.
  match goal with
  | |- context [bind _getConstraintFile _ ?w2] =>
      rewrite (bind_Ret _ (@_getConstraintFile_run root w2 Hroot))
  end.
  rewrite (bind_Ret _ (getLinesOrEmpty_run env _ _)).
  unfold linesAt at 1. cbn [disk]. fold (packagesAt root).
  rewrite get_set_same.
  unfold writeFileSync at 1, bind at 1, bind at 1, emit at 1.
  destruct (release_explicit env) eqn:He.
  - rewrite (bind_Ret _ (@_recordVersions_skips env noRecordOptions _
                           He eq_refl)).
    unfold ret. eexists _, _. split; [reflexivity|].
    cbn [self disk logged updated dependencies with_dependencies
         with_constraints constraints _depsUpToDate].
    split; [reflexivity|]. split; [reflexivity|]. split; [|split; [|split]].
    + intros k. rewrite get_deleteAll.
      destruct (mem k (map pc_name moreDeps)) eqn:M; [reflexivity|].
      apply get_withAdded. intros Hin. apply mem_In in Hin. congruence.
    + reflexivity.
    + apply get_set_same.
    + discriminate.
  - match goal with
    | |- context [bind (_recordVersions env noRecordOptions) _ ?w3] =>
        rewrite (bind_Ret _ (@_recordVersions_writes env noRecordOptions root
                               w3 (or_introl He) Hroot))
    end.
    unfold ret. eexists _, _. split; [reflexivity|].
    cbn [self disk logged updated dependencies with_dependencies
         with_constraints constraints _depsUpToDate].
    split; [reflexivity|]. split; [reflexivity|]. split; [|split; [|split]].
    + intros k. rewrite get_deleteAll.
      destruct (mem k (map pc_name moreDeps)) eqn:M; [reflexivity|].
      apply get_withAdded. intros Hin. apply mem_In in Hin. congruence.
    + reflexivity.
    + rewrite get_set_other by apply packagesAt_versionsAt.
      apply get_set_same.
    + intros _. apply get_set_same.
Qed.

Lemma addPackages_commits_witness :
  exists w' cs',
    addPackages envCheckout
      [{| pc_name := "b"; constraintString := Some "1.0.0" |}]
      [("a", Some "1"); ("b", Some "2")] pinnedWorld
    = (w', Ret [("a", Some "1"); ("b", Some "2")])
    /\ constraints (self w') = Some cs'
    /\ Obj.get cs' "a" = Some (Some "1.0.0")
    /\ Obj.get cs' "b" = None
    /\ Obj.get (disk w') (packagesAt "/app")
       = Some ("a@1.0.0" ++ nl ++ "b@1.0.0" ++ nl ++ nl).
Proof.
  assert (Hwf : Obj.wf [("a", Some "1"); ("b", Some "2")]).
  { repeat constructor; simpl; intuition discriminate. }
  assert (Hall : forall e : string * jsstr,
            In e [("a", Some "1"); ("b", Some "2")] ->
            materializes envCheckout e = true).
  { intros e [<- | [<- | []]]; reflexivity. }
  destruct (@addPackages_commits envCheckout
              [{| pc_name := "b"; constraintString := Some "1.0.0" |}]
              [("a", Some "1"); ("b", Some "2")] "/app"
              [("a", Some "1.0.0")] pinnedWorld Hwf Hall eq_refl eq_refl)
    as (w' & cs' & H1 & _ & H3 & H4 & _ & H6 & _).
  exists w', cs'. split; [exact H1|]. split; [exact H3|].
  split; [exact (H4 "a")|]. split; [exact (H4 "b") | exact H6].
Defined.

(** ** Removing packages *)

(** [removePackages] recomputes even when the project was up to date: with
    a resolver answer for the constraints that are left and every build
    available it returns with the names removed from the constraint set,
    the project up to date, the package loader on the resolver's answer,
    and, unless the release is explicit, the versions file holding the
    sorted lines of the dependencies. *)
Theorem removePackages_recomputes (env : Env) (current : Release)
  (names : list string) (root : string) (cs : Obj.t jsstr)
  (old newVersions : versions) (w : World) :
  release_current env = Some current ->
  rootDir (self w) = Some root ->
  constraints (self w) = Some cs ->
  dependencies (self w) = Some old ->
  catalog_resolveConstraints env
    (combinedFor env (releasePackagesOf current) root
       (with_constraints (Some (fold_left Obj.delete names cs)) (self w)))
    (Some old)
  = Ret newVersions ->
  Obj.wf newVersions ->
  (forall e, In e newVersions -> materializes env e = true) ->
  exists w',
    removePackages env names w = (w', Ret tt)
    /\ constraints (self w') = Some (fold_left Obj.delete names cs)
    /\ (forall k, In k names ->
        Obj.has (fold_left Obj.delete names cs) k = false)
    /\ _depsUpToDate (self w') = true
    /\ packageLoader (self w') = Some newVersions
    /\ sameVersions newVersions (dependencies (self w')) = true
    /\ (release_explicit env = false ->
        Obj.get (disk w') (versionsAt root)
        = Some (join "" (sortLines (versionLines (dependencies (self w')))))).
Proof.
  intros Hrel Hroot Hcs Hold Hres Hwf Hall.
  unfold removePackages.
  rewrite (bind_Ret _ (@_removePackageRecords_run env names root cs w
                         Hroot Hcs)).
  rewrite (bind_Ret _ (assign_run _ _)).
  match goal with
  | |- context [bind (_ensureDepsUpToDate env) _ ?w1] =>
      destruct (@_ensureDepsUpToDate_run_ok env current root old newVersions
                  w1 Hrel eq_refl Hroot Hold Hres Hwf Hall)
        as (w2 & Hrun & Hup & _ & _ & Hload & Hsame & Hcons & Hroot2 & _)
  end.
  rewrite (bind_Ret _ Hrun).
  assert (Hkeys : forall k, In k names ->
            Obj.has (fold_left Obj.delete names cs) k = false).
  { intros k Hk. unfold Obj.has. rewrite get_deleteAll.
    apply mem_In in Hk. now rewrite Hk. }
  destruct (release_explicit env) eqn:He.
  - rewrite _recordVersions_skips by (assumption || reflexivity).
    exists w2. split; [reflexivity|]. split; [exact Hcons|].
    split; [exact Hkeys|]. split; [exact Hup|]. split; [exact Hload|].
    split; [exact Hsame | discriminate].
  - rewrite (@_recordVersions_writes env noRecordOptions root w2
               (or_introl He) Hroot2).
    eexists. split; [reflexivity|]. cbn [self disk].
    split; [exact Hcons|].
    split; [exact Hkeys|]. split; [exact Hup|]. split; [exact Hload|].
    split; [exact Hsame | intros _; apply get_set_same].
Qed.

Lemma removePackages_recomputes_witness :
  exists w',
    removePackages envCheckout ["a"] pinnedWorld = (w', Ret tt)
    /\ constraints (self w') = Some []
    /\ _depsUpToDate (self w') = true
    /\ packageLoader (self w') = Some [("a", Some "1")].
Proof.
  assert (Hwf : Obj.wf [("a", Some "1")]).
  { repeat constructor. simpl. tauto. }
  assert (Hall : forall e : string * jsstr,
            In e [("a", Some "1")] -> materializes envCheckout e = true).
  { intros e [<- | []]. reflexivity. }
  destruct (@removePackages_recomputes envCheckout Sample.checkout ["a"]
              "/app" [("a", Some "1.0.0")] [] [("a", Some "1")] pinnedWorld
              eq_refl eq_refl eq_refl eq_refl eq_refl Hwf Hall)
    as (w' & H1 & H2 & _ & H4 & H5 & _).
  exists w'. split; [exact H1|]. split; [exact H2|].
  split; [exact H4 | exact H5].
Defined.

(** ** The release pin *)

Lemma _meteorReleaseFilePath_run (root : string) (w : World) :
  rootDir (self w) = Some root ->
  _meteorReleaseFilePath w = (w, Ret (releaseAt root)).
Proof.
  intros H. unfold _meteorReleaseFilePath, bind, this, path_join.
  now rewrite H.
Qed.

Lemma getMeteorReleaseVersion_run (env : Env) (root : string) (w : World) :
  rootDir (self w) = Some root ->
  getMeteorReleaseVersion env w
  = (logged [ReadFile (releaseAt root)] w,
     Ret (match Obj.get (disk w) (releaseAt root) with
          | None => None
          | Some c => Some (firstLineTrimmed (files_getLines env c))
          end)).
Proof.
  intros Hroot. unfold getMeteorReleaseVersion.
  rewrite (bind_Ret _ (_meteorReleaseFilePath_run w Hroot)).
  unfold bind at 1, catch, bind at 1, getLines, bind at 1, emit at 1.
  cbn [disk logged].
  destruct (Obj.get (disk w) (releaseAt root)) as [c|]; [|reflexivity].
  unfold ret at 1. destruct (files_getLines env c); reflexivity.
Qed.

(** [getMeteorReleaseVersion] never writes.  Without a root directory it
    throws; with one it returns [null] exactly when the release file does
    not exist, and otherwise the first line of the file without its
    comment and surrounding blanks, the empty string for a file without
    lines. *)
Theorem getMeteorReleaseVersion_cases (env : Env) (w : World) :
  match rootDir (self w) with
  | None => exists msg, getMeteorReleaseVersion env w = (w, Throw msg)
  | Some root =>
      exists v,
        getMeteorReleaseVersion env w
        = (logged [ReadFile (releaseAt root)] w, Ret v)
        /\ (v = None <-> Obj.get (disk w) (releaseAt root) = None)
        /\ (forall c, Obj.get (disk w) (releaseAt root) = Some c ->
            v = Some (firstLineTrimmed (files_getLines env c)))
  end.
Proof.
  destruct (rootDir (self w)) as [root|] eqn:Hroot.
  - rewrite (getMeteorReleaseVersion_run env w Hroot).
    eexists. split; [reflexivity|].
    destruct (Obj.get (disk w) (releaseAt root)) as [c|].
    + split; [split; discriminate|]. intros c' H. now injection H as <-.
    + split; [tauto | discriminate].
  - unfold getMeteorReleaseVersion, _meteorReleaseFilePath, bind, this,
      path_join. rewrite Hroot. eexists. reflexivity.
Qed.

(** What [writeMeteorReleaseVersion] wrote is what
    [getMeteorReleaseVersion] reads, trimmed, provided the line splitter
    gives the release as the first line of the file. *)
Theorem release_round_trip (env : Env) (root release : string)
  (rest : list string) (w : World) :
  rootDir (self w) = Some root ->
  files_getLines env (release ++ nl) = release :: rest ->
  exists w1 w2,
    writeMeteorReleaseVersion release w = (w1, Ret tt)
    /\ getMeteorReleaseVersion env w1 = (w2, Ret (Some (trimLine release)))
    /\ self w2 = self w
    /\ disk w2 = disk w1
    /\ (forall path, path <> releaseAt root ->
        Obj.get (disk w1) path = Obj.get (disk w) path).
Proof.
  intros Hroot Hsplit.
  unfold writeMeteorReleaseVersion.
  rewrite (bind_Ret _ (_meteorReleaseFilePath_run w Hroot)).
  unfold writeFileSync, bind, emit.
  eexists _, _. split; [reflexivity|].
  split.
  - rewrite (@getMeteorReleaseVersion_run env root) by exact Hroot.
    cbn [disk logged]. rewrite get_set_same, Hsplit. reflexivity.
  - cbn. repeat split. intros path Hne. now apply get_set_other.
Qed.

Lemma release_round_trip_witness :
  exists w1 w2,
    writeMeteorReleaseVersion "METEOR@0.9.0  # pinned" boundWorld
    = (w1, Ret tt)
    /\ getMeteorReleaseVersion envCheckout w1
       = (w2, Ret (Some "METEOR@0.9.0")).
Proof.
  destruct (@release_round_trip envCheckout "/app" "METEOR@0.9.0  # pinned"
              [] boundWorld eq_refl eq_refl)
    as (w1 & w2 & H1 & H2 & _).
  exists w1, w2. split; [exact H1 | exact H2].
Defined.

Lemma getMeteorReleaseVersion_cases_witness :
  exists v,
    getMeteorReleaseVersion envCheckout boundWorld
    = (logged [ReadFile (releaseAt "/app")] boundWorld, Ret v)
    /\ v = None.
Proof.
  pose proof (getMeteorReleaseVersion_cases envCheckout boundWorld) as H.
  change (rootDir (self boundWorld)) with (Some "/app") in H.
  cbv iota in H.
  destruct H as (v & H1 & H2 & _).
  exists v. split; [exact H1|]. apply H2. reflexivity.
Defined.

(** ** The finished upgraders *)

Lemma endsWith_append (c : ascii) (s : string) :
  endsWith c (s ++ String c EmptyString) = true.
Proof.
  induction s as [|a s IH]; simpl; [apply Ascii.eqb_refl|].
  destruct (s ++ String c EmptyString) eqn:E; [|exact IH].
  destruct s; discriminate.
Qed.

Lemma append_assoc (a b c : string) : (a ++ b) ++ c = a ++ b ++ c.
Proof. induction a as [|x a IH]; simpl; [reflexivity | now rewrite IH]. Qed.

Lemma append_nil_r (a : string) : a ++ "" = a.
Proof. induction a as [|x a IH]; simpl; [reflexivity | now rewrite IH]. Qed.

Lemma _finishedUpgradersFile_run (root : string) (w : World) :
  rootDir (self w) = Some root ->
  _finishedUpgradersFile w = (w, Ret (upgradersAt root)).
Proof.
  intros H. unfold _finishedUpgradersFile, bind, this, path_join.
  now rewrite H.
Qed.

(** [appendFinishedUpgrader] on a project with a root directory returns
    and only appends: the ledger afterwards is what it was, then a separator
    that is empty or ends a line, then the upgrader on a line of its own.
    A ledger that did not exist starts with the explanatory header.  No
    other file changes. *)
Theorem appendFinishedUpgrader_appends (root upgrader : string) (w : World) :
  rootDir (self w) = Some root ->
  exists w' separator,
    appendFinishedUpgrader upgrader w = (w', Ret tt)
    /\ Obj.get (disk w') (upgradersAt root)
       = Some (contentOf (disk w) (upgradersAt root)
               ++ separator ++ upgrader ++ nl)
    /\ (contentOf (disk w) (upgradersAt root) ++ separator = ""
        \/ endsWith (ascii_of_nat 10)
             (contentOf (disk w) (upgradersAt root) ++ separator) = true)
    /\ (Obj.get (disk w) (upgradersAt root) = None ->
        separator = upgradersHeader)
    /\ (endsWith (ascii_of_nat 10) (contentOf (disk w) (upgradersAt root))
        = true -> separator = "")
    /\ self w' = self w
    /\ (forall path, path <> upgradersAt root ->
        Obj.get (disk w') path = Obj.get (disk w) path).
Proof.
  intros Hroot. unfold appendFinishedUpgrader.
  rewrite (bind_Ret _ (_finishedUpgradersFile_run w Hroot)).
  unfold bind at 1, catch, bind at 1, readFileSync, bind at 1, emit at 1.
  cbn [disk logged]. unfold contentOf.
  destruct (Obj.get (disk w) (upgradersAt root)) as [c|] eqn:G.
  - unfold ret at 1, appendFileSync. cbn [disk logged]. rewrite G.
    unfold appendText.
    eexists.
    exists (if negb (String.length c =? 0)%nat
               && negb (endsWith (ascii_of_nat 10) c)
            then nl else "").
    split; [reflexivity|]. cbn [disk self].
    split; [apply get_set_same|].
    split; [|split; [discriminate|split; [|split]]].
    + destruct c as [|a c']; [now left|]. right. simpl String.length.
      cbn [Nat.eqb negb andb].
      destruct (endsWith (ascii_of_nat 10) (String a c')) eqn:E; cbn [negb].
      * now rewrite append_nil_r.
      * apply endsWith_append.
    + intros ->. now rewrite andb_false_r.
    + reflexivity.
    + intros path Hne. now apply get_set_other.
  - unfold ret at 1, appendFileSync. cbn [disk logged]. rewrite G.
    unfold appendText.
    eexists. exists upgradersHeader.
    split; [reflexivity|]. cbn [disk self].
    split; [apply get_set_same|].
    split; [|split; [reflexivity|split; [|split]]].
    + right. reflexivity.
    + discriminate.
    + reflexivity.
    + intros path Hne. now apply get_set_other.
Qed.

Lemma appendFinishedUpgrader_appends_witness :
  exists w1 w2,
    appendFinishedUpgrader "notices-for-0.9.0" boundWorld = (w1, Ret tt)
    /\ appendFinishedUpgrader "notices-for-0.9.1" w1 = (w2, Ret tt)
    /\ Obj.get (disk w2) (upgradersAt "/app")
       = Some (upgradersHeader ++ "notices-for-0.9.0" ++ nl
               ++ "notices-for-0.9.1" ++ nl).
Proof.
  destruct (@appendFinishedUpgrader_appends "/app" "notices-for-0.9.0"
              boundWorld eq_refl)
    as (w1 & sep1 & H1 & F1 & _ & S1 & _ & R1 & _).
  assert (Hroot1 : rootDir (self w1) = Some "/app") by now rewrite R1.
  destruct (@appendFinishedUpgrader_appends "/app" "notices-for-0.9.1"
              w1 Hroot1)
    as (w2 & sep2 & H2 & F2 & _ & _ & S2 & _).
  exists w1, w2. split; [exact H1|]. split; [exact H2|].
  rewrite (S1 eq_refl) in F1. unfold contentOf in F2, S2.
  rewrite F1 in F2, S2. rewrite (S2 eq_refl) in F2.
  rewrite F2. reflexivity.
Defined.

(** ** Reading the ledger *)

Lemma trimLine_clean (line : string) :
  hasChar "#" (trimLine line) = false
  /\ trimLine (trimLine line) = trimLine line.
Proof.
  assert (H1 : hasChar "#" (trimLine line) = false).
  { unfold trimLine. apply rtrim_hasChar, ltrim_hasChar, before_hasChar. }
  split; [exact H1|].
  unfold trimLine at 1. rewrite (before_id _ _ H1).
  rewrite ltrim_id, rtrim_id; [reflexivity | apply rtrim_last |].
  unfold trimLine. rewrite rtrim_head; apply ltrim_head.
Qed.

(** [getFinishedUpgraders] never writes and returns the trimmed lines of
    the ledger that are not empty, in their order: no returned upgrader is
    empty, holds a comment sign or surrounding blanks.  A missing ledger
    gives no upgrader. *)
Theorem getFinishedUpgraders_clean (env : Env) (root : string) (w : World) :
  rootDir (self w) = Some root ->
  exists upgraders,
    getFinishedUpgraders env w
    = (logged [ReadFile (upgradersAt root)] w, Ret upgraders)
    /\ upgraders
       = filter (fun l => negb (l =? ""))
                (map trimLine (linesAt env (disk w) (upgradersAt root)))
    /\ Forall (fun u => u <> "" /\ hasChar "#" u = false /\ trimLine u = u)
              upgraders
    /\ (Obj.get (disk w) (upgradersAt root) = None -> upgraders = []).
Proof.
  intros Hroot. unfold getFinishedUpgraders.
  rewrite (bind_Ret _ (_finishedUpgradersFile_run w Hroot)).
  rewrite (bind_Ret _ (getLinesOrEmpty_run env _ w)).
  eexists. split; [reflexivity|]. split; [reflexivity|]. split.
  - apply Forall_forall. intros u Hu. apply filter_In in Hu.
    destruct Hu as [Hin Hne]. apply in_map_iff in Hin.
    destruct Hin as (line & <- & _).
    destruct (trimLine_clean line) as [Hc Hi].
    split; [|split; assumption].
    apply negb_true_iff, String.eqb_neq in Hne. exact Hne.
  - intros G. unfold linesAt. now rewrite G.
Qed.

Lemma getFinishedUpgraders_clean_witness :
  exists upgraders,
    getFinishedUpgraders envCheckout boundWorld
    = (logged [ReadFile (upgradersAt "/app")] boundWorld, Ret upgraders)
    /\ upgraders = [].
Proof.
  destruct (@getFinishedUpgraders_clean envCheckout "/app" boundWorld eq_refl)
    as (ups & H1 & _ & _ & H4).
  exists ups. split; [exact H1|]. apply H4. reflexivity.
Defined.

(** ** What the reporter returns *)




Lemma mem_true (k : string) (l : list string) : In k l -> mem k l = true.
Proof.
  intros H. unfold mem. apply existsb_exists. exists k.
  split; [exact H | apply String.eqb_refl].
Qed.

Lemma filter_absent_nil (l l' : list string) :
  (forall k, In k l -> In k l') ->
  filter (fun k => negb (mem k l')) l = [].
Proof.
  induction l as [|k l IH]; intros H; simpl; [reflexivity|].
  rewrite (mem_true k l') by (apply H; now left). simpl.
  apply IH. intros k' Hk'. apply H. now right.
Qed.

Lemma eachWith_showStep_unchanged (v new : versions) (options : ShowOptions)
  (l : list (string * jsstr)) :
  (forall e, In e l -> unchangedEntry v e = true) ->
  forall s w, eachWith l s (showStep v new options) w = (w, Ret s).
Proof.
  induction l as [|e l IH]; intros Hl s w; simpl; [reflexivity|].
  unfold bind, showStep at 1.
  pose proof (Hl e (or_introl eq_refl)) as He. unfold unchangedEntry in He.
  destruct (failed s).
  - unfold ret at 1. apply IH. intros e' H'. apply Hl. now right.
  - rewrite He. unfold ret at 1. apply IH. intros e' H'. apply Hl. now right.
Qed.

(** When the new versions are the old ones, the reporter returns 0 and
    performs no operation at all: it prints nothing, muted or not, and does
    not look at the on-disk packages. *)
Theorem showPackageChanges_no_change (v : versions) (options : ShowOptions)
  (w : World) :
  Obj.wf v ->
  showPackageChanges (Some v) v options w = (w, Ret 0).
Proof.
  intros Hwf. unfold showPackageChanges, classifyChanges.
  assert (Hsame : forall e, In e v -> unchangedEntry v e = true).
  { intros e He. unfold unchangedEntry, Obj.has.
    rewrite get_In_wf by assumption. apply jsstr_eqb_refl. }
  rewrite (bind_Ret _ (@eachWith_showStep_unchanged v v options v Hsame _ w)).
  unfold removedMessages.
  rewrite (filter_absent_nil (Obj.keys v) (Obj.keys v)) by auto.
  cbn [filter map failed messageLog].
  unfold bind, this. destruct (muted (self w)); reflexivity.
Qed.

Lemma showPackageChanges_no_change_witness :
  showPackageChanges (Some oldAB) oldAB noShowOptions boundWorld
  = (boundWorld, Ret 0).
Proof.
  apply showPackageChanges_no_change.
  repeat constructor; simpl; intuition discriminate.
Defined.
